(** * msprime: the tree sequence store and the tree-diff iterator

    A shallow embedding of [lib/tree_sequence.c].  Machine integers are [Z]
    with their wrap-around written out, heap blocks are optional lists (the
    NULL pointer is [None]), and every C function that can trip an
    assertion, read out of bounds or loop forever returns an [outcome]. *)

From Stdlib Require Import ZArith List Lia Bool Permutation Sorting.Sorted Ascii String.
From stdpp Require Import gmap strings.
Import ListNotations.
Local Open Scope Z_scope.

(** ** Outcomes of a C call *)

Inductive outcome (A : Type) : Type :=
| Done (a : A)     (* the call returned *)
| AssertFailed     (* an assert() fired: the process aborts *)
| Undefined        (* NULL or out-of-bounds access, use of an uninitialised object *)
| Diverges.        (* the loop does not end (or the model's fuel ran out) *)
Arguments Done {A} a.
Arguments AssertFailed {A}.
Arguments Undefined {A}.
Arguments Diverges {A}.

Definition bind {A B : Type} (c : outcome A) (k : A -> outcome B) : outcome B :=
  match c with
  | Done a => k a
  | AssertFailed => AssertFailed
  | Undefined => Undefined
  | Diverges => Diverges
  end.

Notation "'let*' x ':=' c 'in' k" := (bind c (fun x => k))
  (at level 10, x pattern, c at level 100, k at level 200).

(** ** Machine integers *)

Definition u32 (z : Z) : Z := z mod 2 ^ 32.       (* uint32_t arithmetic *)
Definition size_t (z : Z) : Z := z mod 2 ^ 64.    (* size_t arithmetic *)

(** Modelled from the spec: the error codes of err.h (not under src/).  §7
    names the kinds; the code only relies on their being distinct negative
    ints.  [MSP_ERR_HDF5] is the spec's [Io]. *)
Definition MSP_ERR_GENERIC : Z := -1.
Definition MSP_ERR_NO_MEMORY : Z := -2.
Definition MSP_ERR_HDF5 : Z := -3.
Definition MSP_ERR_FILE_FORMAT : Z := -4.
Definition MSP_ERR_OUT_OF_BOUNDS : Z := -5.

(** Modelled from the spec: the flag bits and the format version of msprime.h
    (not under src/).  §4.D and §4.E name the flags; the code tests them with
    a bitwise and. *)
Definition MSP_ZLIB_COMPRESSION : Z := 1.
Definition MSP_ALL_BREAKPOINTS : Z := 1.
Definition MSP_FILE_FORMAT_VERSION : Z := 0.

(** ** Heap blocks and the allocator *)

(** [a[i]] for a pointer [a] to a block. *)
Definition array_get {A : Type} (a : option (list A)) (i : Z) : outcome A :=
  match a with
  | None => Undefined
  | Some l =>
      if i <? 0 then Undefined
      else match l !! Z.to_nat i with
           | Some v => Done v
           | None => Undefined
           end
  end.

(** [a[i] = v]. *)
Definition array_set {A : Type} (a : option (list A)) (i : Z) (v : A)
  : outcome (option (list A)) :=
  match a with
  | None => Undefined
  | Some l =>
      if (0 <=? i) && (i <? Z.of_nat (length l))
      then Done (Some (<[Z.to_nat i := v]> l))
      else Undefined
  end.

(** The allocator.  [oracle] lists the answers of the coming [malloc] calls in
    call order ([false]: the call returns NULL); once it is used up every
    call succeeds.  [live_blocks] counts the blocks handed out and not yet
    freed. *)
Record mem_t := {
  oracle : list bool;
  live_blocks : nat
}.

(** [malloc(n * sz)] seen as a block of elements of size [sz]; the byte count
    is a [size_t] product.  A fresh block's contents are indeterminate: the
    model fills it with [dflt]. *)
Definition malloc {A : Type} (dflt : A) (n sz : Z) (m : mem_t)
  : option (list A) * mem_t :=
  let block := Some (repeat dflt (Z.to_nat (size_t (n * sz) / sz))) in
  match oracle m with
  | [] => (block, {| oracle := []; live_blocks := S (live_blocks m) |})
  | true :: o => (block, {| oracle := o; live_blocks := S (live_blocks m) |})
  | false :: o => (None, {| oracle := o; live_blocks := live_blocks m |})
  end.

(** [free(p)]; the callers below test [p != NULL] themselves. *)
Definition free {A : Type} (a : option (list A)) (m : mem_t) : mem_t :=
  match a with
  | None => m
  | Some _ => {| oracle := oracle m; live_blocks := pred (live_blocks m) |}
  end.

(** ** Data model *)

(** [coalescence_record_t].  [cr_time] is the IEEE-754 binary64 bit pattern of
    the double: the store and the iterator only copy it. *)
Record coalescence_record_t := {
  cr_left : Z;
  cr_right : Z;
  cr_node : Z;
  cr_children : Z * Z;
  cr_time : Z
}.

Definition record_zero : coalescence_record_t :=
  {| cr_left := 0; cr_right := 0; cr_node := 0; cr_children := (0, 0); cr_time := 0 |}.

(** [tree_sequence_t]: the six columns are pointers to heap blocks;
    [children] holds two entries per record. *)
Record tree_sequence_t := {
  sample_size : Z;
  num_loci : Z;
  num_records : Z;
  num_breakpoints : Z;
  breakpoints : option (list Z);
  ts_left : option (list Z);
  ts_right : option (list Z);
  ts_node : option (list Z);
  ts_children : option (list Z);
  ts_time : option (list Z)
}.

Definition set_sizes (self : tree_sequence_t) (nb nr n l : Z) : tree_sequence_t :=
  {| sample_size := n; num_loci := l; num_records := nr; num_breakpoints := nb;
     breakpoints := breakpoints self; ts_left := ts_left self;
     ts_right := ts_right self; ts_node := ts_node self;
     ts_children := ts_children self; ts_time := ts_time self |}.

Definition set_breakpoints (self : tree_sequence_t) (nb : Z) (bp : option (list Z))
  : tree_sequence_t :=
  {| sample_size := sample_size self; num_loci := num_loci self;
     num_records := num_records self; num_breakpoints := nb;
     breakpoints := bp; ts_left := ts_left self;
     ts_right := ts_right self; ts_node := ts_node self;
     ts_children := ts_children self; ts_time := ts_time self |}.

Definition set_columns (self : tree_sequence_t) (nr : Z)
  (l r n c t : option (list Z)) : tree_sequence_t :=
  {| sample_size := sample_size self; num_loci := num_loci self;
     num_records := nr; num_breakpoints := num_breakpoints self;
     breakpoints := breakpoints self; ts_left := l;
     ts_right := r; ts_node := n; ts_children := c; ts_time := t |}.

(** Modelled from the spec: the record source [msp_t] (msprime.h and the
    simulator are not under src/).  §6: it exposes the two counts,
    [sample_size], [num_loci], and copies its breakpoints and its records,
    which need not be sorted, into the caller's buffer. *)
Record msp_t := {
  sim_sample_size : Z;
  sim_num_loci : Z;
  sim_breakpoints : list Z;
  sim_records : list coalescence_record_t
}.

Definition msp_get_num_breakpoints (sim : msp_t) : Z :=
  Z.of_nat (length (sim_breakpoints sim)).

Definition msp_get_num_coalescence_records (sim : msp_t) : Z :=
  Z.of_nat (length (sim_records sim)).

(** Copies [src] over the start of the block [buf]. *)
Definition copy_into {A : Type} (src : list A) (buf : option (list A))
  : outcome (Z * option (list A)) :=
  match buf with
  | None => Undefined
  | Some l =>
      if (length l <? length src)%nat then Undefined
      else Done (0, Some (src ++ drop (length src) l))
  end.

Definition msp_get_breakpoints (sim : msp_t) (buf : option (list Z)) :=
  copy_into (sim_breakpoints sim) buf.

Definition msp_get_coalescence_records (sim : msp_t)
  (buf : option (list coalescence_record_t)) :=
  copy_into (sim_records sim) buf.

(** ** The store: allocation, creation, accessors *)

Definition cmp_coalescence_record (ca cb : coalescence_record_t) : Z :=
  (if cr_left cb <? cr_left ca then 1 else 0)
  - (if cr_left ca <? cr_left cb then 1 else 0).

Definition is_null {A : Type} (a : option (list A)) : bool :=
  match a with None => true | Some _ => false end.

Definition tree_sequence_alloc (self : tree_sequence_t) (m : mem_t)
  : Z * tree_sequence_t * mem_t :=
  let ret := MSP_ERR_NO_MEMORY in
  let '(bp, m) := malloc 0 (num_breakpoints self) 4 m in
  let self := set_breakpoints self (num_breakpoints self) bp in
  if is_null bp then (MSP_ERR_NO_MEMORY, self, m)
  else
    let '(l, m) := malloc 0 (num_records self) 4 m in
    let '(r, m) := malloc 0 (num_records self) 4 m in
    let '(c, m) := malloc 0 (2 * num_records self) 4 m in
    let '(n, m) := malloc 0 (num_records self) 4 m in
    let '(t, m) := malloc 0 (num_records self) 8 m in
    let self := set_columns self (num_records self) l r n c t in
    if is_null l || is_null r || is_null c || is_null n || is_null t
    then (ret, self, m)
    else (0, self, m).

Definition tree_sequence_free (self : tree_sequence_t) (m : mem_t) : Z * mem_t :=
  let m := if is_null (breakpoints self) then m else free (breakpoints self) m in
  let m := if is_null (ts_left self) then m else free (ts_left self) m in
  let m := if is_null (ts_right self) then m else free (ts_right self) m in
  let m := if is_null (ts_children self) then m else free (ts_children self) m in
  let m := if is_null (ts_node self) then m else free (ts_node self) m in
  let m := if is_null (ts_time self) then m else free (ts_time self) m in
  (0, m).

(** One pass of the copy loop of [tree_sequence_create], at index [j].  [j]
    is a [uint32_t], so the indices [2 * j] and [2 * j + 1] of the children
    are computed in 32 bits and wrap from [j = 2^31] on. *)
Definition create_scatter_one (records : option (list coalescence_record_t))
  (j : Z) (self : tree_sequence_t) : outcome tree_sequence_t :=
  let* rec := array_get records j in
  let* l := array_set (ts_left self) j (cr_left rec) in
  let* r := array_set (ts_right self) j (cr_right rec) in
  let* n := array_set (ts_node self) j (cr_node rec) in
  let* c := array_set (ts_children self) (u32 (2 * j)) (fst (cr_children rec)) in
  let* c := array_set c (u32 (2 * j + 1)) (snd (cr_children rec)) in
  let* t := array_set (ts_time self) j (cr_time rec) in
  Done (set_columns self (num_records self) l r n c t).

(** [for (j = 0; j < self->num_records; j++)], [count] passes from [j] on. *)
Fixpoint create_scatter (count : nat) (j : Z)
  (records : option (list coalescence_record_t)) (self : tree_sequence_t)
  : outcome tree_sequence_t :=
  match count with
  | O => Done self
  | S count' =>
      let* self := create_scatter_one records j self in
      create_scatter count' (j + 1) records self
  end.

(** [qsort] is the C library's: the model takes it as a parameter, applied
    to the comparator. *)
Definition tree_sequence_create
  (qsort : (coalescence_record_t -> coalescence_record_t -> Z) ->
           list coalescence_record_t -> list coalescence_record_t)
  (self : tree_sequence_t) (sim : msp_t) (m : mem_t)
  : outcome (Z * tree_sequence_t * mem_t) :=
  let self := set_sizes self (msp_get_num_breakpoints sim)
                (msp_get_num_coalescence_records sim)
                (sim_sample_size sim) (sim_num_loci sim) in
  (* the return value of tree_sequence_alloc is dropped *)
  let '(_, self, m) := tree_sequence_alloc self m in
  let* (ret, bp) := msp_get_breakpoints sim (breakpoints self) in
  let self := set_breakpoints self (num_breakpoints self) bp in
  if negb (ret =? 0) then Done (ret, self, m)
  else
    let '(records, m) := malloc record_zero (num_records self) 32 m in
    match records with
    | None => Done (ret, self, m)
    | Some _ =>
        let* (ret, records) := msp_get_coalescence_records sim records in
        if negb (ret =? 0) then Done (ret, self, free records m)
        else
          let records := option_map (qsort cmp_coalescence_record) records in
          (* j is a uint32_t: it never reaches a count of 2^32 or more *)
          if 2 ^ 32 <=? num_records self then Diverges
          else
            let* self := create_scatter (Z.to_nat (num_records self)) 0 records self in
            Done (0, self, free records m)
    end.

Definition tree_sequence_get_num_breakpoints (self : tree_sequence_t) : Z :=
  num_breakpoints self.

Definition tree_sequence_get_num_coalescence_records (self : tree_sequence_t) : Z :=
  num_records self.

(** Returns the return code, the store (which it only reads) and the record
    behind the out-pointer. *)
Definition tree_sequence_get_record (self : tree_sequence_t) (index : Z)
  (record : coalescence_record_t)
  : outcome (Z * tree_sequence_t * coalescence_record_t) :=
  let ret := MSP_ERR_OUT_OF_BOUNDS in
  if index <? num_records self then
    let* l := array_get (ts_left self) index in
    let* r := array_get (ts_right self) index in
    let* n := array_get (ts_node self) index in
    let* c0 := array_get (ts_children self) (2 * index) in
    let* c1 := array_get (ts_children self) (2 * index + 1) in
    let* t := array_get (ts_time self) index in
    Done (0, self, {| cr_left := l; cr_right := r; cr_node := n;
                      cr_children := (c0, c1); cr_time := t |})
  else Done (ret, self, record).


(** ** The container library

    HDF5 is an external library: the model keeps the logical content of a
    file (§4.D): groups, scalar attributes and datasets with their shape,
    storage type and filter pipeline.  A dataset's elements are the values a
    read delivers (a double is its bit pattern); the filters (shuffle,
    deflate, Fletcher32) are recorded and are transparent to a read. *)

Inductive h5_type := H5T_STD_U32LE | H5T_IEEE_F64LE.

Record h5_plist := {
  pl_chunk : list Z;
  pl_shuffle : bool;
  pl_deflate : option Z;
  pl_fletcher32 : bool
}.

Record h5_dataset := {
  ds_type : h5_type;
  ds_dims : list Z;
  ds_plist : h5_plist;
  ds_data : list Z
}.

Record h5_attr := {
  at_type : h5_type;
  at_dims : list Z;
  at_data : list Z
}.

(** Attributes are keyed by the path of their object and their name. *)
Record h5_file := {
  h5_groups : gset string;
  h5_attrs : gmap (string * string) h5_attr;
  h5_datasets : gmap string h5_dataset
}.

Definition h5_empty : h5_file :=
  {| h5_groups := ∅; h5_attrs := ∅; h5_datasets := ∅ |}.

(** The path of the group that holds [name]: what precedes its last slash
    (the root for a name right under it). *)
Fixpoint drop_last_component (rev_name : list Ascii.ascii) : list Ascii.ascii :=
  match rev_name with
  | [] => []
  | c :: rest => if Ascii.eqb c "/"%char then rest else drop_last_component rest
  end.

Definition parent_group (name : string) : string :=
  match rev (drop_last_component (rev (list_ascii_of_string name))) with
  | [] => "/"%string
  | p => string_of_list_ascii p
  end.

Definition group_exists (file : h5_file) (path : string) : bool :=
  String.eqb path "/" || bool_decide (path ∈ h5_groups file).

Definition H5Fopen (fs : gmap string h5_file) (filename : string) : option h5_file :=
  fs !! filename.

Definition H5Aopen_by_name (file : h5_file) (prefix name : string) : option h5_attr :=
  h5_attrs file !! (prefix, name).

Definition H5Dopen (file : h5_file) (name : string) : option h5_dataset :=
  h5_datasets file !! name.

Definition H5Sget_simple_extent_ndims (dims : list Z) : Z := Z.of_nat (length dims).

(** [H5Gcreate]: the status and the file. *)
Definition H5Gcreate (file : h5_file) (name : string) : Z * h5_file :=
  if group_exists file name || negb (group_exists file (parent_group name))
  then (-1, file)
  else (0, {| h5_groups := {[name]} ∪ h5_groups file;
              h5_attrs := h5_attrs file; h5_datasets := h5_datasets file |}).

(** [H5Acreate] followed by [H5Awrite] of one element. *)
Definition H5Acreate_write (file : h5_file) (parent name : string)
  (type : h5_type) (dims : list Z) (value : Z) : Z * h5_file :=
  match h5_attrs file !! (parent, name) with
  | Some _ => (-1, file)
  | None =>
      if negb (group_exists file parent) then (-1, file)
      else (0, {| h5_groups := h5_groups file;
                  h5_attrs := <[(parent, name) :=
                                  {| at_type := type; at_dims := dims;
                                     at_data := [value] |}]> (h5_attrs file);
                  h5_datasets := h5_datasets file |})
  end.

Definition num_elements (dims : list Z) : Z := fold_right Z.mul 1 dims.

(** The size in bytes of an element of a storage type. *)
Definition type_size (type : h5_type) : Z :=
  match type with
  | H5T_STD_U32LE => 4
  | H5T_IEEE_F64LE => 8
  end.

(** [H5Screate_simple(rank, dims, NULL)]: the first [rank] entries of [dims]
    (an extent of 0 is accepted). *)
Definition H5Screate_simple (rank : Z) (dims : list Z) : list Z :=
  take (Z.to_nat rank) dims.

(** [H5Pcreate(H5P_DATASET_CREATE)]: no chunking and no filter. *)
Definition H5Pcreate : h5_plist :=
  {| pl_chunk := []; pl_shuffle := false; pl_deflate := None;
     pl_fletcher32 := false |}.

(** [H5Pset_chunk(plist, ndims, dims)]: the status and the list.  The library
    refuses a chunk with an extent of 0, with an extent of 2^32 or more, or
    with 2^32 elements or more. *)
Definition H5Pset_chunk (plist : h5_plist) (ndims : Z) (dims : list Z)
  : Z * h5_plist :=
  let chunk := take (Z.to_nat ndims) dims in
  if forallb (fun d => (0 <? d) && (d <? 2 ^ 32)) chunk
     && (num_elements chunk <? 2 ^ 32)
  then (0, {| pl_chunk := chunk; pl_shuffle := pl_shuffle plist;
              pl_deflate := pl_deflate plist;
              pl_fletcher32 := pl_fletcher32 plist |})
  else (-1, plist).

Definition H5Pset_shuffle (plist : h5_plist) : Z * h5_plist :=
  (0, {| pl_chunk := pl_chunk plist; pl_shuffle := true;
         pl_deflate := pl_deflate plist;
         pl_fletcher32 := pl_fletcher32 plist |}).

(** [H5Pset_deflate]: the level is between 0 and 9. *)
Definition H5Pset_deflate (plist : h5_plist) (level : Z) : Z * h5_plist :=
  if (0 <=? level) && (level <=? 9)
  then (0, {| pl_chunk := pl_chunk plist; pl_shuffle := pl_shuffle plist;
              pl_deflate := Some level;
              pl_fletcher32 := pl_fletcher32 plist |})
  else (-1, plist).

Definition H5Pset_fletcher32 (plist : h5_plist) : Z * h5_plist :=
  (0, {| pl_chunk := pl_chunk plist; pl_shuffle := pl_shuffle plist;
         pl_deflate := pl_deflate plist; pl_fletcher32 := true |}).

(** [H5Dcreate2]: an empty dataset of the given shape.  The library refuses
    a name that is taken, a parent group that is not there, and a chunk of
    4 GB or more. *)
Definition H5Dcreate2 (file : h5_file) (name : string) (type : h5_type)
  (dims : list Z) (plist : h5_plist) : Z * h5_file :=
  match h5_datasets file !! name with
  | Some _ => (-1, file)
  | None =>
      if negb (group_exists file (parent_group name))
         || (2 ^ 32 <=? num_elements (pl_chunk plist) * type_size type)
      then (-1, file)
      else (0, {| h5_groups := h5_groups file; h5_attrs := h5_attrs file;
                  h5_datasets := <[name := {| ds_type := type; ds_dims := dims;
                                              ds_plist := plist; ds_data := [] |}]>
                                   (h5_datasets file) |})
  end.

(** [H5Dwrite] of the whole dataset from the block [source]: a NULL source is
    refused by the library, a block shorter than the dataset is read past its
    end. *)
Definition H5Dwrite (file : h5_file) (name : string) (source : option (list Z))
  : outcome (Z * h5_file) :=
  match h5_datasets file !! name with
  | None => Done (-1, file)
  | Some d =>
      match source with
      | None => Done (-1, file)
      | Some l =>
          if Z.of_nat (length l) <? num_elements (ds_dims d) then Undefined
          else Done (0, {| h5_groups := h5_groups file; h5_attrs := h5_attrs file;
                           h5_datasets :=
                             <[name := {| ds_type := ds_type d; ds_dims := ds_dims d;
                                          ds_plist := ds_plist d;
                                          ds_data := take (Z.to_nat (num_elements (ds_dims d))) l |}]>
                               (h5_datasets file) |})
      end
  end.

(** [H5Dread] of the whole dataset into the block [dest]. *)
Definition H5Dread (d : h5_dataset) (dest : option (list Z))
  : outcome (Z * option (list Z)) :=
  match dest with
  | None => Done (-1, None)
  | Some l =>
      if (length l <? length (ds_data d))%nat then Undefined
      else Done (0, Some (ds_data d ++ drop (length (ds_data d)) l))
  end.

(** [H5Aread] into one [uint32_t]: [None] when the attribute holds nothing
    (the destination keeps its old content); more than one element overruns
    the destination. *)
Definition H5Aread (a : h5_attr) : outcome (option Z) :=
  match at_data a with
  | [] => Done None
  | [v] => Done (Some v)
  | _ => Undefined
  end.

(** ** Load *)

(** One pass of the loop of [tree_sequence_read_hdf5_metadata]: the return
    code when the pass jumps to [out], and the value read. *)
Definition read_hdf5_attr (file : h5_file) (prefix name : string)
  : outcome (option Z * option Z) :=
  match H5Aopen_by_name file prefix name with
  | None => Done (Some MSP_ERR_HDF5, None)
  | Some a =>
      let rank := H5Sget_simple_extent_ndims (at_dims a) in
      if negb (rank =? 1) then Done (Some MSP_ERR_FILE_FORMAT, None)
      else
        let* v := H5Aread a in
        Done (None, v)
  end.

Definition set_sample_size (self : tree_sequence_t) (v : option Z) : tree_sequence_t :=
  match v with
  | None => self
  | Some n => set_sizes self (num_breakpoints self) (num_records self) n (num_loci self)
  end.

Definition set_num_loci (self : tree_sequence_t) (v : option Z) : tree_sequence_t :=
  match v with
  | None => self
  | Some l => set_sizes self (num_breakpoints self) (num_records self) (sample_size self) l
  end.

(** The version lands in a local variable that nothing reads. *)
Definition tree_sequence_read_hdf5_metadata (self : tree_sequence_t) (file : h5_file)
  : outcome (Z * tree_sequence_t) :=
  let* (err, version) := read_hdf5_attr file "/" "format_version" in
  match err with
  | Some ret => Done (ret, self)
  | None =>
      let* (err, v) := read_hdf5_attr file "/parameters" "sample_size" in
      match err with
      | Some ret => Done (ret, self)
      | None =>
          let self := set_sample_size self v in
          let* (err, v) := read_hdf5_attr file "/parameters" "num_loci" in
          match err with
          | Some ret => Done (ret, self)
          | None => Done (0, set_num_loci self v)
          end
      end
  end.

(** One pass of the loop of [tree_sequence_check_hdf5_dimensions]. *)
Definition check_hdf5_field (self : tree_sequence_t) (file : h5_file)
  (name : string) (dimensions : Z) : Z :=
  match H5Dopen file name with
  | None => MSP_ERR_HDF5
  | Some d =>
      let rank := H5Sget_simple_extent_ndims (ds_dims d) in
      if negb (rank =? dimensions) then MSP_ERR_FILE_FORMAT
      else if negb (nth 0 (ds_dims d) 0 =? num_records self) then MSP_ERR_FILE_FORMAT
      else 0
  end.

Fixpoint check_hdf5_fields (self : tree_sequence_t) (file : h5_file)
  (fields : list (string * Z)) : Z :=
  match fields with
  | [] => 0
  | (name, dimensions) :: rest =>
      let ret := check_hdf5_field self file name dimensions in
      if negb (ret =? 0) then ret else check_hdf5_fields self file rest
  end.

Definition tree_sequence_check_hdf5_dimensions (self : tree_sequence_t) (file : h5_file) : Z :=
  check_hdf5_fields self file
    [("/records/left"%string, 1); ("/records/right"%string, 1);
     ("/records/node"%string, 1); ("/records/children"%string, 2);
     ("/records/time"%string, 1)].

Definition tree_sequence_read_hdf5_dimensions (self : tree_sequence_t)
  (file : h5_file) (m : mem_t) : Z * tree_sequence_t * mem_t :=
  (* breakpoints *)
  match H5Dopen file "/breakpoints" with
  | None => (MSP_ERR_HDF5, self, m)
  | Some d =>
      if negb (H5Sget_simple_extent_ndims (ds_dims d) =? 1)
      then (MSP_ERR_FILE_FORMAT, self, m)
      else
        let nb := nth 0 (ds_dims d) 0 in
        let '(bp, m) := malloc 0 nb 4 m in
        let self := set_breakpoints self nb bp in
        if is_null bp then (MSP_ERR_NO_MEMORY, self, m)
        else
          (* the records: the sizes come from /records/left *)
          match H5Dopen file "/records/left" with
          | None => (MSP_ERR_HDF5, self, m)
          | Some d =>
              if negb (H5Sget_simple_extent_ndims (ds_dims d) =? 1)
              then (MSP_ERR_FILE_FORMAT, self, m)
              else
                let nr := nth 0 (ds_dims d) 0 in
                let '(l, m) := malloc 0 nr 4 m in
                let '(r, m) := malloc 0 nr 4 m in
                let '(n, m) := malloc 0 nr 4 m in
                let '(c, m) := malloc 0 (2 * nr) 4 m in
                let '(t, m) := malloc 0 nr 8 m in
                let self := set_columns self nr l r n c t in
                if is_null l || is_null r || is_null n || is_null c || is_null t
                then (MSP_ERR_NO_MEMORY, self, m)
                else (tree_sequence_check_hdf5_dimensions self file, self, m)
          end
  end.

(** One pass of the loop of [tree_sequence_read_hdf5_data]. *)
Definition read_hdf5_field (file : h5_file) (name : string) (dest : option (list Z))
  : outcome (Z * option (list Z)) :=
  match H5Dopen file name with
  | None => Done (MSP_ERR_HDF5, dest)
  | Some d =>
      let* (status, dest) := H5Dread d dest in
      if status <? 0 then Done (MSP_ERR_HDF5, dest) else Done (0, dest)
  end.

Definition tree_sequence_read_hdf5_data (self : tree_sequence_t) (file : h5_file)
  : outcome (Z * tree_sequence_t) :=
  let* (ret, bp) := read_hdf5_field file "/breakpoints" (breakpoints self) in
  let self := set_breakpoints self (num_breakpoints self) bp in
  if negb (ret =? 0) then Done (ret, self) else
  let* (ret, l) := read_hdf5_field file "/records/left" (ts_left self) in
  let self := set_columns self (num_records self) l (ts_right self) (ts_node self)
                (ts_children self) (ts_time self) in
  if negb (ret =? 0) then Done (ret, self) else
  let* (ret, r) := read_hdf5_field file "/records/right" (ts_right self) in
  let self := set_columns self (num_records self) (ts_left self) r (ts_node self)
                (ts_children self) (ts_time self) in
  if negb (ret =? 0) then Done (ret, self) else
  let* (ret, n) := read_hdf5_field file "/records/node" (ts_node self) in
  let self := set_columns self (num_records self) (ts_left self) (ts_right self) n
                (ts_children self) (ts_time self) in
  if negb (ret =? 0) then Done (ret, self) else
  let* (ret, c) := read_hdf5_field file "/records/children" (ts_children self) in
  let self := set_columns self (num_records self) (ts_left self) (ts_right self)
                (ts_node self) c (ts_time self) in
  if negb (ret =? 0) then Done (ret, self) else
  let* (ret, t) := read_hdf5_field file "/records/time" (ts_time self) in
  let self := set_columns self (num_records self) (ts_left self) (ts_right self)
                (ts_node self) (ts_children self) t in
  Done (ret, self).

Definition tree_sequence_load (self : tree_sequence_t) (fs : gmap string h5_file)
  (filename : string) (m : mem_t) : outcome (Z * tree_sequence_t * mem_t) :=
  let ret := MSP_ERR_GENERIC in
  match H5Fopen fs filename with
  | None => Done (MSP_ERR_HDF5, self, m)
  | Some file =>
      let* (status, self) := tree_sequence_read_hdf5_metadata self file in
      if status <? 0 then Done (ret, self, m)
      else
        let '(ret, self, m) := tree_sequence_read_hdf5_dimensions self file m in
        if negb (ret =? 0) then Done (ret, self, m)
        else
          let* (ret, self) := tree_sequence_read_hdf5_data self file in
          if negb (ret =? 0) then Done (ret, self, m)
          else Done (0, self, m)
  end.

(** ** Dump *)

(** The two calls under [if (flags & MSP_ZLIB_COMPRESSION)]: byte shuffle,
    then deflate at level 9. *)
Definition set_compression (flags : Z) (plist : h5_plist) : Z * h5_plist :=
  if negb (Z.land flags MSP_ZLIB_COMPRESSION =? 0) then
    let '(status, plist) := H5Pset_shuffle plist in
    if status <? 0 then (status, plist)
    else H5Pset_deflate plist 9
  else (0, plist).

(** One pass of the dataset loop of [tree_sequence_write_hdf5_data]: the
    chunk is the whole dataset, and every status is tested. *)
Definition write_hdf5_field (file : h5_file) (flags : Z) (name : string)
  (storage_type : h5_type) (dimensions : Z) (size : Z) (source : option (list Z))
  : outcome (Z * h5_file) :=
  let dims := [size; 2] in
  let dataspace := H5Screate_simple dimensions dims in
  let plist := H5Pcreate in
  let '(status, plist) := H5Pset_chunk plist dimensions dims in
  if status <? 0 then Done (-1, file)
  else
    let '(status, plist) := set_compression flags plist in
    if status <? 0 then Done (-1, file)
    else
      let '(status, plist) := H5Pset_fletcher32 plist in
      if status <? 0 then Done (-1, file)
      else
        let '(status, file) := H5Dcreate2 file name storage_type dataspace plist in
        if status <? 0 then Done (-1, file)
        else
          let* (status, file) := H5Dwrite file name source in
          if status <? 0 then Done (-1, file) else Done (0, file).

Fixpoint write_hdf5_fields (file : h5_file) (flags : Z)
  (fields : list (string * h5_type * Z * Z * option (list Z)))
  : outcome (Z * h5_file) :=
  match fields with
  | [] => Done (0, file)
  | (name, storage_type, dimensions, size, source) :: rest =>
      let* (status, file) :=
        write_hdf5_field file flags name storage_type dimensions size source in
      if status <? 0 then Done (status, file)
      else write_hdf5_fields file flags rest
  end.

Definition tree_sequence_write_hdf5_data (self : tree_sequence_t) (file : h5_file)
  (flags : Z) : outcome (Z * h5_file) :=
  (* Create the records group *)
  let '(status, file) := H5Gcreate file "/records" in
  if status <? 0 then Done (-1, file)
  else
    write_hdf5_fields file flags
      [("/breakpoints"%string, H5T_STD_U32LE, 1, num_breakpoints self, breakpoints self);
       ("/records/left"%string, H5T_STD_U32LE, 1, num_records self, ts_left self);
       ("/records/right"%string, H5T_STD_U32LE, 1, num_records self, ts_right self);
       ("/records/node"%string, H5T_STD_U32LE, 1, num_records self, ts_node self);
       ("/records/children"%string, H5T_STD_U32LE, 2, num_records self, ts_children self);
       ("/records/time"%string, H5T_IEEE_F64LE, 1, num_records self, ts_time self)].

Definition tree_sequence_write_hdf5_metadata (self : tree_sequence_t) (file : h5_file)
  : Z * h5_file :=
  let status := -1 in
  let version := MSP_FILE_FORMAT_VERSION in
  (* make a group for the simulation parameters *)
  let '(group_id, file) := H5Gcreate file "/parameters" in
  if group_id <? 0 then (status, file)
  else
    let '(attr_id, file) :=
      H5Acreate_write file "/" "format_version" H5T_STD_U32LE [1] version in
    if attr_id <? 0 then (status, file)
    else
      (* from here on status is the one of the last H5Aclose *)
      let status := 0 in
      let '(attr_id, file) :=
        H5Acreate_write file "/parameters" "sample_size" H5T_STD_U32LE [1]
          (sample_size self) in
      if attr_id <? 0 then (status, file)
      else
        let '(attr_id, file) :=
          H5Acreate_write file "/parameters" "num_loci" H5T_STD_U32LE [1]
            (num_loci self) in
        (status, file).

(** [H5Fcreate] with [H5F_ACC_TRUNC] starts from an empty file.  On an
    error the handle is not closed: the model keeps what was written so
    far, and only the return code of such a call is relied on. *)
Definition tree_sequence_dump (self : tree_sequence_t) (fs : gmap string h5_file)
  (filename : string) (flags : Z) : outcome (Z * gmap string h5_file) :=
  let ret := MSP_ERR_HDF5 in
  let file := h5_empty in
  let '(status, file) := tree_sequence_write_hdf5_metadata self file in
  if status <? 0 then Done (ret, <[filename := file]> fs)
  else
    let* (status, file) := tree_sequence_write_hdf5_data self file flags in
    if status <? 0 then Done (ret, <[filename := file]> fs)
    else Done (0, <[filename := file]> fs).


(** ** The tree-diff iterator *)

(** [tree_node_t]; its [next] link is the node's place in the list that
    holds it. *)
Record tree_node_t := {
  tn_id : Z;
  tn_children : Z * Z;
  tn_time : Z
}.

(** Modelled from the spec: the arena of object_heap.h (not under src/).
    §4.A: a fixed-capacity pool with [alloc() -> handle | none], [free(h)]
    and [empty() -> bool], which does not grow in the iterator path.  Objects
    are kept by value in the lists that link them, so the pool is its
    capacity and its two counters; it is empty when no object is left to
    hand out. *)
Record object_heap_t := {
  heap_capacity : Z;
  heap_allocs : Z;
  heap_frees : Z
}.

Definition object_heap_init (capacity : Z) : Z * object_heap_t :=
  (0, {| heap_capacity := capacity; heap_allocs := 0; heap_frees := 0 |}).

Definition heap_live (h : object_heap_t) : Z := heap_allocs h - heap_frees h.

Definition object_heap_empty (h : object_heap_t) : bool :=
  heap_capacity h <=? heap_live h.

Definition object_heap_alloc_object (h : object_heap_t) : option object_heap_t :=
  if object_heap_empty h then None
  else Some {| heap_capacity := heap_capacity h;
               heap_allocs := heap_allocs h + 1; heap_frees := heap_frees h |}.

Definition object_heap_free_object (h : object_heap_t) : object_heap_t :=
  {| heap_capacity := heap_capacity h;
     heap_allocs := heap_allocs h; heap_frees := heap_frees h + 1 |}.

(** Modelled from the spec: the ordered map of avl.h (not under src/).  §4.B:
    a search tree on [u32] keys, strictly ordered, duplicates rejected, with
    [search], [insert], [unlink] and the [prev] of a node.  The map is the
    list of its nodes in key order; a node's item is a [tree_node_list_t],
    kept as its key and the nodes from [head] to [tail]. *)
Definition tree_node_list_t : Type := Z * list tree_node_t.

Fixpoint avl_search (t : list tree_node_list_t) (key : Z) : option tree_node_list_t :=
  match t with
  | [] => None
  | (k, l) :: rest => if k =? key then Some (k, l) else avl_search rest key
  end.

(** [None] when the key is already there. *)
Fixpoint avl_insert_node (t : list tree_node_list_t) (node : tree_node_list_t)
  : option (list tree_node_list_t) :=
  match t with
  | [] => Some [node]
  | (k, l) :: rest =>
      if fst node <? k then Some (node :: (k, l) :: rest)
      else if fst node =? k then None
      else option_map (cons (k, l)) (avl_insert_node rest node)
  end.

Fixpoint avl_unlink_node (t : list tree_node_list_t) (key : Z) : list tree_node_list_t :=
  match t with
  | [] => []
  | (k, l) :: rest => if k =? key then rest else (k, l) :: avl_unlink_node rest key
  end.

(** The [prev] link of the node that holds [key]. *)
Fixpoint avl_prev (t : list tree_node_list_t) (key : Z) : option tree_node_list_t :=
  match t with
  | [] => None
  | (k, l) :: rest =>
      match rest with
      | [] => None
      | (k', _) :: _ => if k' =? key then Some (k, l) else avl_prev rest key
      end
  end.

(** A write through the item pointer of the node that holds [key]. *)
Fixpoint avl_set_item (t : list tree_node_list_t) (key : Z) (l : list tree_node_t)
  : list tree_node_list_t :=
  match t with
  | [] => []
  | (k, l0) :: rest =>
      if k =? key then (k, l) :: rest else (k, l0) :: avl_set_item rest key l
  end.

(** [tree_diff_iterator_t].  [nodes_in] is the list from [nodes_in.head]
    ([] for NULL). *)
Record tree_diff_iterator_t := {
  tree_sequence : tree_sequence_t;
  flags : Z;
  current_left : Z;
  next_record_index : Z;
  it_num_records : Z;
  current_breakpoint_index : Z;
  next_breakpoint : Z;
  tree_node_heap : object_heap_t;
  tree_node_list_heap : object_heap_t;
  avl_node_heap : object_heap_t;
  active_nodes : list tree_node_list_t;
  nodes_in : list tree_node_t
}.

(** The memory the iterator owns: heaps, map and [nodes_in]. *)
Definition set_memory (self : tree_diff_iterator_t)
  (tnh tlh anh : object_heap_t) (act : list tree_node_list_t)
  (nin : list tree_node_t) : tree_diff_iterator_t :=
  {| tree_sequence := tree_sequence self; flags := flags self;
     current_left := current_left self;
     next_record_index := next_record_index self;
     it_num_records := it_num_records self;
     current_breakpoint_index := current_breakpoint_index self;
     next_breakpoint := next_breakpoint self;
     tree_node_heap := tnh; tree_node_list_heap := tlh; avl_node_heap := anh;
     active_nodes := act; nodes_in := nin |}.

(** The cursor: [current_left] and [next_record_index]. *)
Definition set_cursor (self : tree_diff_iterator_t) (cl idx : Z) : tree_diff_iterator_t :=
  {| tree_sequence := tree_sequence self; flags := flags self;
     current_left := cl; next_record_index := idx;
     it_num_records := it_num_records self;
     current_breakpoint_index := current_breakpoint_index self;
     next_breakpoint := next_breakpoint self;
     tree_node_heap := tree_node_heap self;
     tree_node_list_heap := tree_node_list_heap self;
     avl_node_heap := avl_node_heap self;
     active_nodes := active_nodes self; nodes_in := nodes_in self |}.

(** The breakpoint cursor of the all-breakpoints mode. *)
Definition set_breakpoint_cursor (self : tree_diff_iterator_t) (cbi nb : Z)
  : tree_diff_iterator_t :=
  {| tree_sequence := tree_sequence self; flags := flags self;
     current_left := current_left self;
     next_record_index := next_record_index self;
     it_num_records := it_num_records self;
     current_breakpoint_index := cbi; next_breakpoint := nb;
     tree_node_heap := tree_node_heap self;
     tree_node_list_heap := tree_node_list_heap self;
     avl_node_heap := avl_node_heap self;
     active_nodes := active_nodes self; nodes_in := nodes_in self |}.

Definition tree_diff_iterator_alloc (tree_sequence : tree_sequence_t) (flags : Z)
  : Z * tree_diff_iterator_t :=
  let n := sample_size tree_sequence in
  (* We can't have more than 2n tree_nodes used at once: sized 3n. *)
  let '(ret1, tnh) := object_heap_init (u32 (3 * n)) in
  (* We can have at most n active node lists *)
  let '(ret2, tlh) := object_heap_init n in
  let '(ret3, anh) := object_heap_init n in
  let self :=
    {| tree_sequence := tree_sequence; flags := flags;
       current_left := 0; next_record_index := 0;
       it_num_records := tree_sequence_get_num_coalescence_records tree_sequence;
       current_breakpoint_index := 0; next_breakpoint := 0;
       tree_node_heap := tnh; tree_node_list_heap := tlh; avl_node_heap := anh;
       active_nodes := []; nodes_in := [] |} in
  if negb (ret1 =? 0) then (ret1, self)
  else if negb (ret2 =? 0) then (ret2, self)
  else if negb (ret3 =? 0) then (ret3, self)
  else (0, self).

(** The node (NULL is [None]) and the iterator.  When the list pool is empty
    after the map-node pool gave a node, the C function returns that node
    with its item never set, and the caller goes on to use it. *)
Definition tree_diff_iterator_alloc_avl_node (self : tree_diff_iterator_t) (key : Z)
  : outcome (option tree_node_list_t * tree_diff_iterator_t) :=
  if object_heap_empty (avl_node_heap self) then Done (None, self)
  else
    match object_heap_alloc_object (avl_node_heap self) with
    | None => Done (None, self)
    | Some anh =>
        if object_heap_empty (tree_node_list_heap self) then Undefined
        else
          match object_heap_alloc_object (tree_node_list_heap self) with
          | None => Undefined
          | Some tlh =>
              Done (Some (key, []),
                    set_memory self (tree_node_heap self) tlh anh
                      (active_nodes self) (nodes_in self))
          end
    end.

Definition tree_diff_iterator_free_avl_node (self : tree_diff_iterator_t)
  : tree_diff_iterator_t :=
  set_memory self (tree_node_heap self)
    (object_heap_free_object (tree_node_list_heap self))
    (object_heap_free_object (avl_node_heap self))
    (active_nodes self) (nodes_in self).

Definition tree_diff_iterator_alloc_tree_node (self : tree_diff_iterator_t)
  (record : coalescence_record_t) : option tree_node_t * tree_diff_iterator_t :=
  if object_heap_empty (tree_node_heap self) then (None, self)
  else
    match object_heap_alloc_object (tree_node_heap self) with
    | None => (None, self)
    | Some tnh =>
        (Some {| tn_id := cr_node record; tn_children := cr_children record;
                 tn_time := cr_time record |},
         set_memory self tnh (tree_node_list_heap self) (avl_node_heap self)
           (active_nodes self) (nodes_in self))
    end.

Definition tree_diff_iterator_free_tree_node (self : tree_diff_iterator_t)
  : tree_diff_iterator_t :=
  set_memory self (object_heap_free_object (tree_node_heap self))
    (tree_node_list_heap self) (avl_node_heap self)
    (active_nodes self) (nodes_in self).

(** The loop that walks a list by [next] and frees every node of it. *)
Fixpoint free_tree_nodes (self : tree_diff_iterator_t) (l : list tree_node_t)
  : tree_diff_iterator_t :=
  match l with
  | [] => self
  | _ :: tmp => free_tree_nodes (tree_diff_iterator_free_tree_node self) tmp
  end.

Definition tree_diff_iterator_process_record (self : tree_diff_iterator_t)
  (record : coalescence_record_t) : outcome (Z * tree_diff_iterator_t) :=
  match tree_diff_iterator_alloc_tree_node self record with
  | (None, self) => Done (MSP_ERR_NO_MEMORY, self)
  | (Some tree_node, self) =>
      let self := set_memory self (tree_node_heap self) (tree_node_list_heap self)
                    (avl_node_heap self) (active_nodes self)
                    (nodes_in self ++ [tree_node]) in
      (* update for the active nodes *)
      let* (avl_node, self) :=
        match avl_search (active_nodes self) (cr_right record) with
        | Some node => Done (Some node, self)
        | None =>
            let* (avl_node, self) :=
              tree_diff_iterator_alloc_avl_node self (cr_right record) in
            match avl_node with
            | None => Done (None, self)
            | Some node =>
                match avl_insert_node (active_nodes self) node with
                | None => AssertFailed
                | Some act =>
                    Done (Some node,
                          set_memory self (tree_node_heap self)
                            (tree_node_list_heap self) (avl_node_heap self)
                            act (nodes_in self))
                end
            end
        end in
      match avl_node with
      | None => Done (MSP_ERR_NO_MEMORY, self)
      | Some (key, list) =>
          match tree_diff_iterator_alloc_tree_node self record with
          | (None, self) => Done (MSP_ERR_NO_MEMORY, self)
          | (Some tree_node, self) =>
              Done (0, set_memory self (tree_node_heap self)
                         (tree_node_list_heap self) (avl_node_heap self)
                         (avl_set_item (active_nodes self) key (list ++ [tree_node]))
                         (nodes_in self))
          end
      end
  end.

(** What the three out-pointers of a step hold. *)
Record step_t := {
  length_out : Z;
  nodes_out : list tree_node_t;
  nodes_in_out : list tree_node_t
}.

(** The first half of [tree_diff_iterator_next_tree]: retire the old nodes.
    Gives the iterator and the key of the list [*nodes_out] points into
    ([None] for NULL). *)
Definition next_tree_retire (self : tree_diff_iterator_t)
  : outcome (tree_diff_iterator_t * option Z) :=
  if negb (current_left self =? 0) then
    (* first free up the old used nodes *)
    let self := free_tree_nodes self (nodes_in self) in
    let self := set_memory self (tree_node_heap self) (tree_node_list_heap self)
                  (avl_node_heap self) (active_nodes self) [] in
    (* Set nodes_out from the active_nodes *)
    match avl_search (active_nodes self) (current_left self) with
    | None => AssertFailed
    | Some (key, head) =>
        let out := match head with [] => None | _ => Some key end in
        (* free up the active nodes that have just been used also *)
        match avl_prev (active_nodes self) key with
        | None => Done (self, out)
        | Some (pkey, plist) =>
            let self := free_tree_nodes self plist in
            let self := set_memory self (tree_node_heap self)
                          (tree_node_list_heap self) (avl_node_heap self)
                          (avl_unlink_node (active_nodes self) pkey)
                          (nodes_in self) in
            Done (tree_diff_iterator_free_avl_node self, out)
        end
    end
  else Done (self, None).

(** The [while (not_done)] loop; [fuel] bounds its passes.  Gives the return
    code when the loop jumps to [out], the iterator and [cr]. *)
Fixpoint next_tree_loop (fuel : nat) (self : tree_diff_iterator_t)
  (cr : coalescence_record_t)
  : outcome (option Z * tree_diff_iterator_t * coalescence_record_t) :=
  match fuel with
  | O => Diverges
  | S fuel' =>
      let* (ret, _, cr) :=
        tree_sequence_get_record (tree_sequence self) (next_record_index self) cr in
      if negb (ret =? 0) then Done (Some ret, self, cr)
      else if cr_left cr =? current_left self then
        let* (ret, self) := tree_diff_iterator_process_record self cr in
        if negb (ret =? 0) then Done (Some ret, self, cr)
        else
          let self := set_cursor self (current_left self)
                        (size_t (next_record_index self + 1)) in
          if next_record_index self <? it_num_records self
          then next_tree_loop fuel' self cr
          else Done (None, self, cr)
      else Done (None, self, cr)
  end.

(** What the caller finds behind [*nodes_out]: the list is shared with the
    map, so it is read when the call returns. *)
Definition resolve_nodes_out (self : tree_diff_iterator_t) (out : option Z)
  : list tree_node_t :=
  match out with
  | None => []
  | Some key =>
      match avl_search (active_nodes self) key with
      | Some (_, l) => l
      | None => []
      end
  end.

(** [cr] is an uninitialised local at entry: [cr0] stands for its content. *)
Definition tree_diff_iterator_next_tree (self : tree_diff_iterator_t)
  (cr0 : coalescence_record_t) (outs : step_t)
  : outcome (Z * tree_diff_iterator_t * step_t) :=
  let* (self, out) := next_tree_retire self in
  if next_record_index self <? it_num_records self then
    let* (err, self, cr) :=
      next_tree_loop (Z.to_nat (it_num_records self - next_record_index self)) self cr0 in
    match err with
    | Some ret =>
        Done (ret, self,
              {| length_out := length_out outs;
                 nodes_out := resolve_nodes_out self out;
                 nodes_in_out := nodes_in_out outs |})
    | None =>
        let length :=
          if next_record_index self =? it_num_records self
          then u32 (cr_right cr - current_left self)
          else u32 (cr_left cr - current_left self) in
        let self' := set_cursor self (cr_left cr) (next_record_index self) in
        Done (1, self',
              {| length_out := length;
                 nodes_out := resolve_nodes_out self out;
                 nodes_in_out := nodes_in self |})
    end
  else
    Done (0, self,
          {| length_out := length_out outs;
             nodes_out := resolve_nodes_out self out;
             nodes_in_out := nodes_in_out outs |}).

Definition tree_diff_iterator_next (self : tree_diff_iterator_t)
  (cr0 : coalescence_record_t) (outs : step_t)
  : outcome (Z * tree_diff_iterator_t * step_t) :=
  let breakpoints := breakpoints (tree_sequence self) in
  let num_breakpoints := num_breakpoints (tree_sequence self) in
  if negb (Z.land (flags self) MSP_ALL_BREAKPOINTS =? 0) then
    if current_breakpoint_index self <? size_t (num_breakpoints - 1) then
      let* b := array_get breakpoints (current_breakpoint_index self) in
      let* (err, self, outs) :=
        if negb (b =? next_breakpoint self) then
          Done (None, self,
                {| length_out := length_out outs; nodes_out := [];
                   nodes_in_out := [] |})
        else
          let* (ret, self, outs) := tree_diff_iterator_next_tree self cr0 outs in
          if ret <? 0 then Done (Some ret, self, outs)
          else if negb (ret =? 1) then AssertFailed
          else
            Done (None,
                  set_breakpoint_cursor self (current_breakpoint_index self)
                    (u32 (next_breakpoint self + length_out outs)),
                  outs) in
      match err with
      | Some ret => Done (ret, self, outs)
      | None =>
          let self := set_breakpoint_cursor self
                        (size_t (current_breakpoint_index self + 1))
                        (next_breakpoint self) in
          let* b1 := array_get breakpoints (current_breakpoint_index self) in
          let* b0 := array_get breakpoints (current_breakpoint_index self - 1) in
          Done (1, self,
                {| length_out := u32 (b1 - b0); nodes_out := nodes_out outs;
                   nodes_in_out := nodes_in_out outs |})
      end
    else Done (0, self, outs)
  else tree_diff_iterator_next_tree self cr0 outs.

(** ** A caller: step until the iterator stops

    [while ((ret = tree_diff_iterator_next(...)) == 1)]: the steps seen, the
    last return code, the iterator and the out-variables at the end. *)
Fixpoint iterate (fuel : nat) (self : tree_diff_iterator_t)
  (cr0 : coalescence_record_t) (outs : step_t)
  : outcome (list step_t * Z * tree_diff_iterator_t * step_t) :=
  match fuel with
  | O => Diverges
  | S fuel' =>
      let* (ret, self, outs) := tree_diff_iterator_next self cr0 outs in
      if ret =? 1 then
        let* (steps, ret, self, outs') := iterate fuel' self cr0 outs in
        Done (outs :: steps, ret, self, outs')
      else Done ([], ret, self, outs)
  end.

(** [count] calls in a row, whatever they return: the return codes. *)
Fixpoint call_next (count : nat) (self : tree_diff_iterator_t)
  (cr0 : coalescence_record_t) (outs : step_t)
  : outcome (list (Z * step_t) * tree_diff_iterator_t) :=
  match count with
  | O => Done ([], self)
  | S count' =>
      let* (ret, self, outs) := tree_diff_iterator_next self cr0 outs in
      let* (rets, self) := call_next count' self cr0 outs in
      Done ((ret, outs) :: rets, self)
  end.


(** ** Stores and their data-model invariants (§3) *)

Definition children_pair (r : coalescence_record_t) : list Z :=
  [fst (cr_children r); snd (cr_children r)].

(** The store [self] holds the breakpoints [bps] and, in its six columns, the
    records [rs] in this order. *)
Definition store_holds (self : tree_sequence_t) (bps : list Z)
  (rs : list coalescence_record_t) : Prop :=
  num_records self = Z.of_nat (length rs) /\
  num_breakpoints self = Z.of_nat (length bps) /\
  breakpoints self = Some bps /\
  ts_left self = Some (map cr_left rs) /\
  ts_right self = Some (map cr_right rs) /\
  ts_node self = Some (map cr_node rs) /\
  ts_children self = Some (flat_map children_pair rs) /\
  ts_time self = Some (map cr_time rs).

Definition store_of (n l : Z) (bps : list Z) (rs : list coalescence_record_t)
  : tree_sequence_t :=
  {| sample_size := n; num_loci := l;
     num_records := Z.of_nat (length rs);
     num_breakpoints := Z.of_nat (length bps);
     breakpoints := Some bps;
     ts_left := Some (map cr_left rs);
     ts_right := Some (map cr_right rs);
     ts_node := Some (map cr_node rs);
     ts_children := Some (flat_map children_pair rs);
     ts_time := Some (map cr_time rs) |}.

(** The record invariants: [0 <= left < right <= L], distinct children, a
    parent above both children and above the samples [1..n], a positive
    time (the bit pattern of a positive finite double). *)
Definition record_ok (n l : Z) (r : coalescence_record_t) : bool :=
  (0 <=? cr_left r) && (cr_left r <? cr_right r) && (cr_right r <=? l)
  && negb (fst (cr_children r) =? snd (cr_children r))
  && (1 <=? fst (cr_children r)) && (1 <=? snd (cr_children r))
  && (fst (cr_children r) <? cr_node r) && (snd (cr_children r) <? cr_node r)
  && (n <? cr_node r) && (cr_node r <? 2 ^ 32)
  && (0 <? cr_time r) && (cr_time r <? 9218868437227405312).

Fixpoint nondecreasing (l : list Z) : bool :=
  match l with
  | [] => true
  | a :: rest =>
      match rest with
      | [] => true
      | b :: _ => (a <=? b) && nondecreasing rest
      end
  end.

Fixpoint increasing (l : list Z) : bool :=
  match l with
  | [] => true
  | a :: rest =>
      match rest with
      | [] => true
      | b :: _ => (a <? b) && increasing rest
      end
  end.

Definition covers (x : Z) (r : coalescence_record_t) : bool :=
  (cr_left r <=? x) && (x <? cr_right r).

(** [R(x)]: the records over the coordinate [x]. *)
Definition records_at (rs : list coalescence_record_t) (x : Z)
  : list coalescence_record_t :=
  List.filter (covers x) rs.

Definition mem (x : Z) (l : list Z) : bool :=
  existsb (Z.eqb x) l.

Fixpoint distinct (l : list Z) : bool :=
  match l with
  | [] => true
  | x :: rest => negb (mem x rest) && distinct rest
  end.

Definition samples (n : Z) : list Z :=
  map Z.of_nat (seq 1 (Z.to_nat n)).

(** The records [local] make a rooted binary tree on the samples [1..n]: no
    node is a parent twice; the root is a parent of greatest time and is
    nobody's child; every other node, sample or parent, is a child exactly
    once; every child is a node of the tree. *)
Definition valid_local_tree (n : Z) (local : list coalescence_record_t) : bool :=
  let parents := map cr_node local in
  let slots := flat_map children_pair local in
  let nodes := samples n ++ parents in
  distinct parents
  && existsb
       (fun top =>
          forallb (fun r => cr_time r <=? cr_time top) local
          && negb (mem (cr_node top) slots)
          && forallb (fun v => (v =? cr_node top)
                               || (count_occ Z.eq_dec slots v =? 1)%nat) nodes)
       local
  && forallb (fun c => mem c nodes) slots.

Definition coordinates (l : Z) : list Z :=
  map Z.of_nat (seq 0 (Z.to_nat l)).

(** Invariants 1 and 2, with the record invariants and the integer types. *)
Definition tree_invariants (n l : Z) (rs : list coalescence_record_t) : bool :=
  (0 <=? n) && (n <? 2 ^ 32) && (0 <=? l) && (l <? 2 ^ 32)
  && forallb (record_ok n l) rs
  && nondecreasing (map cr_left rs)
  && forallb (fun x => valid_local_tree n (records_at rs x)) (coordinates l).

(** The breakpoint vector: strictly increasing from 0 to [L]. *)
Definition breakpoints_ok (l : Z) (bps : list Z) : bool :=
  increasing bps
  && match bps with b :: _ => b =? 0 | [] => false end
  && (List.last bps (-1) =? l).

Definition record_coordinates (rs : list coalescence_record_t) : list Z :=
  map cr_left rs ++ map cr_right rs.

(** Every left and right value is a breakpoint. *)
Definition breakpoints_cover (bps : list Z) (rs : list coalescence_record_t) : bool :=
  forallb (fun v => mem v bps) (record_coordinates rs).

(** Invariant 3: the breakpoints are exactly the left and right values. *)
Definition breakpoints_exact (bps : list Z) (rs : list coalescence_record_t) : bool :=
  breakpoints_cover bps rs
  && forallb (fun b => mem b (record_coordinates rs)) bps.

(** The data-model invariants of §3. *)
Definition data_model_invariants (n l : Z) (bps : list Z)
  (rs : list coalescence_record_t) : bool :=
  tree_invariants n l rs && breakpoints_ok l bps && breakpoints_exact bps rs.

(** ** The scenarios of §8 *)

Definition mk_record (l r n c0 c1 t : Z) : coalescence_record_t :=
  {| cr_left := l; cr_right := r; cr_node := n; cr_children := (c0, c1);
     cr_time := t |}.

(** The doubles 0.5, 0.6, 0.7, 0.8, 1.0, 1.1, 1.3 as bit patterns. *)
Definition t_0_5 : Z := 4602678819172646912.
Definition t_0_6 : Z := 4603579539098121011.
Definition t_0_7 : Z := 4604480259023595110.
Definition t_0_8 : Z := 4605380978949069210.
Definition t_1_0 : Z := 4607182418800017408.
Definition t_1_1 : Z := 4607632778762754458.
Definition t_1_3 : Z := 4608533498688228557.

Definition S1_records : list coalescence_record_t :=
  [mk_record 0 10 5 1 2 t_0_5; mk_record 0 10 6 3 4 t_0_7;
   mk_record 0 10 7 5 6 t_1_3].

Definition S2_records : list coalescence_record_t :=
  [mk_record 0 4 5 1 2 t_0_5; mk_record 0 10 6 3 4 t_0_8;
   mk_record 4 10 7 1 2 t_0_6; mk_record 0 4 8 5 6 t_1_0;
   mk_record 4 10 9 7 6 t_1_1].

(** S2 in the order the store keeps it: by [left]. *)
Definition S2_sorted : list coalescence_record_t :=
  [mk_record 0 4 5 1 2 t_0_5; mk_record 0 10 6 3 4 t_0_8;
   mk_record 0 4 8 5 6 t_1_0; mk_record 4 10 7 1 2 t_0_6;
   mk_record 4 10 9 7 6 t_1_1].

Definition S1_store : tree_sequence_t := store_of 4 10 [0; 10] S1_records.
Definition S2_store : tree_sequence_t := store_of 4 10 [0; 4; 10] S2_sorted.
Definition S4_store : tree_sequence_t := store_of 4 10 [0; 2; 4; 10] S2_sorted.
Definition S5_store : tree_sequence_t := store_of 4 10 [0; 10] [].

Definition S2_sim : msp_t :=
  {| sim_sample_size := 4; sim_num_loci := 10;
     sim_breakpoints := [0; 4; 10]; sim_records := S2_records |}.

Definition blank_store : tree_sequence_t :=
  {| sample_size := 0; num_loci := 0; num_records := 0; num_breakpoints := 0;
     breakpoints := None; ts_left := None; ts_right := None; ts_node := None;
     ts_children := None; ts_time := None |}.

Definition blank_step : step_t :=
  {| length_out := 0; nodes_out := []; nodes_in_out := [] |}.

Definition fresh_mem : mem_t := {| oracle := []; live_blocks := 0 |}.

(** A [qsort]: insertion by the comparator. *)
Fixpoint insert_sorted (cmp : coalescence_record_t -> coalescence_record_t -> Z)
  (x : coalescence_record_t) (l : list coalescence_record_t)
  : list coalescence_record_t :=
  match l with
  | [] => [x]
  | y :: rest => if cmp x y <=? 0 then x :: y :: rest
                 else y :: insert_sorted cmp x rest
  end.

Definition insertion_qsort (cmp : coalescence_record_t -> coalescence_record_t -> Z)
  (l : list coalescence_record_t) : list coalescence_record_t :=
  fold_right (insert_sorted cmp) [] l.

(** The boundaries of a run of steps that starts at [from]. *)
Fixpoint step_edges (from : Z) (steps : list step_t) : list Z :=
  match steps with
  | [] => []
  | s :: rest => from :: step_edges (from + length_out s) rest
  end.

Definition total_span (steps : list step_t) : Z :=
  fold_right (fun s acc => length_out s + acc) 0 steps.

Definition node_of (r : coalescence_record_t) : tree_node_t :=
  {| tn_id := cr_node r; tn_children := cr_children r; tn_time := cr_time r |}.

(** ** The other functions of the file *)

(** The comparator [avl_init_tree] is given for the map of active nodes. *)
Definition cmp_tree_node_list (ia ib : tree_node_list_t) : Z :=
  (if fst ib <? fst ia then 1 else 0) - (if fst ia <? fst ib then 1 else 0).

(** [memcpy(dest, src, n * sizeof *src)] on blocks, [n] elements: a NULL
    pointer or a block shorter than [n] is undefined. *)
Definition memcpy {A : Type} (dest src : option (list A)) (n : nat)
  : outcome (option (list A)) :=
  match dest, src with
  | Some d, Some s =>
      if (length d <? n)%nat || (length s <? n)%nat then Undefined
      else Done (Some (take n s ++ drop n d))
  | _, _ => Undefined
  end.

(** Returns the return code and the caller's buffer; the byte count is a
    [size_t] product. *)
Definition tree_sequence_get_breakpoints (self : tree_sequence_t)
  (breakpoints_out : option (list Z)) : outcome (Z * option (list Z)) :=
  let ret := 0 in
  let* buf := memcpy breakpoints_out (breakpoints self)
                (Z.to_nat (size_t (num_breakpoints self * 4) / 4)) in
  Done (ret, buf).

(** ** Predicates of the statements *)

(** The file with the dataset [d] under [name]. *)
Definition add_dataset (file : h5_file) (name : string) (d : h5_dataset) : h5_file :=
  {| h5_groups := h5_groups file; h5_attrs := h5_attrs file;
     h5_datasets := <[name := d]> (h5_datasets file) |}.

(** The creation properties [write_hdf5_field] sets: one chunk, Fletcher-32,
    and shuffle with deflate level 9 under [MSP_ZLIB_COMPRESSION]. *)
Definition dump_plist (flags : Z) (dims : list Z) : h5_plist :=
  let compress := negb (Z.land flags MSP_ZLIB_COMPRESSION =? 0) in
  {| pl_chunk := dims; pl_shuffle := compress;
     pl_deflate := if compress then Some 9 else None;
     pl_fletcher32 := true |}.

(** The file [tree_sequence_dump] writes for a store that holds [rs]. *)
Definition dumped_file (self : tree_sequence_t) (bps : list Z)
  (rs : list coalescence_record_t) (flags : Z) : h5_file :=
  let one (n : Z) (data : list Z) (t : h5_type) :=
    {| ds_type := t; ds_dims := [n]; ds_plist := dump_plist flags [n];
       ds_data := data |} in
  let scalar (v : Z) :=
    {| at_type := H5T_STD_U32LE; at_dims := [1]; at_data := [v] |} in
  {| h5_groups := {["/records"%string]} ∪ ({["/parameters"%string]} ∪ ∅);
     h5_attrs :=
       <[("/parameters"%string, "num_loci"%string) := scalar (num_loci self)]>
         (<[("/parameters"%string, "sample_size"%string) := scalar (sample_size self)]>
            (<[("/"%string, "format_version"%string) := scalar MSP_FILE_FORMAT_VERSION]> ∅));
     h5_datasets :=
       <["/records/time"%string := one (num_records self) (map cr_time rs) H5T_IEEE_F64LE]>
         (<["/records/children"%string :=
              {| ds_type := H5T_STD_U32LE; ds_dims := [num_records self; 2];
                 ds_plist := dump_plist flags [num_records self; 2];
                 ds_data := flat_map children_pair rs |}]>
            (<["/records/node"%string := one (num_records self) (map cr_node rs) H5T_STD_U32LE]>
               (<["/records/right"%string := one (num_records self) (map cr_right rs) H5T_STD_U32LE]>
                  (<["/records/left"%string := one (num_records self) (map cr_left rs) H5T_STD_U32LE]>
                     (<["/breakpoints"%string := one (num_breakpoints self) bps H5T_STD_U32LE]> ∅))))) |}.

(** The file with [v] as its [/format_version]. *)
Definition with_version (file : h5_file) (v : Z) : h5_file :=
  {| h5_groups := h5_groups file;
     h5_attrs := <[("/"%string, "format_version"%string) :=
                     {| at_type := H5T_STD_U32LE; at_dims := [1]; at_data := [v] |}]>
                   (h5_attrs file);
     h5_datasets := h5_datasets file |}.

(** The dump of scenario S2 with a version above the compiled-in one. *)
Definition newer_file : h5_file :=
  with_version (dumped_file S2_store [0; 4; 10] S2_sorted 0)
    (MSP_FILE_FORMAT_VERSION + 1).

(** The file without the dataset [name]. *)
Definition without_dataset (file : h5_file) (name : string) : h5_file :=
  {| h5_groups := h5_groups file; h5_attrs := h5_attrs file;
     h5_datasets := delete name (h5_datasets file) |}.

(** The dump of scenario S2 with [/records/right] missing. *)
Definition truncated_file : h5_file :=
  without_dataset (dumped_file S2_store [0; 4; 10] S2_sorted 0) "/records/right".

(** The six heap blocks of a store. *)
Definition blocks (self : tree_sequence_t) : list (option (list Z)) :=
  [breakpoints self; ts_left self; ts_right self; ts_node self;
   ts_children self; ts_time self].

(** The dataset is there with rank 1. *)
Definition rank_one (file : h5_file) (name : string) : bool :=
  match H5Dopen file name with
  | Some d => H5Sget_simple_extent_ndims (ds_dims d) =? 1
  | None => false
  end.

(** Validation step (i) passed: the file opens and its three attributes are
    read. *)
Definition metadata_ok (self : tree_sequence_t) (fs : gmap string h5_file)
  (filename : string) : bool :=
  match H5Fopen fs filename with
  | None => false
  | Some file =>
      match tree_sequence_read_hdf5_metadata self file with
      | Done (status, _) => 0 <=? status
      | _ => false
      end
  end.

(** The file opens and its dataset [name] is there with rank 1. *)
Definition dataset_rank_one (fs : gmap string h5_file) (filename name : string) : bool :=
  match H5Fopen fs filename with
  | None => false
  | Some file => rank_one file name
  end.

(** The error kinds of a load after its metadata step. *)
Definition is_load_error (ret : Z) : Prop :=
  ret = MSP_ERR_HDF5 \/ ret = MSP_ERR_FILE_FORMAT \/ ret = MSP_ERR_NO_MEMORY.

(** The keys of the map, in order. *)
Definition keys (t : list tree_node_list_t) : list Z := map fst t.

(** The nodes of the records of [alive] that end at [k], in record order. *)
Definition expiring (alive : list coalescence_record_t) (k : Z) : list tree_node_t :=
  map node_of (List.filter (fun r => cr_right r =? k) alive).

(** The map [t] indexes the records [alive] by their right coordinate. *)
Definition represents (t : list tree_node_list_t)
  (alive : list coalescence_record_t) : Prop :=
  StronglySorted Z.lt (keys t) /\
  forall k, avl_search t k = match expiring alive k with
                             | [] => None
                             | l => Some (k, l)
                             end.

(** What [tree_diff_iterator_process_record] does to the map. *)
Definition add_record (t : list tree_node_list_t) (r : coalescence_record_t)
  : list tree_node_list_t :=
  match avl_search t (cr_right r) with
  | Some (k, l) => avl_set_item t k (l ++ [node_of r])
  | None =>
      match avl_insert_node t (cr_right r, []) with
      | Some t' => avl_set_item t' (cr_right r) [node_of r]
      | None => t
      end
  end.

(** How many right coordinates the records of [alive] have. *)
Definition distinct_rights (alive : list coalescence_record_t) : nat :=
  length (nodup Z.eq_dec (map cr_right alive)).

(** The fields a step leaves alone, and the capacities of the arenas. *)
Definition same_frame (st st' : tree_diff_iterator_t) : Prop :=
  tree_sequence st' = tree_sequence st /\
  flags st' = flags st /\
  it_num_records st' = it_num_records st /\
  current_breakpoint_index st' = current_breakpoint_index st /\
  next_breakpoint st' = next_breakpoint st /\
  heap_capacity (tree_node_heap st') = heap_capacity (tree_node_heap st) /\
  heap_capacity (tree_node_list_heap st') = heap_capacity (tree_node_list_heap st) /\
  heap_capacity (avl_node_heap st') = heap_capacity (avl_node_heap st).

(** The arena [h] has [live] objects out. *)
Definition heap_ok (h : object_heap_t) (live : Z) : Prop :=
  0 <= heap_frees h /\ heap_allocs h = heap_frees h + live.

(** The map indexes the records [alive], [nodes_in] is [nin], and the arenas
    account for exactly these objects. *)
Definition memory_holds (st : tree_diff_iterator_t)
  (alive : list coalescence_record_t) (nin : list tree_node_t) : Prop :=
  represents (active_nodes st) alive /\
  nodes_in st = nin /\
  heap_ok (tree_node_heap st) (Z.of_nat (length nin) + Z.of_nat (length alive)) /\
  heap_ok (tree_node_list_heap st) (Z.of_nat (length (active_nodes st))) /\
  heap_ok (avl_node_heap st) (Z.of_nat (length (active_nodes st))).

(** The arena after [allocs] more allocations and [frees] more frees. *)
Definition heap_after (h : object_heap_t) (allocs frees : Z) : object_heap_t :=
  {| heap_capacity := heap_capacity h;
     heap_allocs := heap_allocs h + allocs;
     heap_frees := heap_frees h + frees |}.

(** The left coordinate of the last record consumed (0 before the first). *)
Definition plast (done : list coalescence_record_t) : Z :=
  List.last (map cr_left done) 0.

(** The records at the head of [l] that start at [c], and what follows. *)
Fixpoint leading (c : Z) (l : list coalescence_record_t) : list coalescence_record_t :=
  match l with
  | [] => []
  | r :: l' => if cr_left r =? c then r :: leading c l' else []
  end.

Fixpoint trailing (c : Z) (l : list coalescence_record_t) : list coalescence_record_t :=
  match l with
  | [] => []
  | r :: l' => if cr_left r =? c then trailing c l' else l
  end.

(** The counts are [size_t] values and the arena size [3 * n], a [uint32_t]
    product, does not wrap. *)
Definition store_in_range (s : tree_sequence_t) : Prop :=
  num_records s < 2 ^ 64 /\ num_breakpoints s < 2 ^ 64 /\ 3 * sample_size s < 2 ^ 32.

(** The iterator [st] over the store [s] has consumed the records [done],
    whole groups of equal left, and [rest] is ahead. *)
Definition iterator_at (s : tree_sequence_t) (rs done rest : list coalescence_record_t)
  (st : tree_diff_iterator_t) : Prop :=
  rs = done ++ rest /\
  (forall a b, In a done -> In b rest -> cr_left a < cr_left b) /\
  tree_sequence st = s /\
  it_num_records st = Z.of_nat (length rs) /\
  heap_capacity (tree_node_heap st) = 3 * sample_size s /\
  heap_capacity (tree_node_list_heap st) = sample_size s /\
  heap_capacity (avl_node_heap st) = sample_size s /\
  next_record_index st = Z.of_nat (length done) /\
  current_left st = match rest with r :: _ => cr_left r | [] => plast done end /\
  exists nin,
    memory_holds st (List.filter (fun r => plast done <=? cr_right r) done) nin /\
    (done = [] -> nin = []).

(** The calls of [rets] all return [End] and leave the [length] and the
    [nodes_in] of [o]. *)
Fixpoint all_end (o : step_t) (rets : list (Z * step_t)) : Prop :=
  match rets with
  | [] => True
  | (ret, o') :: rets' =>
      ret = 0 /\ length_out o' = length_out o /\ nodes_in_out o' = nodes_in_out o
      /\ all_end o rets'
  end.

(** In the calls of [rets], a call that returns [End] is followed by such
    calls only. *)
Fixpoint end_absorbing (rets : list (Z * step_t)) : Prop :=
  match rets with
  | [] => True
  | (ret, o) :: rets' => (ret = 0 -> all_end o rets') /\ end_absorbing rets'
  end.

(** The iterator [st] stands at the breakpoint [b] of index [i]: the records
    that start before [b] are consumed and [next_breakpoint] is the left
    coordinate of the next record, or [L]. *)
Definition breakpoint_at (s : tree_sequence_t) (rs : list coalescence_record_t)
  (i : nat) (b : Z) (done rest : list coalescence_record_t)
  (st : tree_diff_iterator_t) : Prop :=
  iterator_at s rs done rest st /\
  Z.land (flags st) MSP_ALL_BREAKPOINTS <> 0 /\
  current_breakpoint_index st = Z.of_nat i /\
  next_breakpoint st = match rest with r :: _ => cr_left r | [] => num_loci s end /\
  (forall a, In a done -> cr_left a < b) /\
  (forall x, In x rest -> b <= cr_left x).

(** The step between the breakpoints [b0] and [b1]: its span, and its lists
    according to whether a record starts at [b0]. *)
Definition breakpoint_step (rs : list coalescence_record_t) (b0 b1 : Z)
  (step : step_t) : Prop :=
  length_out step = b1 - b0 /\
  (mem b0 (map cr_left rs) = false ->
   nodes_out step = [] /\ nodes_in_out step = []) /\
  (mem b0 (map cr_left rs) = true ->
   nodes_in_out step = map node_of (List.filter (fun r => cr_left r =? b0) rs)).

(** The step from the edge [c] to the edge [c']: the span, the nodes of the
    records that end at [c] and the nodes of the records that start at [c],
    in the order of the record table. *)
Definition tree_diff (rs : list coalescence_record_t) (c c' : Z) : step_t :=
  {| length_out := c' - c;
     nodes_out := map node_of (List.filter (fun r => cr_right r =? c) rs);
     nodes_in_out := map node_of (List.filter (fun r => cr_left r =? c) rs) |}.

(** One step per edge, each up to the next edge and the last up to [l]. *)
Fixpoint tree_diffs (rs : list coalescence_record_t) (l : Z) (edges : list Z)
  : list step_t :=
  match edges with
  | [] => []
  | c :: rest =>
      tree_diff rs c (match rest with c' :: _ => c' | [] => l end)
      :: tree_diffs rs l rest
  end.

(** * Theorems *)

(** * Theorems *)

(** ** Blocks *)

Lemma array_get_lookup {A : Type} (l : list A) (i : nat) (v : A) :
  l !! i = Some v -> array_get (Some l) (Z.of_nat i) = Done v.
Proof.
  intros H. unfold array_get.
  destruct (Z.ltb_spec (Z.of_nat i) 0); [lia|].
  now rewrite Nat2Z.id, H.
Qed.

Lemma array_set_insert {A : Type} (l : list A) (i : nat) (v : A) :
  (i < length l)%nat ->
  array_set (Some l) (Z.of_nat i) v = Done (Some (<[i := v]> l)).
Proof.
  intros H. unfold array_set.
  destruct (Z.leb_spec 0 (Z.of_nat i)); [|lia].
  destruct (Z.ltb_spec (Z.of_nat i) (Z.of_nat (length l))); [|lia].
  now rewrite Nat2Z.id.
Qed.

Lemma size_t_small (z : Z) : 0 <= z < 2 ^ 64 -> size_t z = z.
Proof. intros H. unfold size_t. now apply Z.mod_small. Qed.

Lemma u32_small (z : Z) : 0 <= z < 2 ^ 32 -> u32 z = z.
Proof. intros H. unfold u32. now apply Z.mod_small. Qed.

Lemma malloc_count (n sz : Z) :
  0 <= n -> 0 < sz -> n * sz < 2 ^ 64 -> Z.to_nat (size_t (n * sz) / sz) = Z.to_nat n.
Proof.
  intros Hn Hsz Hlt. rewrite size_t_small by nia.
  now rewrite Z.div_mul by lia.
Qed.

Lemma malloc_succeeds {A : Type} (d : A) (n sz : Z) (m : mem_t) :
  Forall (eq true) (oracle m) ->
  exists m', malloc d n sz m = (Some (repeat d (Z.to_nat (size_t (n * sz) / sz))), m')
             /\ Forall (eq true) (oracle m')
             /\ live_blocks m' = S (live_blocks m).
Proof.
  intros H. unfold malloc. destruct (oracle m) as [|b o] eqn:E.
  - eexists; split; [reflexivity|]. split; [constructor|reflexivity].
  - inversion H; subst. eexists; split; [reflexivity|]. now split.
Qed.

Lemma flat_map_children_lookup (rs : list coalescence_record_t) (i : nat)
  (r : coalescence_record_t) :
  rs !! i = Some r ->
  flat_map children_pair rs !! (2 * i)%nat = Some (fst (cr_children r)) /\
  flat_map children_pair rs !! (2 * i + 1)%nat = Some (snd (cr_children r)).
Proof.
  revert i. induction rs as [|a rs IH]; intros i H; [discriminate|].
  destruct i as [|i]; simpl in *.
  - now inversion H.
  - replace (i + S (i + 0))%nat with (S (2 * i)) by lia.
    replace (i + S (i + 0) + 1)%nat with (S (2 * i + 1)) by lia.
    simpl. now apply IH.
Qed.

(** ** Accessors *)

Section GetRecord.

Variables (self : tree_sequence_t) (bps : list Z) (rs : list coalescence_record_t).
Hypothesis Hholds : store_holds self bps rs.

Lemma get_record_in_range (i : nat) (r record : coalescence_record_t) :
  rs !! i = Some r ->
  tree_sequence_get_record self (Z.of_nat i) record = Done (0, self, r).
Proof using Hholds.
  intros Hr.
  destruct Hholds as (Hn & _ & _ & Hl & Hrt & Hnd & Hc & Ht).
  unfold tree_sequence_get_record.
  assert (Hi : (i < length rs)%nat) by (apply lookup_lt_is_Some; eauto).
  destruct (Z.ltb_spec (Z.of_nat i) (num_records self)); [|lia].
  rewrite Hl, Hrt, Hnd, Hc, Ht.
  destruct (flat_map_children_lookup rs i r Hr) as [H0 H1].
  rewrite (array_get_lookup _ i (cr_left r)) by (now rewrite list_lookup_fmap, Hr).
  rewrite (array_get_lookup _ i (cr_right r)) by (now rewrite list_lookup_fmap, Hr).
  rewrite (array_get_lookup _ i (cr_node r)) by (now rewrite list_lookup_fmap, Hr).
  replace (2 * Z.of_nat i) with (Z.of_nat (2 * i)) by lia.
  replace (Z.of_nat (2 * i) + 1) with (Z.of_nat (2 * i + 1)) by lia.
  rewrite (array_get_lookup _ _ _ H0), (array_get_lookup _ _ _ H1).
  rewrite (array_get_lookup _ i (cr_time r)) by (now rewrite list_lookup_fmap, Hr).
  simpl. destruct r as [l rt n [c0 c1] t]. reflexivity.
Qed.

End GetRecord.

Lemma get_record_out_of_range (self : tree_sequence_t) (index : Z)
  (record : coalescence_record_t) :
  num_records self <= index ->
  tree_sequence_get_record self index record
  = Done (MSP_ERR_OUT_OF_BOUNDS, self, record).
Proof.
  intros H. unfold tree_sequence_get_record.
  now destruct (Z.ltb_spec index (num_records self)); [lia|].
Qed.

(** C7: for a store that holds the records [rs], [tree_sequence_get_record]
    at an index below [num_records] returns 0 with the record stored at that
    index (left, right, node, both children, time); at every index from
    [num_records] on it returns [MSP_ERR_OUT_OF_BOUNDS] and leaves the store
    and the record behind the out-pointer as they were. *)
Theorem get_record_bounds (self : tree_sequence_t) (bps : list Z)
  (rs : list coalescence_record_t) (index : Z) (record : coalescence_record_t) :
  store_holds self bps rs ->
  0 <= index ->
  (index < num_records self ->
     exists r, rs !! Z.to_nat index = Some r /\
       tree_sequence_get_record self index record = Done (0, self, r)) /\
  (num_records self <= index ->
     tree_sequence_get_record self index record
     = Done (MSP_ERR_OUT_OF_BOUNDS, self, record)).
Proof.
  intros Hholds Hidx. split.
  - intros Hlt.
    assert (Hn : num_records self = Z.of_nat (length rs)) by apply Hholds.
    destruct (lookup_lt_is_Some_2 rs (Z.to_nat index)) as [r Hr]; [lia|].
    exists r. split; [exact Hr|].
    rewrite <- (Z2Nat.id index) at 1 by lia.
    eapply get_record_in_range; eauto.
  - apply get_record_out_of_range.
Qed.

Lemma store_of_holds (n l : Z) (bps : list Z) (rs : list coalescence_record_t) :
  store_holds (store_of n l bps rs) bps rs.
Proof. repeat split. Qed.

Lemma get_record_bounds_witness :
  tree_sequence_get_record S2_store 0 record_zero
  = Done (0, S2_store, mk_record 0 4 5 1 2 t_0_5) /\
  tree_sequence_get_record S2_store 5 record_zero
  = Done (MSP_ERR_OUT_OF_BOUNDS, S2_store, record_zero).
Proof.
  split.
  - destruct (get_record_bounds S2_store [0; 4; 10] S2_sorted 0 record_zero
                (store_of_holds _ _ _ _) ltac:(lia)) as [H _].
    destruct H as (r & Hr & ->); [reflexivity|].
    simpl in Hr. now inversion Hr.
  - destruct (get_record_bounds S2_store [0; 4; 10] S2_sorted 5 record_zero
                (store_of_holds _ _ _ _) ltac:(lia)) as [_ H].
    apply H. reflexivity.
Defined.

(** ** Creation *)

Lemma set_columns_holds_sizes (self : tree_sequence_t) (l r n c t : option (list Z)) :
  sample_size (set_columns self (num_records self) l r n c t) = sample_size self /\
  num_loci (set_columns self (num_records self) l r n c t) = num_loci self.
Proof. now split. Qed.

(** The copy loop: after [count] passes from [j] on, the entries from [j] to
    [j + count] of the columns are those of the records, as long as the
    32-bit indices of the children do not wrap. *)
Lemma create_scatter_spec (rs : list coalescence_record_t) :
  Z.of_nat (length rs) <= 2 ^ 31 ->
  forall (count j : nat) (self : tree_sequence_t) (l r n c t : list Z),
    (j + count = length rs)%nat ->
    ts_left self = Some l -> ts_right self = Some r -> ts_node self = Some n ->
    ts_children self = Some c -> ts_time self = Some t ->
    length l = length rs -> length r = length rs -> length n = length rs ->
    length c = (2 * length rs)%nat -> length t = length rs ->
    exists self',
      create_scatter count (Z.of_nat j) (Some rs) self = Done self' /\
      sample_size self' = sample_size self /\ num_loci self' = num_loci self /\
      num_records self' = num_records self /\
      num_breakpoints self' = num_breakpoints self /\
      breakpoints self' = breakpoints self /\
      ts_left self' = Some (take j l ++ map cr_left (drop j rs)) /\
      ts_right self' = Some (take j r ++ map cr_right (drop j rs)) /\
      ts_node self' = Some (take j n ++ map cr_node (drop j rs)) /\
      ts_children self' = Some (take (2 * j) c ++ flat_map children_pair (drop j rs)) /\
      ts_time self' = Some (take j t ++ map cr_time (drop j rs)).
Proof.
  intros Hfit.
  induction count as [|count IH]; intros j self l r n c t Hj Hl Hr Hn Hc Ht Ll Lr Ln Lc Lt.
  - exists self. simpl. repeat split; try reflexivity.
    all: rewrite drop_ge by lia; simpl; rewrite app_nil_r, take_ge by lia; assumption.
  - destruct (lookup_lt_is_Some_2 rs j) as [rec Hrec]; [lia|].
    assert (Hstep : create_scatter_one (Some rs) (Z.of_nat j) self
                    = Done (set_columns self (num_records self)
                              (Some (<[j := cr_left rec]> l))
                              (Some (<[j := cr_right rec]> r))
                              (Some (<[j := cr_node rec]> n))
                              (Some (<[(2 * j + 1)%nat := snd (cr_children rec)]>
                                       (<[(2 * j)%nat := fst (cr_children rec)]> c)))
                              (Some (<[j := cr_time rec]> t)))).
    { unfold create_scatter_one.
      rewrite (array_get_lookup _ _ _ Hrec). cbn [bind].
      rewrite Hl, Hr, Hn, Hc, Ht.
      rewrite (u32_small (2 * Z.of_nat j)), (u32_small (2 * Z.of_nat j + 1)) by lia.
      replace (2 * Z.of_nat j + 1) with (Z.of_nat (2 * j + 1)) by lia.
      replace (2 * Z.of_nat j) with (Z.of_nat (2 * j)) by lia.
      rewrite (array_set_insert l), (array_set_insert r), (array_set_insert n) by lia.
      cbn [bind].
      rewrite (array_set_insert c) by lia. cbn [bind].
      rewrite array_set_insert by (rewrite length_insert; lia). cbn [bind].
      rewrite array_set_insert by lia. reflexivity. }
    cbn [create_scatter]. rewrite Hstep. cbn [bind].
    replace (Z.of_nat j + 1) with (Z.of_nat (S j)) by lia.
    edestruct (IH (S j)) as (self' & Hrun & Hs & Hnl & Hnr & Hnb & Hbp & El & Er & En & Ec & Et);
      [ | | | | | | | | | | | exists self'; rewrite Hrun; repeat split; try assumption ];
      try reflexivity; rewrite ?length_insert; try lia.
    + rewrite El. f_equal. rewrite (drop_S rs rec j Hrec). simpl.
      rewrite (take_S_r _ j (cr_left rec)) by (apply list_lookup_insert_eq; lia).
      rewrite take_insert_ge by lia. now rewrite <- app_assoc.
    + rewrite Er. f_equal. rewrite (drop_S rs rec j Hrec). simpl.
      rewrite (take_S_r _ j (cr_right rec)) by (apply list_lookup_insert_eq; lia).
      rewrite take_insert_ge by lia. now rewrite <- app_assoc.
    + rewrite En. f_equal. rewrite (drop_S rs rec j Hrec). simpl.
      rewrite (take_S_r _ j (cr_node rec)) by (apply list_lookup_insert_eq; lia).
      rewrite take_insert_ge by lia. now rewrite <- app_assoc.
    + rewrite Ec. f_equal. rewrite (drop_S rs rec j Hrec). simpl.
      replace (j + S (j + 0))%nat with (S (2 * j)) by lia.
      rewrite (take_S_r _ (S (2 * j)) (snd (cr_children rec))).
      2:{ replace (S (2 * j)) with (2 * j + 1)%nat by lia.
          apply list_lookup_insert_eq. rewrite length_insert. lia. }
      rewrite (take_S_r _ (2 * j) (fst (cr_children rec))).
      2:{ rewrite list_lookup_insert_ne by lia.
          apply list_lookup_insert_eq. lia. }
      rewrite !take_insert_ge by lia. now rewrite <- !app_assoc.
    + rewrite Et. f_equal. rewrite (drop_S rs rec j Hrec). simpl.
      rewrite (take_S_r _ j (cr_time rec)) by (apply list_lookup_insert_eq; lia).
      rewrite take_insert_ge by lia. now rewrite <- app_assoc.
Qed.

Lemma copy_into_fresh {A : Type} (d : A) (src : list A) :
  copy_into src (Some (repeat d (length src))) = Done (0, Some src).
Proof.
  unfold copy_into. rewrite repeat_length, Nat.ltb_irrefl.
  rewrite drop_ge by (rewrite repeat_length; lia). now rewrite app_nil_r.
Qed.

Lemma sorted_by_cmp_left (rs : list coalescence_record_t) :
  Sorted (fun a b => cmp_coalescence_record a b <= 0) rs ->
  forall (j : nat) (a b : Z),
    map cr_left rs !! j = Some a -> map cr_left rs !! S j = Some b -> a <= b.
Proof.
  induction 1 as [|x rs Hs IH Hhd]; intros j a b Ha Hb; [discriminate|].
  destruct j as [|j]; simpl in *.
  - inversion Ha; subst. destruct rs as [|y rs]; [discriminate|].
    simpl in Hb. inversion Hb; subst. inversion Hhd as [|? ? Hxy]; subst.
    unfold cmp_coalescence_record in Hxy.
    destruct (Z.ltb_spec (cr_left y) (cr_left x)), (Z.ltb_spec (cr_left x) (cr_left y)); lia.
  - eapply IH; eauto.
Qed.

Section Create.

Variable qsort : (coalescence_record_t -> coalescence_record_t -> Z) ->
                 list coalescence_record_t -> list coalescence_record_t.

(** What the C standard asks of [qsort], for the comparator of this file. *)
Hypothesis qsort_sorts : forall l,
  Permutation l (qsort cmp_coalescence_record l) /\
  Sorted (fun a b => cmp_coalescence_record a b <= 0) (qsort cmp_coalescence_record l).

(** C8: when every allocation succeeds, the breakpoint count fits in 32
    bits and the source has at most 2^31 records (the copy loop computes the
    indices [2 * j] and [2 * j + 1] of the children in [uint32_t], which
    wrap beyond that), [tree_sequence_create] returns 0 from any record
    source, sorted or not, with a store whose left column is non-decreasing
    and whose six columns hold a permutation of the source's records. *)
Theorem create_sorts_by_left (self : tree_sequence_t) (sim : msp_t) (m : mem_t) :
  Forall (eq true) (oracle m) ->
  Z.of_nat (length (sim_breakpoints sim)) < 2 ^ 32 ->
  Z.of_nat (length (sim_records sim)) <= 2 ^ 31 ->
  exists self' m' rs,
    tree_sequence_create qsort self sim m = Done (0, self', m') /\
    Permutation (sim_records sim) rs /\
    store_holds self' (sim_breakpoints sim) rs /\
    sample_size self' = sim_sample_size sim /\
    num_loci self' = sim_num_loci sim /\
    (forall (j : nat) (a b : Z),
        map cr_left rs !! j = Some a -> map cr_left rs !! S j = Some b -> a <= b).
Proof using qsort_sorts.
  intros Hm Hnb Hnr.
  destruct (qsort_sorts (sim_records sim)) as [Hperm Hsorted].
  set (rs := qsort cmp_coalescence_record (sim_records sim)) in *.
  assert (Hlen : length rs = length (sim_records sim))
    by (symmetry; now apply Permutation_length).
  unfold tree_sequence_create, tree_sequence_alloc,
    msp_get_num_breakpoints, msp_get_num_coalescence_records.
  cbn [num_breakpoints num_records set_sizes set_breakpoints].
  destruct (malloc_succeeds 0 (Z.of_nat (length (sim_breakpoints sim))) 4 m Hm)
    as (m1 & -> & Hm1 & _).
  cbn [is_null].
  destruct (malloc_succeeds 0 (Z.of_nat (length (sim_records sim))) 4 m1 Hm1)
    as (m2 & -> & Hm2 & _).
  destruct (malloc_succeeds 0 (Z.of_nat (length (sim_records sim))) 4 m2 Hm2)
    as (m3 & -> & Hm3 & _).
  destruct (malloc_succeeds 0 (2 * Z.of_nat (length (sim_records sim))) 4 m3 Hm3)
    as (m4 & -> & Hm4 & _).
  destruct (malloc_succeeds 0 (Z.of_nat (length (sim_records sim))) 4 m4 Hm4)
    as (m5 & -> & Hm5 & _).
  destruct (malloc_succeeds 0 (Z.of_nat (length (sim_records sim))) 8 m5 Hm5)
    as (m6 & -> & Hm6 & _).
  cbn [is_null orb].
  rewrite !malloc_count by lia. rewrite !Nat2Z.id.
  cbn [breakpoints set_columns set_breakpoints num_breakpoints num_records].
  unfold msp_get_breakpoints. rewrite copy_into_fresh.
  cbn [bind Z.eqb negb].
  destruct (malloc_succeeds record_zero (Z.of_nat (length (sim_records sim))) 32 m6 Hm6)
    as (m7 & -> & Hm7 & _).
  rewrite malloc_count, Nat2Z.id by lia.
  unfold msp_get_coalescence_records. rewrite copy_into_fresh.
  cbn [bind Z.eqb negb option_map].
  destruct (Z.leb_spec (2 ^ 32) (Z.of_nat (length (sim_records sim)))); [lia|].
  fold rs. rewrite ?Nat2Z.id.
  match goal with
  | |- context [create_scatter _ 0 _ ?s] =>
      edestruct (create_scatter_spec rs ltac:(lia) (length rs) 0 s)
        as (self' & Hrun & Hs & Hnl & Hnr' & Hnb' & Hbp & El & Er & En & Ec & Et)
  end; try reflexivity; rewrite ?repeat_length.
  all: try lia.
  change (Z.of_nat 0) with 0 in Hrun. rewrite Hlen in Hrun. rewrite Hrun.
  cbn [bind]. do 3 eexists. split; [reflexivity|].
  split; [exact Hperm|]. split; [|split; [|split]].
  - unfold store_holds. rewrite Hnr', Hnb', Hbp, El, Er, En, Ec, Et.
    cbn. rewrite Hlen. repeat split; reflexivity.
  - now rewrite Hs.
  - now rewrite Hnl.
  - now apply sorted_by_cmp_left.
Qed.

End Create.

Lemma insert_sorted_perm (x : coalescence_record_t) (l : list coalescence_record_t) :
  Permutation (x :: l) (insert_sorted cmp_coalescence_record x l).
Proof.
  induction l as [|y l IH]; simpl; [reflexivity|].
  destruct (cmp_coalescence_record x y <=? 0); [reflexivity|].
  rewrite perm_swap. now constructor.
Qed.

Lemma insert_sorted_sorted (x : coalescence_record_t) (l : list coalescence_record_t) :
  Sorted (fun a b => cmp_coalescence_record a b <= 0) l ->
  Sorted (fun a b => cmp_coalescence_record a b <= 0)
    (insert_sorted cmp_coalescence_record x l).
Proof.
  induction 1 as [|y l Hs IH Hhd]; simpl; [repeat constructor|].
  destruct (Z.leb_spec (cmp_coalescence_record x y) 0) as [Hle|Hgt].
  - constructor; [now constructor|now constructor].
  - constructor; [exact IH|].
    assert (Hyx : cmp_coalescence_record y x <= 0).
    { unfold cmp_coalescence_record in *.
      destruct (Z.ltb_spec (cr_left y) (cr_left x)), (Z.ltb_spec (cr_left x) (cr_left y)); lia. }
    destruct l as [|z l]; simpl; [now constructor|].
    destruct (cmp_coalescence_record x z <=? 0); constructor; try assumption.
    now inversion Hhd.
Qed.

Lemma insertion_qsort_sorts (l : list coalescence_record_t) :
  Permutation l (insertion_qsort cmp_coalescence_record l) /\
  Sorted (fun a b => cmp_coalescence_record a b <= 0)
    (insertion_qsort cmp_coalescence_record l).
Proof.
  induction l as [|x l [IHp IHs]]; simpl; [split; constructor|]. split.
  - etransitivity; [|apply insert_sorted_perm]. now constructor.
  - now apply insert_sorted_sorted.
Qed.

Lemma create_sorts_by_left_witness :
  exists self' m' rs,
    tree_sequence_create insertion_qsort blank_store S2_sim fresh_mem
    = Done (0, self', m') /\
    Permutation (sim_records S2_sim) rs /\
    store_holds self' (sim_breakpoints S2_sim) rs /\
    sample_size self' = sim_sample_size S2_sim /\
    num_loci self' = sim_num_loci S2_sim /\
    (forall (j : nat) (a b : Z),
        map cr_left rs !! j = Some a -> map cr_left rs !! S j = Some b -> a <= b).
Proof.
  apply (create_sorts_by_left insertion_qsort insertion_qsort_sorts).
  - constructor.
  - simpl. lia.
  - simpl. lia.
Defined.

(** C9, the defect at a failing allocation: with the second [malloc] (the
    left column) returning NULL, [tree_sequence_alloc] returns
    [MSP_ERR_NO_MEMORY] with the breakpoints and the four other columns still
    allocated (five live blocks, none freed), and [tree_sequence_create]
    drops that return code and goes on to write through the NULL column. *)
Theorem alloc_failure_not_rolled_back :
  let m := {| oracle := [true; false]; live_blocks := 0 |} in
  let self := set_sizes blank_store 3 5 4 10 in
  (exists self' m',
      tree_sequence_alloc self m = (MSP_ERR_NO_MEMORY, self', m') /\
      is_null (ts_left self') = true /\
      is_null (breakpoints self') = false /\
      is_null (ts_right self') = false /\
      live_blocks m' = 5%nat) /\
  tree_sequence_create insertion_qsort blank_store S2_sim m = Undefined.
Proof.
  split.
  - do 2 eexists. vm_compute. repeat split.
  - vm_compute. reflexivity.
Qed.

(** ** Dump and load *)

(** The property list a pass of the dataset loop builds. *)
Lemma set_plist_ok (flags : Z) (chunk : list Z) :
  (let '(status, plist) :=
     set_compression flags
       {| pl_chunk := chunk; pl_shuffle := false; pl_deflate := None;
          pl_fletcher32 := false |} in
   if status <? 0 then None else Some (snd (H5Pset_fletcher32 plist)))
  = Some (dump_plist flags chunk).
Proof.
  unfold set_compression, dump_plist.
  destruct (Z.land flags MSP_ZLIB_COMPRESSION =? 0); reflexivity.
Qed.

(** A pass of the dataset loop succeeds when every extent of the chunk is
    positive and below 2^32 and the chunk is below 4 GB. *)
Lemma write_hdf5_field_ok (file : h5_file) (flags : Z) (name : string)
  (type : h5_type) (dimensions size : Z) (l : list Z) :
  h5_datasets file !! name = None ->
  group_exists file (parent_group name) = true ->
  Z.of_nat (length l) = num_elements (take (Z.to_nat dimensions) [size; 2]) ->
  Forall (fun d => 0 < d < 2 ^ 32) (take (Z.to_nat dimensions) [size; 2]) ->
  num_elements (take (Z.to_nat dimensions) [size; 2]) * type_size type < 2 ^ 32 ->
  write_hdf5_field file flags name type dimensions size (Some l)
  = Done (0, add_dataset file name
               {| ds_type := type;
                  ds_dims := take (Z.to_nat dimensions) [size; 2];
                  ds_plist := dump_plist flags (take (Z.to_nat dimensions) [size; 2]);
                  ds_data := l |}).
Proof.
  intros Hnew Hgrp Hlen Hext Hbytes.
  unfold write_hdf5_field, H5Pset_chunk, H5Pcreate, H5Screate_simple.
  set (chunk := take (Z.to_nat dimensions) [size; 2]) in *.
  assert (Hall : forallb (fun d => (0 <? d) && (d <? 2 ^ 32)) chunk = true).
  { apply forallb_forall. rewrite List.Forall_forall in Hext.
    intros d Hd. specialize (Hext d Hd). apply andb_true_iff.
    split; apply Z.ltb_lt; lia. }
  assert (Hcount : (num_elements chunk <? 2 ^ 32) = true).
  { apply Z.ltb_lt. destruct type; cbn [type_size] in Hbytes; lia. }
  rewrite Hall, Hcount. cbn [andb Z.ltb Z.compare pl_shuffle pl_deflate pl_fletcher32].
  pose proof (set_plist_ok flags chunk) as Hplist.
  destruct (set_compression flags _) as [status plist].
  destruct (status <? 0); [discriminate|].
  apply (inj Some) in Hplist.
  unfold H5Pset_fletcher32 in *. cbn [snd] in Hplist. rewrite Hplist.
  cbn [Z.ltb Z.compare]. unfold H5Dcreate2. rewrite Hnew, Hgrp. cbn [pl_chunk dump_plist negb orb].
  replace (2 ^ 32 <=? num_elements chunk * type_size type) with false
    by (symmetry; apply Z.leb_gt; lia).
  cbn [negb Z.ltb Z.compare bind]. unfold H5Dwrite.
  cbn [h5_datasets h5_groups h5_attrs]. rewrite lookup_insert_eq.
  cbn [ds_dims ds_type ds_plist]. rewrite <- Hlen, Z.ltb_irrefl.
  cbn [bind Z.ltb Z.compare]. rewrite Nat2Z.id, firstn_all, insert_insert_eq.
  reflexivity.
Qed.

Lemma flat_map_children_length (rs : list coalescence_record_t) :
  length (flat_map children_pair rs) = (2 * length rs)%nat.
Proof. induction rs as [|r rs IH]; simpl; lia. Qed.

Ltac solve_count :=
  unfold num_elements; simpl;
  rewrite ?length_map, ?flat_map_children_length; lia.

Ltac solve_chunk :=
  simpl; repeat constructor; lia.

Ltac solve_bytes :=
  unfold num_elements; simpl; lia.

(** A store with a breakpoint and a record, small enough for each dataset to
    be one chunk (below 4 GB), is written in full. *)
Lemma dump_writes (self : tree_sequence_t) (bps : list Z)
  (rs : list coalescence_record_t) (fs : gmap string h5_file)
  (filename : string) (flags : Z) :
  store_holds self bps rs ->
  0 < num_breakpoints self < 2 ^ 30 ->
  0 < num_records self < 2 ^ 29 ->
  tree_sequence_dump self fs filename flags
  = Done (0, <[filename := dumped_file self bps rs flags]> fs).
Proof.
  intros (Hnr & Hnb & Hbp & Hl & Hr & Hn & Hc & Ht) Hbfit Hrfit.
  unfold tree_sequence_dump.
  change (tree_sequence_write_hdf5_metadata self h5_empty)
    with (0, {| h5_groups := {["/parameters"%string]} ∪ ∅;
                h5_attrs := h5_attrs (dumped_file self bps rs flags);
                h5_datasets := ∅ |}).
  cbn [Z.ltb Z.compare]. unfold tree_sequence_write_hdf5_data.
  match goal with
  | |- context [H5Gcreate ?f "/records"] =>
      change (H5Gcreate f "/records")
        with (0, {| h5_groups := h5_groups (dumped_file self bps rs flags);
                    h5_attrs := h5_attrs (dumped_file self bps rs flags);
                    h5_datasets := ∅ |})
  end.
  cbn [Z.ltb Z.compare]. rewrite Hbp, Hl, Hr, Hn, Hc, Ht.
  cbn [write_hdf5_fields].
  rewrite write_hdf5_field_ok;
    [ | reflexivity | reflexivity | solve_count | solve_chunk | solve_bytes ].
  cbn [bind Z.ltb Z.compare].
  rewrite write_hdf5_field_ok;
    [ | reflexivity | reflexivity | solve_count | solve_chunk | solve_bytes ].
  cbn [bind Z.ltb Z.compare].
  rewrite write_hdf5_field_ok;
    [ | reflexivity | reflexivity | solve_count | solve_chunk | solve_bytes ].
  cbn [bind Z.ltb Z.compare].
  rewrite write_hdf5_field_ok;
    [ | reflexivity | reflexivity | solve_count | solve_chunk | solve_bytes ].
  cbn [bind Z.ltb Z.compare].
  rewrite write_hdf5_field_ok;
    [ | reflexivity | reflexivity | solve_count | solve_chunk | solve_bytes ].
  cbn [bind Z.ltb Z.compare].
  rewrite write_hdf5_field_ok;
    [ | reflexivity | reflexivity | solve_count | solve_chunk | solve_bytes ].
  cbn [bind Z.ltb Z.compare]. reflexivity.
Qed.







(** ** The format version *)

Lemma read_version_dropped (self : tree_sequence_t) (file : h5_file)
  (a : h5_attr) (v : Z) :
  H5Aopen_by_name file "/" "format_version" = Some a ->
  length (at_dims a) = 1%nat -> length (at_data a) = 1%nat ->
  tree_sequence_read_hdf5_metadata self (with_version file v)
  = tree_sequence_read_hdf5_metadata self file.
Proof.
  intros Ha Hdims Hdata.
  unfold tree_sequence_read_hdf5_metadata.
  assert (Hv : read_hdf5_attr (with_version file v) "/" "format_version"
               = Done (None, Some v)).
  { unfold read_hdf5_attr, H5Aopen_by_name, with_version. cbn [h5_attrs].
    now rewrite lookup_insert_eq. }
  assert (H0 : exists v0, read_hdf5_attr file "/" "format_version"
                          = Done (None, Some v0)).
  { unfold read_hdf5_attr. rewrite Ha. unfold H5Sget_simple_extent_ndims, H5Aread.
    rewrite Hdims. destruct (at_data a) as [|v0 [|? ?]]; try discriminate.
    now exists v0. }
  destruct H0 as [v0 H0]. rewrite Hv, H0. cbn [bind].
  assert (Hother : forall name,
             read_hdf5_attr (with_version file v) "/parameters" name
             = read_hdf5_attr file "/parameters" name).
  { intros name. unfold read_hdf5_attr, H5Aopen_by_name, with_version.
    cbn [h5_attrs]. now rewrite lookup_insert_ne by discriminate. }
  now rewrite !Hother.
Qed.

(** C4, as the code has it: the loader reads [/format_version] and drops it.
    Two files that differ only in the version they carry load with the same
    outcome, whatever the version is and however it compares with
    [MSP_FILE_FORMAT_VERSION]. *)
Theorem load_ignores_version (self : tree_sequence_t) (fs : gmap string h5_file)
  (filename : string) (m : mem_t) (file : h5_file) (a : h5_attr) (v : Z) :
  H5Fopen fs filename = Some file ->
  H5Aopen_by_name file "/" "format_version" = Some a ->
  length (at_dims a) = 1%nat -> length (at_data a) = 1%nat ->
  tree_sequence_load self (<[filename := with_version file v]> fs) filename m
  = tree_sequence_load self fs filename m.
Proof.
  intros Hfile Ha Hdims Hdata.
  unfold tree_sequence_load. unfold H5Fopen in *.
  rewrite lookup_insert_eq, Hfile.
  rewrite (read_version_dropped self file a v Ha Hdims Hdata).
  reflexivity.
Qed.

Lemma load_ignores_version_witness :
  tree_sequence_load blank_store
    (<["s2.hdf5"%string := with_version (dumped_file S2_store [0; 4; 10] S2_sorted 0) 7]>
       {["s2.hdf5"%string := dumped_file S2_store [0; 4; 10] S2_sorted 0]})
    "s2.hdf5" fresh_mem
  = tree_sequence_load blank_store
      {["s2.hdf5"%string := dumped_file S2_store [0; 4; 10] S2_sorted 0]}
      "s2.hdf5" fresh_mem.
Proof.
  apply (load_ignores_version blank_store _ "s2.hdf5" fresh_mem
           (dumped_file S2_store [0; 4; 10] S2_sorted 0)
           {| at_type := H5T_STD_U32LE; at_dims := [1];
              at_data := [MSP_FILE_FORMAT_VERSION] |} 7);
    reflexivity.
Defined.

(** C4, the counterexample: a file whose version is above the compiled-in
    constant loads, with return code 0 and the whole store. *)
Lemma load_accepts_newer_version :
  option_map at_data (H5Aopen_by_name newer_file "/" "format_version")
  = Some [MSP_FILE_FORMAT_VERSION + 1] /\
  MSP_FILE_FORMAT_VERSION < MSP_FILE_FORMAT_VERSION + 1 /\
  tree_sequence_load blank_store {["new.hdf5"%string := newer_file]}
    "new.hdf5" fresh_mem
  = Done (0, S2_store, {| oracle := []; live_blocks := 6 |}).
Proof.
  split; [reflexivity|]. split; [reflexivity|]. vm_compute. reflexivity.
Qed.

(** ** A failing load *)

Lemma malloc_live {A : Type} (d : A) (n sz : Z) (m : mem_t) :
  (live_blocks m <= live_blocks (snd (malloc d n sz m)))%nat.
Proof. unfold malloc. destruct (oracle m) as [|[] o]; simpl; lia. Qed.

Lemma metadata_keeps_blocks (self : tree_sequence_t) (file : h5_file)
  (status : Z) (s1 : tree_sequence_t) :
  tree_sequence_read_hdf5_metadata self file = Done (status, s1) ->
  blocks s1 = blocks self.
Proof.
  unfold tree_sequence_read_hdf5_metadata. intros H.
  destruct (read_hdf5_attr file "/" "format_version") as [[[e|] v]| | |];
    cbn [bind] in H; try discriminate; [now inversion H|].
  destruct (read_hdf5_attr file "/parameters" "sample_size") as [[[e|] v1]| | |];
    cbn [bind] in H; try discriminate; [now inversion H|].
  destruct (read_hdf5_attr file "/parameters" "num_loci") as [[[e|] v2]| | |];
    cbn [bind] in H; try discriminate; inversion H; subst;
    destruct v1; try destruct v2; reflexivity.
Qed.

Lemma check_hdf5_field_kinds (self : tree_sequence_t) (file : h5_file)
  (name : string) (dimensions : Z) :
  check_hdf5_field self file name dimensions = 0 \/
  is_load_error (check_hdf5_field self file name dimensions).
Proof.
  unfold check_hdf5_field, is_load_error.
  destruct (H5Dopen file name); [|now right; left].
  destruct (negb _); [now right; right; left|].
  destruct (negb _); [now right; right; left|now left].
Qed.

Lemma check_hdf5_fields_kinds (self : tree_sequence_t) (file : h5_file)
  (fields : list (string * Z)) :
  check_hdf5_fields self file fields = 0 \/
  is_load_error (check_hdf5_fields self file fields).
Proof.
  induction fields as [|[name d] fields IH]; [now left|]. cbn [check_hdf5_fields].
  destruct (check_hdf5_field_kinds self file name d) as [->|H].
  - exact IH.
  - destruct (negb _) eqn:E; [now right|]. exact IH.
Qed.

Section ReadDimensions.

Variables (self : tree_sequence_t) (file : h5_file) (m : mem_t).
Variables (ret : Z) (self' : tree_sequence_t) (m' : mem_t).
Hypothesis Hrun : tree_sequence_read_hdf5_dimensions self file m = (ret, self', m').

Lemma read_dimensions_early :
  rank_one file "/breakpoints" = false ->
  m' = m /\ self' = self /\ is_load_error ret.
Proof using Hrun.
  unfold rank_one, tree_sequence_read_hdf5_dimensions in *. intros Hrank.
  destruct (H5Dopen file "/breakpoints") as [d|].
  - rewrite Hrank in Hrun. cbn [negb] in Hrun. inversion Hrun; subst.
    repeat split. now right; left.
  - inversion Hrun; subst. repeat split. now left.
Qed.

Lemma read_dimensions_live_kinds :
  (live_blocks m <= live_blocks m')%nat /\ (ret = 0 \/ is_load_error ret).
Proof using Hrun.
  unfold tree_sequence_read_hdf5_dimensions in Hrun.
  destruct (H5Dopen file "/breakpoints") as [d|];
    [|inversion Hrun; subst; split; [lia|now right; left]].
  destruct (negb _);
    [inversion Hrun; subst; split; [lia|now right; right; left]|].
  pose proof (malloc_live 0 (nth 0 (ds_dims d) 0) 4 m) as L1.
  destruct (malloc 0 (nth 0 (ds_dims d) 0) 4 m) as [bp m1]. cbn [snd] in L1.
  destruct (is_null bp);
    [inversion Hrun; subst; split; [lia|now right; right; right]|].
  destruct (H5Dopen file "/records/left") as [d'|];
    [|inversion Hrun; subst; split; [lia|now right; left]].
  destruct (negb _);
    [inversion Hrun; subst; split; [lia|now right; right; left]|].
  set (nr := nth 0 (ds_dims d') 0) in *.
  pose proof (malloc_live 0 nr 4 m1) as L2.
  destruct (malloc 0 nr 4 m1) as [l m2]. cbn [snd] in L2.
  pose proof (malloc_live 0 nr 4 m2) as L3.
  destruct (malloc 0 nr 4 m2) as [r m3]. cbn [snd] in L3.
  pose proof (malloc_live 0 nr 4 m3) as L4.
  destruct (malloc 0 nr 4 m3) as [n m4]. cbn [snd] in L4.
  pose proof (malloc_live 0 (2 * nr) 4 m4) as L5.
  destruct (malloc 0 (2 * nr) 4 m4) as [c m5]. cbn [snd] in L5.
  pose proof (malloc_live 0 nr 8 m5) as L6.
  destruct (malloc 0 nr 8 m5) as [t m6]. cbn [snd] in L6.
  destruct (_ || _);
    inversion Hrun; subst; (split; [lia|]); [now right; right; right|].
  apply check_hdf5_fields_kinds.
Qed.

Lemma read_dimensions_allocates :
  rank_one file "/breakpoints" = true ->
  rank_one file "/records/left" = true ->
  Forall (eq true) (oracle m) ->
  live_blocks m' = (live_blocks m + 6)%nat /\
  Forall (fun b => is_null b = false) (blocks self').
Proof using Hrun.
  unfold rank_one, tree_sequence_read_hdf5_dimensions in *. intros Hb Hl Hm.
  destruct (H5Dopen file "/breakpoints") as [d|]; [|discriminate].
  rewrite Hb in Hrun. cbn [negb] in Hrun.
  destruct (malloc_succeeds 0 (nth 0 (ds_dims d) 0) 4 m Hm) as (m1 & E1 & Hm1 & L1).
  rewrite E1 in Hrun. cbn [is_null] in Hrun.
  destruct (H5Dopen file "/records/left") as [d'|]; [|discriminate].
  rewrite Hl in Hrun. cbn [negb] in Hrun.
  set (nr := nth 0 (ds_dims d') 0) in *.
  destruct (malloc_succeeds 0 nr 4 m1 Hm1) as (m2 & E2 & Hm2 & L2).
  destruct (malloc_succeeds 0 nr 4 m2 Hm2) as (m3 & E3 & Hm3 & L3).
  destruct (malloc_succeeds 0 nr 4 m3 Hm3) as (m4 & E4 & Hm4 & L4).
  destruct (malloc_succeeds 0 (2 * nr) 4 m4 Hm4) as (m5 & E5 & Hm5 & L5).
  destruct (malloc_succeeds 0 nr 8 m5 Hm5) as (m6 & E6 & Hm6 & L6).
  rewrite E2, E3, E4, E5, E6 in Hrun. cbn [is_null orb] in Hrun.
  inversion Hrun; subst. split; [lia|].
  repeat constructor.
Qed.

End ReadDimensions.

Lemma read_hdf5_field_null (file : h5_file) (name : string)
  (dest dest' : option (list Z)) (ret : Z) :
  read_hdf5_field file name dest = Done (ret, dest') ->
  is_null dest' = is_null dest /\ (ret = 0 \/ ret = MSP_ERR_HDF5).
Proof.
  unfold read_hdf5_field, H5Dread. intros H.
  destruct (H5Dopen file name) as [d|]; [|inversion H; subst; now split; [|right]].
  destruct dest as [l|]; cbn [bind] in H.
  - destruct (_ <? _)%nat; [discriminate|]. cbn [bind Z.ltb Z.compare] in H.
    inversion H; subst. now split; [|left].
  - cbn [Z.ltb Z.compare] in H. inversion H; subst. now split; [|right].
Qed.

Lemma read_data_blocks (self : tree_sequence_t) (file : h5_file)
  (ret : Z) (self' : tree_sequence_t) :
  tree_sequence_read_hdf5_data self file = Done (ret, self') ->
  map is_null (blocks self') = map is_null (blocks self) /\
  (ret = 0 \/ ret = MSP_ERR_HDF5).
Proof.
  unfold tree_sequence_read_hdf5_data. intros H.
  repeat match type of H with
  | context [read_hdf5_field ?f ?n ?d] =>
      let E := fresh "E" in
      destruct (read_hdf5_field f n d) as [[? ?]| | |] eqn:E;
      cbn [bind] in H; try discriminate;
      apply read_hdf5_field_null in E; destruct E as [? [->| ->]];
      cbn [Z.eqb negb breakpoints ts_left ts_right ts_node ts_children ts_time
           set_columns set_breakpoints] in H
  end;
  inversion H; subst; cbn; (split; [congruence|]); auto.
Qed.

(** C5, as the code has it.  A failing [tree_sequence_load] frees nothing.
    When the file does not open, a metadata attribute is missing or
    ill-shaped, or [/breakpoints] is missing or not of rank 1, it has
    allocated nothing.  Once the ranks of [/breakpoints] and [/records/left]
    are accepted, the six blocks are allocated before the other datasets are
    looked at, and any later failure returns with all six still allocated.
    After the metadata step the error is [MSP_ERR_HDF5], [MSP_ERR_FILE_FORMAT]
    or [MSP_ERR_NO_MEMORY]. *)
Theorem load_failure_state (self : tree_sequence_t) (fs : gmap string h5_file)
  (filename : string) (m : mem_t) (ret : Z) (self' : tree_sequence_t) (m' : mem_t) :
  tree_sequence_load self fs filename m = Done (ret, self', m') ->
  ret <> 0 ->
  (live_blocks m <= live_blocks m')%nat /\
  (metadata_ok self fs filename && dataset_rank_one fs filename "/breakpoints" = false ->
     m' = m /\ blocks self' = blocks self) /\
  (metadata_ok self fs filename = true ->
   dataset_rank_one fs filename "/breakpoints" = true ->
   dataset_rank_one fs filename "/records/left" = true ->
   Forall (eq true) (oracle m) ->
     live_blocks m' = (live_blocks m + 6)%nat /\
     Forall (fun b => is_null b = false) (blocks self')) /\
  (metadata_ok self fs filename = true -> is_load_error ret).
Proof.
  intros Hload Hret.
  unfold metadata_ok, dataset_rank_one. unfold tree_sequence_load in Hload.
  destruct (H5Fopen fs filename) as [file|].
  2:{ inversion Hload; subst. repeat split; try lia; discriminate. }
  destruct (tree_sequence_read_hdf5_metadata self file) as [[status s1]| | |] eqn:Emeta;
    cbn [bind] in Hload; try discriminate.
  pose proof (metadata_keeps_blocks _ _ _ _ Emeta) as Hblocks.
  destruct (Z.ltb_spec status 0) as [Hneg|Hpos].
  { inversion Hload; subst.
    destruct (Z.leb_spec 0 status); [lia|].
    repeat split; try lia; try discriminate; assumption. }
  destruct (Z.leb_spec 0 status); [|lia].
  destruct (tree_sequence_read_hdf5_dimensions s1 file m) as [[ret1 s2] m2] eqn:Edims.
  destruct (read_dimensions_live_kinds _ _ _ _ _ _ Edims) as [Hlive Hkind].
  destruct (negb (ret1 =? 0)) eqn:Eret1.
  - inversion Hload; subst. split; [exact Hlive|]. split; [|split].
    + cbn [andb]. intros Hrank.
      destruct (read_dimensions_early _ _ _ _ _ _ Edims Hrank) as (-> & -> & _).
      now split.
    + intros _ Hb Hl Hm. eapply read_dimensions_allocates; eauto.
    + intros _. destruct Hkind as [->|]; [discriminate|assumption].
  - apply negb_false_iff, Z.eqb_eq in Eret1. subst ret1.
    destruct (tree_sequence_read_hdf5_data s2 file) as [[ret2 s3]| | |] eqn:Edata;
      cbn [bind] in Hload; try discriminate.
    destruct (read_data_blocks _ _ _ _ Edata) as [Hnull Hkind2].
    assert (ret = ret2 /\ self' = s3 /\ m' = m2) as (-> & -> & ->).
    { destruct (negb (ret2 =? 0)) eqn:E2; inversion Hload; subst; auto.
      apply negb_false_iff, Z.eqb_eq in E2. congruence. }
    split; [exact Hlive|]. split; [|split].
    + cbn [andb]. intros Hrank.
      destruct (read_dimensions_early _ _ _ _ _ _ Edims Hrank) as (_ & _ & He).
      destruct He as [He|[He|He]]; discriminate.
    + intros _ Hb Hl Hm.
      destruct (read_dimensions_allocates _ _ _ _ _ _ Edims Hb Hl Hm) as [Hl6 Hall].
      split; [exact Hl6|].
      apply List.Forall_forall. intros b Hb'.
      apply (in_map is_null) in Hb'. rewrite Hnull in Hb'.
      apply in_map_iff in Hb' as (b0 & <- & Hb0).
      rewrite List.Forall_forall in Hall. now apply Hall.
    + intros _. destruct Hkind2 as [->| ->]; [congruence|now left].
Qed.

Lemma truncated_load :
  exists self',
    tree_sequence_load blank_store {["bad.hdf5"%string := truncated_file]}
      "bad.hdf5" fresh_mem
    = Done (MSP_ERR_HDF5, self', {| oracle := []; live_blocks := 6 |}) /\
    map is_null (blocks self') = [false; false; false; false; false; false].
Proof.
  eexists. split; [vm_compute; reflexivity|]. reflexivity.
Qed.

(** C5, the counterexample: the dump of S2 with [/records/right] removed.
    The load fails with [MSP_ERR_HDF5] after the six blocks were allocated,
    and returns with all six still allocated. *)
Lemma load_failure_keeps_blocks :
  exists self',
    tree_sequence_load blank_store {["bad.hdf5"%string := truncated_file]}
      "bad.hdf5" fresh_mem
    = Done (MSP_ERR_HDF5, self', {| oracle := []; live_blocks := 6 |}) /\
    map is_null (blocks self') = [false; false; false; false; false; false].
Proof. exact truncated_load. Qed.

Lemma load_failure_state_witness :
  exists self' m',
    tree_sequence_load blank_store {["bad.hdf5"%string := truncated_file]}
      "bad.hdf5" fresh_mem = Done (MSP_ERR_HDF5, self', m') /\
    live_blocks m' = 6%nat /\
    Forall (fun b => is_null b = false) (blocks self').
Proof.
  destruct truncated_load as (self' & Hload & _).
  exists self', {| oracle := []; live_blocks := 6 |}.
  split; [exact Hload|].
  destruct (load_failure_state _ _ _ _ _ _ _ Hload ltac:(discriminate))
    as (_ & _ & H & _).
  apply H; try reflexivity. constructor.
Defined.

(** ** Local trees: every coordinate carries [n - 1] records *)

Lemma mem_In (x : Z) (l : list Z) : mem x l = true <-> In x l.
Proof.
  unfold mem. rewrite List.existsb_exists. split.
  - intros (y & Hy & Heq). apply Z.eqb_eq in Heq. now subst.
  - intros H. exists x. split; [exact H|apply Z.eqb_refl].
Qed.

Lemma mem_not_In (x : Z) (l : list Z) : mem x l = false <-> ~ In x l.
Proof.
  rewrite <- mem_In. destruct (mem x l); split; congruence.
Qed.

Lemma distinct_NoDup (l : list Z) : distinct l = true -> List.NoDup l.
Proof.
  induction l as [|x l IH]; simpl; intros H; [constructor|].
  apply andb_true_iff in H as [Hx Hl]. constructor; [|now apply IH].
  apply mem_not_In. now apply negb_true_iff.
Qed.

Lemma samples_In (n v : Z) : In v (samples n) <-> 1 <= v <= n.
Proof.
  unfold samples. rewrite List.in_map_iff. split.
  - intros (k & <- & Hk). apply List.in_seq in Hk. lia.
  - intros H. exists (Z.to_nat v). split; [lia|]. apply List.in_seq. lia.
Qed.

Lemma samples_NoDup (n : Z) : List.NoDup (samples n).
Proof.
  unfold samples. apply Finite.Injective_map_NoDup; [|apply List.seq_NoDup].
  intros a b. apply Nat2Z.inj.
Qed.

Lemma samples_length (n : Z) : length (samples n) = Z.to_nat n.
Proof. unfold samples. now rewrite List.length_map, List.length_seq. Qed.

Lemma children_slots_length (local : list coalescence_record_t) :
  length (flat_map children_pair local) = (2 * length local)%nat.
Proof. induction local as [|r l IH]; simpl; lia. Qed.

(** A valid local tree on [n] samples has [n - 1] internal nodes: its child
    slots are, each exactly once, the nodes other than the root. *)
Lemma valid_local_tree_size (n : Z) (local : list coalescence_record_t) :
  0 <= n ->
  Forall (fun r => n < cr_node r) local ->
  valid_local_tree n local = true ->
  Z.of_nat (length local) = n - 1.
Proof.
  intros Hn Habove Hvalid. unfold valid_local_tree in Hvalid.
  apply andb_true_iff in Hvalid as [Hvalid Hslots].
  apply andb_true_iff in Hvalid as [Hdistinct Htop].
  apply List.existsb_exists in Htop as (top & Hin & Htop).
  apply andb_true_iff in Htop as [Htop Hnodes].
  apply andb_true_iff in Htop as [_ Hroot].
  apply negb_true_iff, mem_not_In in Hroot.
  set (slots := flat_map children_pair local) in *.
  set (parents := map cr_node local) in *.
  set (root := cr_node top) in *.
  rewrite List.forallb_forall in Hnodes, Hslots.
  assert (Hnd : List.NoDup (samples n ++ parents)).
  { apply List.NoDup_app; [apply samples_NoDup|now apply distinct_NoDup|].
    intros a Ha Hp. apply samples_In in Ha.
    apply List.in_map_iff in Hp as (r & <- & Hr).
    rewrite List.Forall_forall in Habove. specialize (Habove r Hr). lia. }
  assert (Hcount : forall c, In c slots -> count_occ Z.eq_dec slots c = 1%nat).
  { intros c Hc. specialize (Hslots c Hc). apply mem_In in Hslots.
    specialize (Hnodes c Hslots). apply orb_true_iff in Hnodes as [Heq|Hone].
    - apply Z.eqb_eq in Heq. subst c. contradiction.
    - now apply Nat.eqb_eq in Hone. }
  assert (Hperm : Permutation (root :: slots) (samples n ++ parents)).
  { apply Permutation.NoDup_Permutation; [|exact Hnd|].
    - constructor; [exact Hroot|]. now apply (NoDup_count_occ' Z.eq_dec).
    - intros x. split.
      + intros [<-|Hx].
        * apply List.in_app_iff. right. now apply List.in_map.
        * apply mem_In. now apply Hslots.
      + intros Hx. specialize (Hnodes x Hx).
        apply orb_true_iff in Hnodes as [Heq|Hone].
        * apply Z.eqb_eq in Heq. now left.
        * right. apply Nat.eqb_eq in Hone.
          apply (count_occ_In Z.eq_dec). lia. }
  apply Permutation_length in Hperm.
  rewrite List.length_app, samples_length in Hperm. simpl in Hperm.
  unfold slots, parents in Hperm.
  rewrite children_slots_length, List.length_map in Hperm. lia.
Qed.

Lemma nondecreasing_sorted (l : list Z) :
  nondecreasing l = true -> StronglySorted Z.le l.
Proof.
  intros H. apply Sorted_StronglySorted; [intros x y z; lia|].
  induction l as [|a l IH]; [constructor|].
  destruct l as [|b l]; [repeat constructor|].
  simpl in H. apply andb_true_iff in H as [Hab Hl].
  constructor; [now apply IH|]. constructor. lia.
Qed.

Lemma increasing_sorted (l : list Z) :
  increasing l = true -> StronglySorted Z.lt l.
Proof.
  intros H. apply Sorted_StronglySorted; [intros x y z; lia|].
  induction l as [|a l IH]; [constructor|].
  destruct l as [|b l]; [repeat constructor|].
  simpl in H. apply andb_true_iff in H as [Hab Hl].
  constructor; [now apply IH|]. constructor. lia.
Qed.

Lemma filter_length_lt {A : Type} (f g : A -> bool) (l : list A) (a : A) :
  (forall x, In x l -> f x = true -> g x = true) ->
  In a l -> f a = false -> g a = true ->
  (length (List.filter f l) < length (List.filter g l))%nat.
Proof.
  intros Hfg. induction l as [|x l IH]; intros Hin Hfa Hga; [contradiction|].
  assert (Hle : (length (List.filter f l) <= length (List.filter g l))%nat).
  { clear IH Hin. induction l as [|y l IHl]; simpl; [lia|].
    assert (Hy := Hfg y (or_intror (or_introl eq_refl))).
    destruct (f y) eqn:Ef; [rewrite Hy by reflexivity; simpl|destruct (g y); simpl].
    all: assert (IH' := IHl (fun z Hz => Hfg z (match Hz with
                                                  | or_introl e => or_introl e
                                                  | or_intror i => or_intror (or_intror i)
                                                  end))); lia. }
  simpl. destruct Hin as [->|Hin].
  - rewrite Hfa, Hga. simpl. lia.
  - assert (IH' := IH (fun z Hz => Hfg z (or_intror Hz)) Hin Hfa Hga).
    assert (Hx := Hfg x (or_introl eq_refl)).
    destruct (f x); [rewrite Hx by reflexivity; simpl; lia|].
    destruct (g x); simpl; lia.
Qed.

(** The consequences of invariants 1 and 2 the iterator relies on. *)
Section TreeInvariants.

Variables (n l : Z) (rs : list coalescence_record_t).
Hypothesis Hinv : tree_invariants n l rs = true.

Lemma inv_sizes : 0 <= n < 2 ^ 32 /\ 0 <= l < 2 ^ 32.
Proof using Hinv.
  unfold tree_invariants in Hinv.
  repeat (apply andb_true_iff in Hinv as [Hinv ?]). lia.
Qed.

Lemma inv_record (r : coalescence_record_t) :
  In r rs -> 0 <= cr_left r < cr_right r /\ cr_right r <= l /\ n < cr_node r.
Proof using Hinv.
  intros Hr. unfold tree_invariants in Hinv.
  repeat (apply andb_true_iff in Hinv as [Hinv ?]).
  match goal with H : forallb (record_ok n l) rs = true |- _ =>
    rewrite List.forallb_forall in H; specialize (H r Hr); unfold record_ok in H;
    repeat (apply andb_true_iff in H as [H ?]) end.
  lia.
Qed.

Lemma inv_sorted : StronglySorted Z.le (map cr_left rs).
Proof using Hinv.
  unfold tree_invariants in Hinv.
  repeat (apply andb_true_iff in Hinv as [Hinv ?]).
  now apply nondecreasing_sorted.
Qed.

Lemma inv_tree_size (x : Z) :
  0 <= x < l -> Z.of_nat (length (records_at rs x)) = n - 1.
Proof using Hinv.
  intros Hx. pose proof inv_sizes as [Hn _].
  apply valid_local_tree_size; [lia| |].
  - apply List.Forall_forall. intros r Hr.
    apply List.filter_In in Hr as [Hr _]. now apply inv_record.
  - unfold tree_invariants in Hinv.
    apply andb_true_iff in Hinv as [_ Htrees].
    rewrite List.forallb_forall in Htrees. apply Htrees.
    unfold coordinates. apply List.in_map_iff. exists (Z.to_nat x).
    split; [lia|]. apply List.in_seq. lia.
Qed.

(** A record ends at [L] or where another record starts. *)
Lemma inv_right_is_left (r : coalescence_record_t) :
  In r rs -> cr_right r = l \/ exists r', In r' rs /\ cr_left r' = cr_right r.
Proof using Hinv.
  intros Hr. destruct (inv_record r Hr) as (Hlr & Hrl & _).
  destruct (Z.eq_dec (cr_right r) l) as [|Hne]; [now left|]. right.
  destruct (existsb (fun r' => cr_left r' =? cr_right r) rs) eqn:E.
  - apply List.existsb_exists in E as (r' & Hr' & Heq).
    apply Z.eqb_eq in Heq. eauto.
  - exfalso.
    assert (Hnone : forall x, In x rs -> cr_left x <> cr_right r).
    { intros x Hx Heq.
      assert (existsb (fun r' => cr_left r' =? cr_right r) rs = true); [|congruence].
      apply List.existsb_exists. exists x. split; [exact Hx|now apply Z.eqb_eq]. }
    pose proof (inv_tree_size (cr_right r) ltac:(lia)) as H1.
    pose proof (inv_tree_size (cr_right r - 1) ltac:(lia)) as H2.
    pose proof (filter_length_lt (covers (cr_right r)) (covers (cr_right r - 1)) rs r) as Hlt.
    unfold records_at in *.
    assert (length (List.filter (covers (cr_right r)) rs)
            < length (List.filter (covers (cr_right r - 1)) rs))%nat; [|lia].
    apply Hlt; [|exact Hr|unfold covers; destruct (Z.ltb_spec (cr_right r) (cr_right r));
                           [lia|apply andb_false_r]|unfold covers; apply andb_true_iff; lia].
    intros x Hx Hc. unfold covers in *. apply andb_true_iff in Hc as [Hc1 Hc2].
    specialize (Hnone x Hx). apply andb_true_iff. lia.
Qed.

(** A record that starts after 0 starts where another record ends. *)
Lemma inv_left_is_right (r' : coalescence_record_t) :
  In r' rs -> 0 < cr_left r' -> exists r, In r rs /\ cr_right r = cr_left r'.
Proof using Hinv.
  intros Hr' Hpos. destruct (inv_record r' Hr') as (Hlr & Hrl & _).
  destruct (existsb (fun r => cr_right r =? cr_left r') rs) eqn:E.
  - apply List.existsb_exists in E as (r & Hr & Heq).
    apply Z.eqb_eq in Heq. eauto.
  - exfalso.
    assert (Hnone : forall x, In x rs -> cr_right x <> cr_left r').
    { intros x Hx Heq.
      assert (existsb (fun r => cr_right r =? cr_left r') rs = true); [|congruence].
      apply List.existsb_exists. exists x. split; [exact Hx|now apply Z.eqb_eq]. }
    pose proof (inv_tree_size (cr_left r') ltac:(lia)) as H1.
    pose proof (inv_tree_size (cr_left r' - 1) ltac:(lia)) as H2.
    pose proof (filter_length_lt (covers (cr_left r' - 1)) (covers (cr_left r')) rs r') as Hlt.
    unfold records_at in *.
    assert (length (List.filter (covers (cr_left r' - 1)) rs)
            < length (List.filter (covers (cr_left r')) rs))%nat; [|lia].
    apply Hlt; [|exact Hr'|unfold covers; apply andb_false_iff; left; lia
               |unfold covers; apply andb_true_iff; lia].
    intros x Hx Hc. unfold covers in *. apply andb_true_iff in Hc as [Hc1 Hc2].
    specialize (Hnone x Hx). apply andb_true_iff. lia.
Qed.

End TreeInvariants.

(** ** The ordered map of expiry lists *)

Lemma avl_search_key (t : list tree_node_list_t) (k : Z) (e : tree_node_list_t) :
  avl_search t k = Some e -> fst e = k /\ In e t.
Proof.
  induction t as [|[k0 l0] t IH]; simpl; [discriminate|].
  destruct (Z.eqb_spec k0 k) as [->|Hne]; intros H.
  - inversion H; subst. now split; [|left].
  - destruct (IH H) as [? ?]. now split; [|right].
Qed.

Lemma avl_search_none (t : list tree_node_list_t) (k : Z) :
  avl_search t k = None <-> ~ In k (keys t).
Proof.
  induction t as [|[k0 l0] t IH]; simpl; [tauto|].
  destruct (Z.eqb_spec k0 k) as [->|Hne].
  - split; [discriminate|]. intros H. exfalso. apply H. now left.
  - rewrite IH. tauto.
Qed.

Lemma avl_search_some (t : list tree_node_list_t) (k : Z) :
  In k (keys t) -> exists l, avl_search t k = Some (k, l).
Proof.
  intros H. destruct (avl_search t k) as [[k' l]|] eqn:E.
  - destruct (avl_search_key _ _ _ E) as [Hk _]. simpl in Hk. subst. eauto.
  - apply avl_search_none in E. contradiction.
Qed.

Lemma sorted_keys_NoDup (t : list tree_node_list_t) :
  StronglySorted Z.lt (keys t) -> List.NoDup (keys t).
Proof.
  unfold keys. induction (map fst t) as [|k ks IH]; intros H; [constructor|].
  apply StronglySorted_inv in H as [Hs Hall]. constructor; [|now apply IH].
  intros Hin. rewrite List.Forall_forall in Hall. specialize (Hall k Hin). lia.
Qed.

Lemma avl_insert_spec (t : list tree_node_list_t) (k : Z) (l : list tree_node_t) :
  StronglySorted Z.lt (keys t) -> avl_search t k = None ->
  exists t', avl_insert_node t (k, l) = Some t' /\
             StronglySorted Z.lt (keys t') /\
             length t' = S (length t) /\
             (forall a, In a (keys t') <-> a = k \/ In a (keys t)) /\
             forall k', avl_search t' k' =
                        if k =? k' then Some (k, l) else avl_search t k'.
Proof.
  induction t as [|[k0 l0] t IH]; intros Hs Hnone.
  - exists [(k, l)]. simpl. repeat split; try tauto.
    + repeat constructor.
    + intros [?|[]]; now left.
    + intros [?|[]]; now left.
  - simpl in Hnone. destruct (Z.eqb_spec k0 k) as [|Hne]; [discriminate|].
    simpl in Hs. apply StronglySorted_inv in Hs as [Hs Hall].
    cbn [avl_insert_node fst]. destruct (Z.ltb_spec k k0) as [Hlt|Hge].
    + exists ((k, l) :: (k0, l0) :: t). split; [reflexivity|].
      split; [|split; [reflexivity|split]].
      * simpl. constructor; [now constructor|]. constructor; [exact Hlt|].
        apply List.Forall_forall. intros a Ha.
        rewrite List.Forall_forall in Hall. specialize (Hall a Ha). lia.
      * intros a. simpl. intuition congruence.
      * intros k'. simpl. destruct (Z.eqb_spec k k'); reflexivity.
    + destruct (Z.eqb_spec k k0) as [|_]; [congruence|].
      destruct (IH Hs Hnone) as (t' & -> & Hs' & Hlen & Hin & Hsearch).
      exists ((k0, l0) :: t'). split; [reflexivity|].
      split; [|split; [simpl; lia|split]].
      * simpl. constructor; [exact Hs'|]. apply List.Forall_forall.
        intros a Ha. apply Hin in Ha as [->|Ha]; [lia|].
        rewrite List.Forall_forall in Hall. now apply Hall.
      * intros a. simpl. rewrite Hin. intuition congruence.
      * intros k'. simpl. rewrite Hsearch.
        destruct (Z.eqb_spec k0 k'), (Z.eqb_spec k k'); try reflexivity. congruence.
Qed.

Lemma avl_set_item_spec (t : list tree_node_list_t) (k : Z) (l : list tree_node_t) :
  keys (avl_set_item t k l) = keys t /\
  length (avl_set_item t k l) = length t /\
  forall k', avl_search (avl_set_item t k l) k' =
             if k =? k' then match avl_search t k with
                             | Some _ => Some (k, l)
                             | None => None
                             end
             else avl_search t k'.
Proof.
  induction t as [|[k0 l0] t (IHk & IHl & IHs)]; simpl.
  - repeat split. intros k'. now destruct (k =? k').
  - destruct (Z.eqb_spec k0 k) as [->|Hne]; simpl.
    + repeat split. intros k'. destruct (Z.eqb_spec k k'); reflexivity.
    + rewrite IHk, IHl. repeat split. intros k'. rewrite IHs.
      destruct (Z.eqb_spec k0 k'), (Z.eqb_spec k k'); try reflexivity. congruence.
Qed.

Lemma avl_unlink_spec (t : list tree_node_list_t) (k : Z) :
  StronglySorted Z.lt (keys t) ->
  StronglySorted Z.lt (keys (avl_unlink_node t k)) /\
  (forall a, In a (keys (avl_unlink_node t k)) -> In a (keys t)) /\
  (In k (keys t) -> length t = S (length (avl_unlink_node t k))) /\
  forall k', avl_search (avl_unlink_node t k) k' =
             if k =? k' then None else avl_search t k'.
Proof.
  induction t as [|[k0 l0] t IH]; intros Hs; simpl.
  - repeat split; try tauto. intros k'. now destruct (k =? k').
  - simpl in Hs. apply StronglySorted_inv in Hs as [Hs Hall].
    destruct (IH Hs) as (IHs & IHin & IHlen & IHsearch).
    destruct (Z.eqb_spec k0 k) as [->|Hne].
    + split; [exact Hs|]. split; [tauto|]. split; [reflexivity|].
      intros k'. destruct (Z.eqb_spec k k') as [<-|]; [|reflexivity].
      apply avl_search_none. intros Hin.
      rewrite List.Forall_forall in Hall. specialize (Hall k Hin). lia.
    + simpl. split; [|split; [|split]].
      * constructor; [exact IHs|]. apply List.Forall_forall. intros a Ha.
        rewrite List.Forall_forall in Hall. apply Hall. now apply IHin.
      * intros a [->|Ha]; [now left|right; now apply IHin].
      * intros [?|Hin]; [congruence|]. now rewrite <- IHlen.
      * intros k'. rewrite IHsearch.
        destruct (Z.eqb_spec k0 k'), (Z.eqb_spec k k'); try reflexivity. congruence.
Qed.

(** The shape of a map whose keys are [p] or at least [c], with [c] among
    them: [c] is first, or second after [p]. *)
Lemma sorted_map_shape (t : list tree_node_list_t) (p c : Z) :
  StronglySorted Z.lt (keys t) -> p < c ->
  (forall a, In a (keys t) -> a = p \/ c <= a) ->
  In c (keys t) ->
  (exists lc tl, t = (c, lc) :: tl /\ ~ In c (keys tl) /\ ~ In p (keys t)) \/
  (exists lp lc tl, t = (p, lp) :: (c, lc) :: tl /\ ~ In c (keys tl)).
Proof.
  intros Hs Hpc Hkeys Hc.
  destruct t as [|[k0 l0] t]; [contradiction|].
  simpl in Hs. apply StronglySorted_inv in Hs as [Hs Hall].
  rewrite List.Forall_forall in Hall.
  destruct (Hkeys k0 (or_introl eq_refl)) as [->|Hge].
  - right. destruct Hc as [Hc|Hc]; [simpl in Hc; lia|].
    destruct t as [|[k1 l1] t]; [contradiction|].
    simpl in Hs. apply StronglySorted_inv in Hs as [Hs Hall1].
    rewrite List.Forall_forall in Hall1.
    assert (k1 = c) as ->.
    { destruct (Hkeys k1 (or_intror (or_introl eq_refl))) as [->|Hge1].
      - specialize (Hall p (or_introl eq_refl)). lia.
      - destruct Hc as [Hc|Hc]; [exact Hc|]. specialize (Hall1 c Hc). lia. }
    exists l0, l1, t. split; [reflexivity|].
    intros Hin. specialize (Hall1 c Hin). lia.
  - left. assert (k0 = c) as ->.
    { destruct Hc as [Hc|Hc]; [exact Hc|]. specialize (Hall c Hc). lia. }
    exists l0, t. split; [reflexivity|]. split.
    + intros Hin. specialize (Hall c Hin). lia.
    + intros [Hp|Hp]; [simpl in Hp; lia|]. specialize (Hall p Hp). lia.
Qed.

Lemma avl_prev_first (t : list tree_node_list_t) (c : Z) :
  ~ In c (keys (tl t)) -> avl_prev t c = None.
Proof.
  induction t as [|[k0 l0] t IH]; [reflexivity|]. simpl. intros Hnot.
  destruct t as [|[k1 l1] t]; [reflexivity|].
  destruct (Z.eqb_spec k1 c) as [->|Hne]; [exfalso; apply Hnot; now left|].
  apply IH. simpl. intros Hin. apply Hnot. now right.
Qed.

Lemma expiring_app (a b : list coalescence_record_t) (k : Z) :
  expiring (a ++ b) k = expiring a k ++ expiring b k.
Proof. unfold expiring. now rewrite List.filter_app, List.map_app. Qed.

Lemma expiring_nonempty (alive : list coalescence_record_t) (k : Z) :
  expiring alive k <> [] <-> In k (map cr_right alive).
Proof.
  unfold expiring. rewrite List.in_map_iff. split.
  - intros H. destruct (List.filter _ alive) as [|r l] eqn:E; [contradiction|].
    assert (Hr : In r (List.filter (fun r => cr_right r =? k) alive))
      by (rewrite E; now left).
    apply List.filter_In in Hr as [Hr Hk]. apply Z.eqb_eq in Hk. eauto.
  - intros (r & Hk & Hr) H.
    assert (Hin : In r (List.filter (fun r => cr_right r =? k) alive)).
    { apply List.filter_In. split; [exact Hr|now apply Z.eqb_eq]. }
    destruct (List.filter _ alive); [contradiction|discriminate].
Qed.

Lemma represents_keys (t : list tree_node_list_t) (alive : list coalescence_record_t) :
  represents t alive -> forall k, In k (keys t) <-> In k (map cr_right alive).
Proof.
  intros [_ Hsearch] k. rewrite <- expiring_nonempty. specialize (Hsearch k). split.
  - intros Hin Hnil. rewrite Hnil in Hsearch.
    apply avl_search_none in Hsearch. contradiction.
  - intros Hne. destruct (expiring alive k) eqn:E; [contradiction|].
    destruct (avl_search_key _ _ _ Hsearch) as [_ Hin].
    apply (List.in_map fst) in Hin. exact Hin.
Qed.

Lemma represents_nil : represents [] [].
Proof. split; [constructor|reflexivity]. Qed.

Lemma represents_length (t : list tree_node_list_t) (alive : list coalescence_record_t) :
  represents t alive -> length t = distinct_rights alive.
Proof.
  intros Hrep. unfold distinct_rights.
  transitivity (length (keys t)); [unfold keys; now rewrite List.length_map|].
  apply Permutation_length.
  apply Permutation.NoDup_Permutation.
  - apply sorted_keys_NoDup, Hrep.
  - apply List.NoDup_nodup.
  - intros k. rewrite List.nodup_In. now apply represents_keys.
Qed.

Lemma distinct_rights_app_le (a b : list coalescence_record_t) :
  (distinct_rights a <= distinct_rights (a ++ b))%nat.
Proof.
  unfold distinct_rights. apply List.NoDup_incl_length; [apply List.NoDup_nodup|].
  intros k Hk. apply List.nodup_In. apply List.nodup_In in Hk.
  rewrite List.map_app. apply List.in_app_iff. now left.
Qed.

(** Adding a record to the map. *)
Lemma add_record_represents (t : list tree_node_list_t)
  (alive : list coalescence_record_t) (r : coalescence_record_t) :
  represents t alive ->
  represents (add_record t r) (alive ++ [r]) /\
  length (add_record t r)
  = (length t + match avl_search t (cr_right r) with Some _ => 0 | None => 1 end)%nat.
Proof.
  intros [Hs Hsearch]. unfold add_record.
  assert (Hexp : forall k, expiring (alive ++ [r]) k
                           = expiring alive k
                             ++ (if cr_right r =? k then [node_of r] else [])).
  { intros k. rewrite expiring_app. f_equal. unfold expiring. simpl.
    now destruct (cr_right r =? k). }
  destruct (avl_search t (cr_right r)) as [[k0 l0]|] eqn:E.
  - destruct (avl_search_key _ _ _ E) as [Hk _]. simpl in Hk. subst k0.
    destruct (avl_set_item_spec t (cr_right r) (l0 ++ [node_of r])) as (Hk & Hl & Hsr).
    split; [|lia]. split; [now rewrite Hk|].
    intros k. rewrite Hsr, Hexp, E.
    destruct (Z.eqb_spec (cr_right r) k) as [<-|Hne].
    + rewrite Hsearch in E. destruct (expiring alive (cr_right r)) eqn:E'; [discriminate|].
      inversion E; subst. reflexivity.
    + rewrite app_nil_r. apply Hsearch.
  - destruct (avl_insert_spec t (cr_right r) [] Hs E)
      as (t' & -> & Hs' & Hlen & Hin & Hsi).
    destruct (avl_set_item_spec t' (cr_right r) [node_of r]) as (Hk & Hl & Hsr).
    split; [|lia]. split; [now rewrite Hk|].
    intros k. rewrite Hsr, Hexp, !Hsi, Z.eqb_refl.
    destruct (Z.eqb_spec (cr_right r) k) as [<-|Hne].
    + rewrite Hsearch in E. destruct (expiring alive (cr_right r)) eqn:E'; [|discriminate].
      reflexivity.
    + rewrite app_nil_r. apply Hsearch.
Qed.

Lemma expiring_filter_ge (alive : list coalescence_record_t) (c k : Z) :
  expiring (List.filter (fun r => c <=? cr_right r) alive) k
  = if c <=? k then expiring alive k else [].
Proof.
  unfold expiring. induction alive as [|r alive IH]; simpl.
  - now destruct (c <=? k).
  - destruct (Z.leb_spec c (cr_right r)) as [H1|H1]; simpl;
      destruct (Z.eqb_spec (cr_right r) k) as [H2|H2]; simpl;
      destruct (Z.leb_spec c k) as [H3|H3]; simpl in *;
      try lia; try (rewrite IH; reflexivity); exact IH.
Qed.

(** Retiring the list before [c]: when every key is [p] or at least [c],
    [prev] of the node of [c] is the node of [p] if there is one, and
    unlinking it leaves the records that end at [c] or later. *)
Lemma retire_represents (t : list tree_node_list_t)
  (alive : list coalescence_record_t) (p c : Z) :
  represents t alive -> p < c ->
  (forall r, In r alive -> cr_right r = p \/ c <= cr_right r) ->
  In c (map cr_right alive) ->
  avl_search t c = Some (c, expiring alive c) /\
  expiring alive c <> [] /\
  match avl_prev t c with
  | None =>
      expiring alive p = [] /\
      represents t (List.filter (fun r => c <=? cr_right r) alive)
  | Some (pk, pl) =>
      pk = p /\ pl = expiring alive p /\ pl <> [] /\
      length t = S (length (avl_unlink_node t pk)) /\
      represents (avl_unlink_node t pk) (List.filter (fun r => c <=? cr_right r) alive)
  end.
Proof.
  intros Hrep Hpc Hrights Hc.
  pose proof (represents_keys t alive Hrep) as Hkeys.
  destruct Hrep as [Hs Hsearch].
  assert (Hne : expiring alive c <> []) by now apply expiring_nonempty.
  assert (Hfound : avl_search t c = Some (c, expiring alive c)).
  { rewrite Hsearch. now destruct (expiring alive c). }
  split; [exact Hfound|]. split; [exact Hne|].
  pose proof (expiring_filter_ge alive c) as Hfilter.
  assert (Hbelow : forall k, k < c -> k <> p -> expiring alive k = []).
  { intros k Hk Hkp. destruct (expiring alive k) eqn:E; [reflexivity|].
    assert (Hin : In k (map cr_right alive)) by (apply expiring_nonempty; congruence).
    apply List.in_map_iff in Hin as (r & Hr & Hin).
    destruct (Hrights r Hin); lia. }
  assert (Hshape := sorted_map_shape t p c Hs Hpc
                      (fun a Ha => match proj1 (List.in_map_iff _ _ _) (proj1 (Hkeys a) Ha) with
                                   | ex_intro _ r (conj Hr Hin) =>
                                       eq_ind _ (fun a => a = p \/ c <= a) (Hrights r Hin) _ Hr
                                   end)
                      (proj2 (Hkeys c) Hc)).
  destruct Hshape as [(lc & tl & -> & Hnc & Hnp)|(lp & lc & tl & -> & Hnc)].
  - rewrite avl_prev_first by exact Hnc.
    assert (Hp : expiring alive p = []).
    { destruct (expiring alive p) eqn:E; [reflexivity|]. exfalso. apply Hnp.
      apply Hkeys. apply expiring_nonempty. congruence. }
    split; [exact Hp|]. split; [exact Hs|].
    intros k. rewrite Hsearch, Hfilter.
    destruct (Z.leb_spec c k); [reflexivity|].
    destruct (Z.eq_dec k p) as [->|Hkp]; [now rewrite Hp|now rewrite Hbelow].
  - cbn [avl_prev]. rewrite Z.eqb_refl.
    assert (Hp : avl_search ((p, lp) :: (c, lc) :: tl) p = Some (p, lp))
      by (simpl; now rewrite Z.eqb_refl).
    rewrite Hsearch in Hp.
    destruct (expiring alive p) as [|x xs] eqn:Ep; [discriminate|].
    inversion Hp; subst lp. split; [reflexivity|]. split; [reflexivity|].
    split; [discriminate|].
    destruct (avl_unlink_spec ((p, x :: xs) :: (c, lc) :: tl) p Hs)
      as (Hs' & _ & Hlen & Hsu).
    split; [apply Hlen; now left|]. split; [exact Hs'|].
    intros k. rewrite Hsu, Hfilter, Hsearch.
    destruct (Z.eqb_spec p k) as [<-|Hne'].
    + destruct (Z.leb_spec c p); [lia|reflexivity].
    + destruct (Z.leb_spec c k); [reflexivity|]. now rewrite Hbelow by congruence.
Qed.

(** ** The memory of the iterator *)

Lemma same_frame_refl (st : tree_diff_iterator_t) : same_frame st st.
Proof. repeat split. Qed.

Lemma same_frame_trans (a b c : tree_diff_iterator_t) :
  same_frame a b -> same_frame b c -> same_frame a c.
Proof.
  unfold same_frame. intros (?&?&?&?&?&?&?&?) (?&?&?&?&?&?&?&?).
  repeat split; congruence.
Qed.

Lemma heap_after_zero (h : object_heap_t) : heap_after h 0 0 = h.
Proof. destruct h. unfold heap_after. simpl. f_equal; lia. Qed.

Lemma heap_after_after (h : object_heap_t) (a f a' f' : Z) :
  heap_after (heap_after h a f) a' f' = heap_after h (a + a') (f + f').
Proof. unfold heap_after. simpl. f_equal; lia. Qed.

Lemma set_memory_id (st : tree_diff_iterator_t) :
  set_memory st (tree_node_heap st) (tree_node_list_heap st) (avl_node_heap st)
    (active_nodes st) (nodes_in st) = st.
Proof. now destruct st. Qed.

Lemma free_tree_nodes_eq (l : list tree_node_t) :
  forall st,
    free_tree_nodes st l
    = set_memory st (heap_after (tree_node_heap st) 0 (Z.of_nat (length l)))
        (tree_node_list_heap st) (avl_node_heap st) (active_nodes st) (nodes_in st).
Proof.
  induction l as [|x l IH]; intros st.
  - cbn [free_tree_nodes length Z.of_nat]. now rewrite heap_after_zero, set_memory_id.
  - cbn [free_tree_nodes]. rewrite IH.
    unfold tree_diff_iterator_free_tree_node, set_memory, object_heap_free_object,
      heap_after. cbn. do 2 f_equal. lia.
Qed.

Lemma alloc_tree_node_ok (st : tree_diff_iterator_t) (r : coalescence_record_t) (live : Z) :
  heap_ok (tree_node_heap st) live ->
  live < heap_capacity (tree_node_heap st) ->
  tree_diff_iterator_alloc_tree_node st r
  = (Some (node_of r),
     set_memory st (heap_after (tree_node_heap st) 1 0) (tree_node_list_heap st)
       (avl_node_heap st) (active_nodes st) (nodes_in st)).
Proof.
  intros [Hf Ha] Hroom.
  unfold tree_diff_iterator_alloc_tree_node, object_heap_alloc_object,
    object_heap_empty, heap_live.
  destruct (Z.leb_spec (heap_capacity (tree_node_heap st))
              (heap_allocs (tree_node_heap st) - heap_frees (tree_node_heap st))); [lia|].
  unfold heap_after, node_of. do 3 f_equal. lia.
Qed.

Lemma alloc_avl_node_ok (st : tree_diff_iterator_t) (key : Z) (live : Z) :
  heap_ok (tree_node_list_heap st) live ->
  heap_ok (avl_node_heap st) live ->
  live < heap_capacity (tree_node_list_heap st) ->
  live < heap_capacity (avl_node_heap st) ->
  tree_diff_iterator_alloc_avl_node st key
  = Done (Some (key, []),
          set_memory st (tree_node_heap st)
            (heap_after (tree_node_list_heap st) 1 0)
            (heap_after (avl_node_heap st) 1 0)
            (active_nodes st) (nodes_in st)).
Proof.
  intros [Hf1 Ha1] [Hf2 Ha2] Hroom1 Hroom2.
  unfold tree_diff_iterator_alloc_avl_node, object_heap_alloc_object,
    object_heap_empty, heap_live.
  destruct (Z.leb_spec (heap_capacity (avl_node_heap st))
              (heap_allocs (avl_node_heap st) - heap_frees (avl_node_heap st))); [lia|].
  destruct (Z.leb_spec (heap_capacity (tree_node_list_heap st))
              (heap_allocs (tree_node_list_heap st)
               - heap_frees (tree_node_list_heap st))); [lia|].
  unfold heap_after. do 3 f_equal; f_equal; lia.
Qed.

Lemma heap_ok_after (h : object_heap_t) (live a f : Z) :
  heap_ok h live -> 0 <= f -> heap_ok (heap_after h a f) (live + a - f).
Proof. unfold heap_ok, heap_after. simpl. lia. Qed.

(** One record goes into [nodes_in] and into the map. *)
Lemma process_record_ok (st : tree_diff_iterator_t)
  (alive : list coalescence_record_t) (nin : list tree_node_t)
  (r : coalescence_record_t) :
  memory_holds st alive nin ->
  Z.of_nat (length nin) + Z.of_nat (length alive) + 2
  <= heap_capacity (tree_node_heap st) ->
  Z.of_nat (distinct_rights (alive ++ [r])) <= heap_capacity (tree_node_list_heap st) ->
  heap_capacity (avl_node_heap st) = heap_capacity (tree_node_list_heap st) ->
  exists st',
    tree_diff_iterator_process_record st r = Done (0, st') /\
    memory_holds st' (alive ++ [r]) (nin ++ [node_of r]) /\
    same_frame st st' /\
    current_left st' = current_left st /\
    next_record_index st' = next_record_index st.
Proof.
  intros (Hrep & Hnin & Htree & Hlist & Havl) Hroom Hkeys Hcap.
  destruct (add_record_represents _ _ r Hrep) as [Hrep' Hlen'].
  pose proof (represents_length _ _ Hrep') as Hdist.
  unfold tree_diff_iterator_process_record.
  rewrite (alloc_tree_node_ok st r _ Htree) by lia.
  cbn [tree_node_heap tree_node_list_heap avl_node_heap active_nodes nodes_in set_memory].
  unfold add_record in *.
  destruct (avl_search (active_nodes st) (cr_right r)) as [[k l]|] eqn:Esearch.
  - cbn [bind].
    erewrite alloc_tree_node_ok;
      [ | cbn [tree_node_heap set_memory]; apply heap_ok_after; [exact Htree|lia]
        | cbn [tree_node_heap set_memory heap_after heap_capacity]; lia ].
    cbn [tree_node_heap tree_node_list_heap avl_node_heap active_nodes nodes_in
         set_memory].
    eexists. split; [reflexivity|].
    split; [|split; [repeat split|split; reflexivity]].
    unfold memory_holds.
    cbn [tree_node_heap tree_node_list_heap avl_node_heap active_nodes nodes_in
         set_memory].
    split; [exact Hrep'|]. split; [now rewrite Hnin|].
    rewrite heap_after_after, !List.length_app. cbn [length].
    split; [|split].
    + destruct Htree as [Hf Ha]. unfold heap_ok, heap_after. simpl. lia.
    + rewrite Hlen'. replace (length (active_nodes st) + 0)%nat
        with (length (active_nodes st)) by lia. exact Hlist.
    + rewrite Hlen'. replace (length (active_nodes st) + 0)%nat
        with (length (active_nodes st)) by lia. exact Havl.
  - destruct (avl_insert_spec (active_nodes st) (cr_right r) [] (proj1 Hrep) Esearch)
      as (t' & Hins & Hs' & Hlen & Hin & Hsi).
    rewrite Hins in *.
    assert (Hlive : Z.of_nat (length (active_nodes st))
                    < heap_capacity (tree_node_list_heap st)) by lia.
    erewrite alloc_avl_node_ok;
      [ | cbn [tree_node_list_heap set_memory]; exact Hlist
        | cbn [avl_node_heap set_memory]; exact Havl
        | cbn [tree_node_list_heap set_memory]; exact Hlive
        | cbn [avl_node_heap set_memory]; lia ].
    cbn [bind tree_node_heap tree_node_list_heap avl_node_heap active_nodes nodes_in
         set_memory].
    rewrite Hins.
    cbn [bind tree_node_heap tree_node_list_heap avl_node_heap active_nodes nodes_in
         set_memory].
    erewrite alloc_tree_node_ok;
      [ | cbn [tree_node_heap set_memory]; apply heap_ok_after; [exact Htree|lia]
        | cbn [tree_node_heap set_memory heap_after heap_capacity]; lia ].
    cbn [tree_node_heap tree_node_list_heap avl_node_heap active_nodes nodes_in
         set_memory app].
    eexists. split; [reflexivity|].
    split; [|split; [repeat split|split; reflexivity]].
    unfold memory_holds.
    cbn [tree_node_heap tree_node_list_heap avl_node_heap active_nodes nodes_in
         set_memory].
    split; [exact Hrep'|]. split; [now rewrite Hnin|].
    rewrite heap_after_after, !List.length_app. cbn [length].
    split; [|split].
    + destruct Htree as [Hf Ha]. unfold heap_ok, heap_after. simpl. lia.
    + rewrite Hlen'. destruct Hlist as [Hf Ha]. unfold heap_ok, heap_after. simpl. lia.
    + rewrite Hlen'. destruct Havl as [Hf Ha]. unfold heap_ok, heap_after. simpl. lia.
Qed.

Lemma memory_holds_set_cursor (st : tree_diff_iterator_t)
  (alive : list coalescence_record_t) (nin : list tree_node_t) (cl idx : Z) :
  memory_holds st alive nin -> memory_holds (set_cursor st cl idx) alive nin.
Proof. intros H. exact H. Qed.

Lemma last_cons_default {A : Type} (g : A) (l : list A) (d : A) :
  List.last (g :: l) d = List.last l g.
Proof.
  revert g d. induction l as [|x l IH]; intros g d; [reflexivity|].
  change (List.last (g :: x :: l) d) with (List.last (x :: l) d).
  now rewrite !IH.
Qed.

Section Loop.

Variables (s : tree_sequence_t) (bps : list Z) (rs : list coalescence_record_t).
Hypothesis Hholds : store_holds s bps rs.
Hypothesis Hfits : Z.of_nat (length rs) < 2 ^ 64.

Variables (c : Z) (rest : list coalescence_record_t).
Hypothesis Hrest : match rest with r :: _ => cr_left r <> c | [] => True end.

(** The loop absorbs the records [grp] that start at [current_left] and
    stops at the first record of [rest], or at the end of the table. *)
Lemma next_tree_loop_ok :
  forall (grp done : list coalescence_record_t) (st : tree_diff_iterator_t)
         (alive : list coalescence_record_t) (nin : list tree_node_t)
         (cr0 : coalescence_record_t) (fuel : nat),
    rs = done ++ grp ++ rest ->
    grp <> [] \/ rest <> [] ->
    Forall (fun r => cr_left r = c) grp ->
    tree_sequence st = s ->
    it_num_records st = Z.of_nat (length rs) ->
    next_record_index st = Z.of_nat (length done) ->
    current_left st = c ->
    memory_holds st alive nin ->
    Z.of_nat (length nin) + Z.of_nat (length alive) + 2 * Z.of_nat (length grp)
    <= heap_capacity (tree_node_heap st) ->
    Z.of_nat (distinct_rights (alive ++ grp)) <= heap_capacity (tree_node_list_heap st) ->
    heap_capacity (avl_node_heap st) = heap_capacity (tree_node_list_heap st) ->
    (length grp + match rest with [] => 0 | _ => 1 end <= fuel)%nat ->
    exists st',
      next_tree_loop fuel st cr0
      = Done (None, st', match rest with r :: _ => r | [] => List.last grp cr0 end) /\
      memory_holds st' (alive ++ grp) (nin ++ map node_of grp) /\
      same_frame st st' /\
      current_left st' = c /\
      next_record_index st' = Z.of_nat (length done + length grp).
Proof using Hholds Hfits Hrest.
  induction grp as [|g grp IH];
    intros done st alive nin cr0 fuel Hrs Hne Hall Hts Hnum Hidx Hcl Hmem Hroom Hkeys Hcap Hfuel.
  - destruct Hne as [Hne|Hne]; [contradiction|].
    destruct rest as [|r rest0]; [contradiction|].
    destruct fuel as [|fuel]; [simpl in Hfuel; lia|].
    cbn [next_tree_loop]. rewrite Hts, Hidx.
    rewrite (get_record_in_range s bps rs Hholds (length done) r cr0)
      by (rewrite Hrs; cbn [app]; now rewrite list_lookup_middle).
    cbn [bind Z.eqb negb]. rewrite Hcl.
    destruct (Z.eqb_spec (cr_left r) c) as [Heq|_]; [contradiction|].
    exists st. split; [reflexivity|]. cbn [map length].
    rewrite !app_nil_r, Nat.add_0_r.
    split; [exact Hmem|]. split; [apply same_frame_refl|]. now split.
  - destruct fuel as [|fuel]; [simpl in Hfuel; lia|].
    cbn [next_tree_loop]. rewrite Hts, Hidx.
    rewrite (get_record_in_range s bps rs Hholds (length done) g cr0)
      by (rewrite Hrs; cbn [app]; now rewrite list_lookup_middle).
    cbn [bind Z.eqb negb]. rewrite Hcl.
    assert (Hg : cr_left g = c) by now inversion Hall.
    assert (Hall' : Forall (fun r => cr_left r = c) grp) by now inversion Hall.
    rewrite Hg, Z.eqb_refl.
    destruct (process_record_ok st alive nin g Hmem) as (st1 & Hproc & Hmem1 & Hfr1 & Hcl1 & Hidx1).
    { cbn [length] in Hroom. lia. }
    { etransitivity; [|exact Hkeys].
      apply inj_le. change (g :: grp) with ([g] ++ grp). rewrite app_assoc.
      apply distinct_rights_app_le. }
    { exact Hcap. }
    rewrite Hproc. cbn [bind Z.eqb negb].
    cbn [next_record_index it_num_records set_cursor].
    rewrite Hidx1, Hidx.
    assert (Hlen : length rs = (length done + S (length grp + length rest))%nat).
    { rewrite Hrs at 1. rewrite !List.length_app. cbn [length].
      rewrite ?List.length_app. lia. }
    rewrite size_t_small by lia.
    destruct Hfr1 as (Hts1 & Hfl1 & Hnum1 & Hcbi1 & Hnb1 & Hc1 & Hc2 & Hc3).
    rewrite Hnum1, Hnum.
    destruct (Z.ltb_spec (Z.of_nat (length done) + 1) (Z.of_nat (length rs))) as [Hlt|Hge].
    + edestruct (IH (done ++ [g]) (set_cursor st1 c (Z.of_nat (length done) + 1))
                    (alive ++ [g]) (nin ++ [node_of g]) g fuel)
        as (st' & Hloop & Hmem' & Hfr' & Hcl' & Hidx').
      * rewrite <- app_assoc. exact Hrs.
      * destruct grp as [|g' grp']; [right|left; discriminate].
        destruct rest; [|discriminate]. cbn [length] in Hlen. lia.
      * exact Hall'.
      * cbn [tree_sequence set_cursor]. congruence.
      * cbn [it_num_records set_cursor]. congruence.
      * cbn [next_record_index set_cursor]. rewrite List.length_app. cbn [length]. lia.
      * reflexivity.
      * apply memory_holds_set_cursor. exact Hmem1.
      * cbn [tree_node_heap set_cursor]. rewrite Hc1, !List.length_app.
        cbn [length] in *. lia.
      * cbn [tree_node_list_heap set_cursor]. rewrite Hc2, <- app_assoc. exact Hkeys.
      * cbn [tree_node_list_heap avl_node_heap set_cursor]. congruence.
      * cbn [length] in Hfuel. lia.
      * rewrite Hcl1, Hcl. rewrite Hloop. exists st'.
        split; [|split; [|split; [|split]]].
        -- f_equal. f_equal. destruct rest; [|reflexivity].
           symmetry. apply last_cons_default.
        -- rewrite <- !app_assoc in Hmem'. exact Hmem'.
        -- eapply same_frame_trans; [|exact Hfr'].
           repeat split; cbn [set_cursor tree_sequence flags it_num_records
             current_breakpoint_index next_breakpoint tree_node_heap
             tree_node_list_heap avl_node_heap]; congruence.
        -- exact Hcl'.
        -- rewrite Hidx'. rewrite List.length_app. cbn [length]. f_equal. lia.
    + assert (grp = [] /\ rest = []) as [-> ->].
      { destruct grp; [|cbn [length] in Hlen; lia].
        destruct rest; [|cbn [length] in Hlen; lia]. now split. }
      eexists. split; [reflexivity|].
      split; [|split; [|split]].
      * apply memory_holds_set_cursor. exact Hmem1.
      * repeat split; cbn [set_cursor tree_sequence flags it_num_records
          current_breakpoint_index next_breakpoint tree_node_heap
          tree_node_list_heap avl_node_heap]; congruence.
      * cbn [current_left set_cursor]. congruence.
      * cbn [next_record_index set_cursor length]. lia.
Qed.

End Loop.

Lemma filter_split_length (alive : list coalescence_record_t) (p c : Z) :
  p < c ->
  (forall r, In r alive -> cr_right r = p \/ c <= cr_right r) ->
  length alive
  = (length (List.filter (fun r => (c <=? cr_right r)%Z) alive)
     + length (expiring alive p))%nat.
Proof.
  intros Hpc. unfold expiring. rewrite List.length_map.
  induction alive as [|r alive IH]; intros Hr; [reflexivity|]. simpl.
  assert (IH' := IH (fun x Hx => Hr x (or_intror Hx))).
  destruct (Hr r (or_introl eq_refl)) as [Hp|Hc].
  - destruct (Z.leb_spec c (cr_right r)); [lia|].
    destruct (Z.eqb_spec (cr_right r) p); [|lia]. simpl. lia.
  - destruct (Z.leb_spec c (cr_right r)); [|lia].
    destruct (Z.eqb_spec (cr_right r) p); [lia|]. simpl. lia.
Qed.

(** The first half of a step: [nodes_in] is freed, the list that ends at the
    new left edge is found, and the list before it is freed and unlinked. *)
Lemma next_tree_retire_ok (st : tree_diff_iterator_t)
  (alive : list coalescence_record_t) (nin : list tree_node_t) (p c : Z) :
  memory_holds st alive nin ->
  current_left st = c -> c <> 0 -> p < c ->
  (forall r, In r alive -> cr_right r = p \/ c <= cr_right r) ->
  In c (map cr_right alive) ->
  exists st1,
    next_tree_retire st = Done (st1, Some c) /\
    memory_holds st1 (List.filter (fun r => c <=? cr_right r) alive) [] /\
    same_frame st st1 /\
    current_left st1 = c /\
    next_record_index st1 = next_record_index st.
Proof.
  intros (Hrep & Hnin & Htree & Hlist & Havl) Hcl Hc0 Hpc Hrights Hin.
  unfold next_tree_retire. rewrite Hcl.
  destruct (Z.eqb_spec c 0) as [|_]; [contradiction|]. cbn [negb].
  rewrite free_tree_nodes_eq.
  cbn [tree_node_heap tree_node_list_heap avl_node_heap active_nodes nodes_in
       set_memory current_left].
  rewrite Hcl.
  destruct (retire_represents _ _ p c Hrep Hpc Hrights Hin) as (Hfound & Hne & Hprev).
  rewrite Hfound.
  pose proof (filter_split_length alive p c Hpc Hrights) as Hsplit.
  destruct (expiring alive c) as [|x xs] eqn:Ec; [contradiction|].
  destruct (avl_prev (active_nodes st) c) as [[pk pl]|].
  - destruct Hprev as (-> & -> & Hpl & Hlen & Hrep').
    rewrite free_tree_nodes_eq.
    cbn [tree_node_heap tree_node_list_heap avl_node_heap active_nodes nodes_in
         set_memory].
    eexists. split; [reflexivity|].
    unfold tree_diff_iterator_free_avl_node, memory_holds, same_frame.
    cbn [tree_node_heap tree_node_list_heap avl_node_heap active_nodes nodes_in
         set_memory tree_sequence flags it_num_records current_breakpoint_index
         next_breakpoint current_left next_record_index heap_after
         object_heap_free_object heap_capacity].
    split; [|split; [repeat split|split; [exact Hcl|reflexivity]]].
    split; [exact Hrep'|]. split; [reflexivity|].
    rewrite Hnin. unfold heap_ok, heap_after, object_heap_free_object in *.
    cbn [heap_frees heap_allocs heap_capacity length].
    repeat split; lia.
  - destruct Hprev as (Hp & Hrep').
    eexists. split; [reflexivity|].
    unfold memory_holds, same_frame.
    cbn [tree_node_heap tree_node_list_heap avl_node_heap active_nodes nodes_in
         set_memory tree_sequence flags it_num_records current_breakpoint_index
         next_breakpoint current_left next_record_index heap_after heap_capacity].
    split; [|split; [repeat split|split; [exact Hcl|reflexivity]]].
    split; [exact Hrep'|]. split; [reflexivity|].
    rewrite Hnin, Hp in *. unfold heap_ok, heap_after in *.
    cbn [heap_frees heap_allocs heap_capacity length] in *.
    repeat split; lia.
Qed.

Lemma expiring_filter_ne (alive : list coalescence_record_t) (k k' : Z) :
  expiring (List.filter (fun r => negb (cr_right r =? k)) alive) k'
  = if k =? k' then [] else expiring alive k'.
Proof.
  unfold expiring. induction alive as [|r alive IH]; simpl.
  - now destruct (k =? k').
  - destruct (Z.eqb_spec (cr_right r) k) as [H1|H1]; simpl;
      destruct (Z.eqb_spec (cr_right r) k') as [H2|H2]; simpl;
      destruct (Z.eqb_spec k k') as [H3|H3]; simpl in *;
      try lia; try congruence; try (rewrite IH; reflexivity); exact IH.
Qed.

(** The lists of the map hold one node per record. *)
Lemma represents_total :
  forall (t : list tree_node_list_t) (alive : list coalescence_record_t),
    represents t alive -> length (flat_map snd t) = length alive.
Proof.
  induction t as [|[k l] t IH]; intros alive [Hs Hsearch].
  - destruct alive as [|r alive]; [reflexivity|]. exfalso.
    specialize (Hsearch (cr_right r)). unfold expiring in Hsearch. simpl in Hsearch.
    rewrite Z.eqb_refl in Hsearch. discriminate.
  - simpl in Hs. apply StronglySorted_inv in Hs as [Hs Hall].
    rewrite List.Forall_forall in Hall.
    assert (Hl : l = expiring alive k).
    { specialize (Hsearch k). simpl in Hsearch. rewrite Z.eqb_refl in Hsearch.
      destruct (expiring alive k); [discriminate|]. now inversion Hsearch. }
    assert (Hrest : represents t (List.filter (fun r => negb (cr_right r =? k)) alive)).
    { split; [exact Hs|]. intros k'.
      pose proof (expiring_filter_ne alive k k') as Hexp.
      rewrite Hexp. specialize (Hsearch k'). simpl in Hsearch.
      destruct (Z.eqb_spec k k') as [Heq|Hne]; [|exact Hsearch].
      apply avl_search_none. intros Hin. rewrite <- Heq in Hin.
      specialize (Hall k Hin). lia. }
    cbn [flat_map snd]. rewrite List.length_app, (IH _ Hrest), Hl.
    unfold expiring. rewrite List.length_map.
    rewrite <- (List.filter_length (fun r => cr_right r =? k) alive). lia.
Qed.

(** ** Where the iterator stands in the record table *)

Lemma leading_trailing (c : Z) (l : list coalescence_record_t) :
  l = leading c l ++ trailing c l.
Proof.
  induction l as [|r l IH]; [reflexivity|]. simpl.
  destruct (cr_left r =? c); [simpl; now f_equal|reflexivity].
Qed.

Lemma leading_all (c : Z) (l : list coalescence_record_t) :
  Forall (fun r => cr_left r = c) (leading c l).
Proof.
  induction l as [|r l IH]; simpl; [constructor|].
  destruct (Z.eqb_spec (cr_left r) c); [now constructor|constructor].
Qed.

Lemma trailing_head (c : Z) (l : list coalescence_record_t) :
  match trailing c l with r :: _ => cr_left r <> c | [] => True end.
Proof.
  induction l as [|r l IH]; simpl; [exact I|].
  destruct (Z.eqb_spec (cr_left r) c); [exact IH|exact n].
Qed.

Lemma trailing_In (c : Z) (l : list coalescence_record_t) (r : coalescence_record_t) :
  In r (trailing c l) -> In r l.
Proof.
  intros H. rewrite (leading_trailing c l). apply List.in_app_iff. now right.
Qed.

Lemma plast_app (done grp : list coalescence_record_t) (c : Z) :
  grp <> [] -> Forall (fun r => cr_left r = c) grp -> plast (done ++ grp) = c.
Proof.
  intros Hne Hall. unfold plast.
  destruct (List.exists_last Hne) as (grp' & g & ->).
  rewrite app_assoc, List.map_app. cbn [map]. rewrite List.last_last.
  rewrite List.Forall_forall in Hall. apply Hall.
  apply List.in_app_iff. right. now left.
Qed.

Lemma plast_In (done : list coalescence_record_t) :
  done <> [] -> exists r, In r done /\ cr_left r = plast done.
Proof.
  intros Hne. destruct (List.exists_last Hne) as (d & g & ->).
  exists g. split; [apply List.in_app_iff; right; now left|].
  unfold plast. rewrite List.map_app. cbn [map]. now rewrite List.last_last.
Qed.

Lemma filter_length_le_impl {A : Type} (f g : A -> bool) (l : list A) :
  (forall x, In x l -> f x = true -> g x = true) ->
  (length (List.filter f l) <= length (List.filter g l))%nat.
Proof.
  induction l as [|x l IH]; intros H; simpl; [lia|].
  assert (IH' := IH (fun y Hy => H y (or_intror Hy))).
  assert (Hx := H x (or_introl eq_refl)).
  destruct (f x); [rewrite Hx by reflexivity; simpl; lia|].
  destruct (g x); simpl; lia.
Qed.

Lemma filter_all {A : Type} (f : A -> bool) (l : list A) :
  (forall x, In x l -> f x = true) -> List.filter f l = l.
Proof.
  induction l as [|x l IH]; intros H; simpl; [reflexivity|].
  rewrite (H x (or_introl eq_refl)). f_equal. apply IH. intros y Hy. apply H. now right.
Qed.

Lemma filter_none {A : Type} (f : A -> bool) (l : list A) :
  (forall x, In x l -> f x = false) -> List.filter f l = [].
Proof.
  induction l as [|x l IH]; intros H; simpl; [reflexivity|].
  rewrite (H x (or_introl eq_refl)). apply IH. intros y Hy. apply H. now right.
Qed.

Lemma filter_filter_ge (l : list coalescence_record_t) (p c : Z) :
  p <= c ->
  List.filter (fun r => c <=? cr_right r) (List.filter (fun r => p <=? cr_right r) l)
  = List.filter (fun r => c <=? cr_right r) l.
Proof.
  intros Hpc. induction l as [|r l IH]; simpl; [reflexivity|].
  destruct (Z.leb_spec p (cr_right r)); simpl;
    destruct (Z.leb_spec c (cr_right r)); try lia; now rewrite IH.
Qed.

Lemma filter_ge_split (l : list coalescence_record_t) (c : Z) :
  length (List.filter (fun r => c <=? cr_right r) l)
  = (length (List.filter (fun r => (cr_right r =? c)%Z) l)
     + length (List.filter (fun r => (c <? cr_right r)%Z) l))%nat.
Proof.
  induction l as [|r l IH]; simpl; [reflexivity|].
  destruct (Z.leb_spec c (cr_right r)), (Z.eqb_spec (cr_right r) c),
    (Z.ltb_spec c (cr_right r)); simpl; lia.
Qed.

Lemma filter_ne_ge (l : list coalescence_record_t) (c : Z) :
  length (List.filter (fun r => negb (cr_right r =? c))
            (List.filter (fun r => c <=? cr_right r) l))
  = length (List.filter (fun r => c <? cr_right r) l).
Proof.
  induction l as [|r l IH]; simpl; [reflexivity|].
  destruct (Z.leb_spec c (cr_right r)); simpl;
    destruct (Z.eqb_spec (cr_right r) c), (Z.ltb_spec c (cr_right r));
    simpl; lia.
Qed.

Lemma NoDup_one_value (l : list Z) (c : Z) :
  List.NoDup l ->
  (length l <= S (length (List.filter (fun x => negb (x =? c)%Z) l)))%nat.
Proof.
  induction 1 as [|x l Hx Hnd IH]; simpl; [lia|].
  destruct (Z.eqb_spec x c) as [->|Hne]; simpl; [|lia].
  rewrite filter_all; [lia|].
  intros y Hy. apply negb_true_iff. apply Z.eqb_neq. intros ->. contradiction.
Qed.

(** A map holds at most one list more than there are records that end past
    [c]. *)
Lemma distinct_rights_bound (alive : list coalescence_record_t) (c : Z) :
  (distinct_rights alive
   <= S (length (List.filter (fun r => negb (cr_right r =? c)%Z) alive)))%nat.
Proof.
  unfold distinct_rights.
  etransitivity; [apply (NoDup_one_value _ c), List.NoDup_nodup|].
  apply le_n_S.
  etransitivity;
    [apply (List.NoDup_incl_length
              (l' := map cr_right (List.filter (fun r => negb (cr_right r =? c)) alive)))|].
  - apply List.NoDup_filter, List.NoDup_nodup.
  - intros k Hk. apply List.filter_In in Hk as [Hk Hne].
    apply List.nodup_In in Hk. apply List.in_map_iff in Hk as (r & <- & Hr).
    apply List.in_map. apply List.filter_In. now split.
  - now rewrite List.length_map.
Qed.

Lemma last_in {A : Type} (l : list A) (d : A) : l <> [] -> In (List.last l d) l.
Proof.
  induction l as [|a l IH]; [contradiction|]. intros _.
  destruct l as [|b l]; [now left|]. right.
  change (List.last (a :: b :: l) d) with (List.last (b :: l) d).
  apply IH. discriminate.
Qed.

Lemma sorted_app_le (l1 l2 : list Z) :
  StronglySorted Z.le (l1 ++ l2) ->
  forall a b, In a l1 -> In b l2 -> a <= b.
Proof.
  induction l1 as [|x l1 IH]; intros Hs a b Ha Hb; [contradiction|].
  simpl in Hs. apply StronglySorted_inv in Hs as [Hs Hall].
  destruct Ha as [->|Ha]; [|now apply IH].
  rewrite List.Forall_forall in Hall. apply Hall. apply List.in_app_iff. now right.
Qed.

Lemma sorted_app_r (l1 l2 : list Z) :
  StronglySorted Z.le (l1 ++ l2) -> StronglySorted Z.le l2.
Proof.
  induction l1 as [|x l1 IH]; intros Hs; [exact Hs|].
  simpl in Hs. apply StronglySorted_inv in Hs as [Hs _]. now apply IH.
Qed.

Lemma sorted_app_l (l1 l2 : list Z) :
  StronglySorted Z.le (l1 ++ l2) -> StronglySorted Z.le l1.
Proof.
  induction l1 as [|x l1 IH]; intros Hs; [constructor|].
  simpl in Hs. apply StronglySorted_inv in Hs as [Hs Hall]. constructor; [now apply IH|].
  rewrite List.Forall_forall in *. intros y Hy. apply Hall. apply List.in_app_iff. now left.
Qed.

Lemma sorted_last_max (l : list Z) :
  StronglySorted Z.le l -> forall a, In a l -> a <= List.last l 0.
Proof.
  intros Hs a Ha. destruct l as [|x l]; [contradiction|].
  destruct (@List.exists_last _ (x :: l) ltac:(discriminate)) as (l' & g & E).
  rewrite E in *. rewrite List.last_last.
  apply List.in_app_iff in Ha as [Ha|[->|[]]]; [|lia].
  eapply sorted_app_le; eauto. now left.
Qed.

Lemma trailing_gt (c : Z) (l : list coalescence_record_t) :
  StronglySorted Z.le (map cr_left l) ->
  (forall b, In b l -> c <= cr_left b) ->
  forall b, In b (trailing c l) -> c < cr_left b.
Proof.
  induction l as [|x l IH]; intros Hs Hge b Hb; [contradiction|].
  simpl in Hs. apply StronglySorted_inv in Hs as [Hs Hall]. simpl in Hb.
  destruct (Z.eqb_spec (cr_left x) c) as [Heq|Hne].
  - apply IH; auto. intros y Hy. apply Hge. now right.
  - assert (c < cr_left x) by (specialize (Hge x (or_introl eq_refl)); lia).
    destruct Hb as [->|Hb]; [assumption|].
    rewrite List.Forall_forall in Hall.
    specialize (Hall (cr_left b) (List.in_map cr_left _ _ Hb)). lia.
Qed.

Section Run.

Variables (s : tree_sequence_t) (bps : list Z) (rs : list coalescence_record_t).
Hypothesis Hholds : store_holds s bps rs.
Hypothesis Hinv : tree_invariants (sample_size s) (num_loci s) rs = true.
Hypothesis Hrange : store_in_range s.

Lemma rs_fits : Z.of_nat (length rs) < 2 ^ 64.
Proof using Hholds Hrange.
  destruct Hholds as (Hn & _). destruct Hrange as (H & _). lia.
Qed.

Lemma sorted_across (done rest : list coalescence_record_t) :
  rs = done ++ rest ->
  forall a b, In a done -> In b rest -> cr_left a <= cr_left b.
Proof using Hinv.
  intros Hrs a b Ha Hb. pose proof (inv_sorted _ _ _ Hinv) as Hs.
  rewrite Hrs, List.map_app in Hs.
  eapply sorted_app_le; eauto using List.in_map.
Qed.

Lemma plast_max (done rest : list coalescence_record_t) :
  rs = done ++ rest -> forall a, In a done -> cr_left a <= plast done.
Proof using Hinv.
  intros Hrs a Ha. pose proof (inv_sorted _ _ _ Hinv) as Hs.
  rewrite Hrs, List.map_app in Hs. apply sorted_app_l in Hs.
  unfold plast. apply sorted_last_max; [exact Hs|]. now apply List.in_map.
Qed.

Lemma plast_nonneg (done rest : list coalescence_record_t) :
  rs = done ++ rest -> 0 <= plast done.
Proof using Hinv.
  intros Hrs. destruct done as [|d done]; [unfold plast; simpl; lia|].
  destruct (@plast_In (d :: done) ltac:(discriminate)) as (g & Hg & <-).
  apply (inv_record _ _ _ Hinv). rewrite Hrs. apply List.in_app_iff. now left.
Qed.

Lemma first_left_zero (r : coalescence_record_t) (rest0 : list coalescence_record_t) :
  rs = r :: rest0 -> cr_left r = 0.
Proof using Hinv.
  intros Hrs.
  assert (Hr : In r rs) by (rewrite Hrs; now left).
  destruct (inv_record _ _ _ Hinv r Hr) as (Hl & _).
  destruct (Z.eq_dec (cr_left r) 0) as [|Hne]; [assumption|exfalso].
  destruct (inv_left_is_right _ _ _ Hinv r Hr ltac:(lia)) as (x & Hx & Hxr).
  destruct (inv_record _ _ _ Hinv x Hx) as (Hxl & _).
  rewrite Hrs in Hx. destruct Hx as [->|Hx]; [lia|].
  pose proof (sorted_across [r] rest0 Hrs r x (or_introl eq_refl) Hx). lia.
Qed.

(** The records that start last end at [L]. *)
Lemma last_group_right (g : coalescence_record_t) :
  In g rs -> (forall x, In x rs -> cr_left x <= cr_left g) -> cr_right g = num_loci s.
Proof using Hinv.
  intros Hg Hmax.
  destruct (inv_right_is_left _ _ _ Hinv g Hg) as [|(x & Hx & Hxl)]; [assumption|].
  specialize (Hmax x Hx). destruct (inv_record _ _ _ Hinv g Hg). lia.
Qed.

(** Between two consecutive left values no record ends. *)
Lemma no_right_between (done rest : list coalescence_record_t) (c : Z) :
  rs = done ++ rest ->
  (forall b, In b rest -> c <= cr_left b) ->
  c <= num_loci s ->
  forall x, In x done -> plast done <= cr_right x ->
            cr_right x = plast done \/ c <= cr_right x.
Proof using Hinv.
  intros Hrs Hrest HcL x Hx Hp.
  destruct (Z.eq_dec (cr_right x) (plast done)) as [|Hne]; [now left|right].
  destruct (Z.le_gt_cases c (cr_right x)) as [|Hlt]; [assumption|exfalso].
  assert (Hxr : In x rs) by (rewrite Hrs; apply List.in_app_iff; now left).
  destruct (inv_right_is_left _ _ _ Hinv x Hxr) as [HL|(y & Hy & Hyl)]; [lia|].
  rewrite Hrs in Hy. apply List.in_app_iff in Hy as [Hy|Hy].
  - pose proof (plast_max done rest Hrs y Hy). lia.
  - specialize (Hrest y Hy). lia.
Qed.

Section Position.

Variables (done grp rest' : list coalescence_record_t) (c : Z).
Hypothesis Hrs : rs = done ++ grp ++ rest'.
Hypothesis Hdone : forall a, In a done -> cr_left a < c.
Hypothesis Hgrp : Forall (fun r => cr_left r = c) grp.
Hypothesis Hgrp_ne : grp <> [].
Hypothesis Hrest : forall b, In b rest' -> c < cr_left b.

Lemma position_in_range : 0 <= c < num_loci s.
Proof using Hinv Hrs Hgrp Hgrp_ne.
  destruct grp as [|g grp0]; [contradiction|].
  assert (Hg : In g rs) by (rewrite Hrs; apply List.in_app_iff; right; now left).
  destruct (inv_record _ _ _ Hinv g Hg) as (? & ? & _).
  rewrite List.Forall_forall in Hgrp. specialize (Hgrp g (or_introl eq_refl)). lia.
Qed.

Lemma group_right (g : coalescence_record_t) : In g grp -> c < cr_right g.
Proof using Hinv Hrs Hgrp.
  intros Hg.
  assert (Hgr : In g rs)
    by (rewrite Hrs; apply List.in_app_iff; right; apply List.in_app_iff; now left).
  destruct (inv_record _ _ _ Hinv g Hgr) as (? & _).
  rewrite List.Forall_forall in Hgrp. specialize (Hgrp g Hg). lia.
Qed.

(** The tree at [c]: the consumed records that end past [c], and the group. *)
Lemma tree_at_position :
  Z.of_nat (length (List.filter (fun r => c <? cr_right r) done))
  + Z.of_nat (length grp) = sample_size s - 1.
Proof using Hinv Hrs Hdone Hgrp Hgrp_ne Hrest.
  rewrite <- (inv_tree_size _ _ _ Hinv c position_in_range).
  unfold records_at. rewrite Hrs, !List.filter_app, !List.length_app.
  rewrite (filter_all (covers c) grp), (filter_none (covers c) rest').
  - rewrite (List.filter_ext_in (covers c) (fun r => c <? cr_right r) done).
    + simpl. lia.
    + intros a Ha. unfold covers. specialize (Hdone a Ha).
      destruct (Z.leb_spec (cr_left a) c); [reflexivity|lia].
  - intros x Hx. unfold covers. specialize (Hrest x Hx).
    apply andb_false_iff. left. apply Z.leb_gt. lia.
  - intros x Hx. unfold covers. pose proof (group_right x Hx).
    rewrite List.Forall_forall in Hgrp. specialize (Hgrp x Hx).
    apply andb_true_iff. split; [apply Z.leb_le|apply Z.ltb_lt]; lia.
Qed.

Lemma expired_at_position :
  Z.of_nat (length (List.filter (fun r => cr_right r =? c) done)) <= sample_size s - 1.
Proof using Hinv Hrs Hdone Hgrp Hgrp_ne Hrest.
  pose proof tree_at_position as Htree.
  destruct (List.filter (fun r => cr_right r =? c) done) as [|d l0] eqn:Ef.
  - simpl. lia.
  - rewrite <- Ef.
    assert (Hd : In d (List.filter (fun r => cr_right r =? c) done))
      by (rewrite Ef; now left).
    apply List.filter_In in Hd as (Hd & Hdr). apply Z.eqb_eq in Hdr.
    assert (Hdrs : In d rs) by (rewrite Hrs; apply List.in_app_iff; now left).
    destruct (inv_record _ _ _ Hinv d Hdrs) as (Hdl & _).
    pose proof position_in_range as Hc.
    rewrite <- (inv_tree_size _ _ _ Hinv (c - 1) ltac:(lia)).
    unfold records_at. apply inj_le.
    etransitivity; [apply (filter_length_le_impl _ (covers (c - 1)))|].
    + intros x Hx Hxc. apply Z.eqb_eq in Hxc. specialize (Hdone x Hx).
      unfold covers. apply andb_true_iff. split; [apply Z.leb_le|apply Z.ltb_lt]; lia.
    + rewrite Hrs, List.filter_app, List.length_app. lia.
Qed.

(** The arenas have room for the group (spec §4.E, arena sizing). *)
Lemma room_for_group :
  Z.of_nat (length (List.filter (fun r => c <=? cr_right r) done))
  + 2 * Z.of_nat (length grp) <= 3 * sample_size s /\
  Z.of_nat (distinct_rights (List.filter (fun r => c <=? cr_right r) done ++ grp))
  <= sample_size s.
Proof using Hinv Hrs Hdone Hgrp Hgrp_ne Hrest.
  pose proof tree_at_position as Htree. pose proof expired_at_position as Hexp.
  split.
  - rewrite filter_ge_split. lia.
  - pose proof (distinct_rights_bound
                  (List.filter (fun r => c <=? cr_right r) done ++ grp) c) as Hb.
    rewrite List.filter_app, List.length_app, filter_ne_ge in Hb.
    rewrite (filter_all _ grp) in Hb; [lia|].
    intros x Hx. pose proof (group_right x Hx).
    apply negb_true_iff, Z.eqb_neq. lia.
Qed.

End Position.

Lemma resolve_nodes_out_represents (st : tree_diff_iterator_t)
  (alive : list coalescence_record_t) (k : Z) :
  represents (active_nodes st) alive ->
  resolve_nodes_out st (Some k) = expiring alive k.
Proof.
  intros [_ Hsearch]. unfold resolve_nodes_out. rewrite Hsearch.
  now destruct (expiring alive k).
Qed.

Lemma same_frame_set_cursor (st : tree_diff_iterator_t) (cl idx : Z) :
  same_frame st (set_cursor st cl idx).
Proof. unfold same_frame. cbn. tauto. Qed.

(** The first half of a step, at the first record [r] of what is ahead. *)
Lemma retire_at (done rest0 : list coalescence_record_t) (r : coalescence_record_t)
  (st : tree_diff_iterator_t) :
  iterator_at s rs done (r :: rest0) st ->
  exists st1 out,
    next_tree_retire st = Done (st1, out) /\
    memory_holds st1 (List.filter (fun x => cr_left r <=? cr_right x) done) [] /\
    same_frame st st1 /\
    current_left st1 = cr_left r /\
    next_record_index st1 = next_record_index st /\
    (forall st2 alive2,
        represents (active_nodes st2)
          (List.filter (fun x => cr_left r <=? cr_right x) done ++ alive2) ->
        (forall x, In x alive2 -> cr_left r < cr_right x) ->
        resolve_nodes_out st2 out = expiring done (cr_left r)).
Proof using Hinv.
  intros (Hrs & Hlt & Hts & Hnum & Hc1 & Hc2 & Hc3 & Hidx & Hcl & nin & Hmem & Hnin).
  destruct done as [|d done0].
  - rewrite (Hnin eq_refl) in Hmem. simpl in Hrs.
    pose proof (first_left_zero r rest0 Hrs) as Hz.
    exists st, None. unfold next_tree_retire. rewrite Hcl, Hz.
    cbn [Z.eqb negb List.filter].
    split; [reflexivity|]. split; [exact Hmem|]. split; [apply same_frame_refl|].
    split; [reflexivity|]. split; [reflexivity|]. intros; reflexivity.
  - set (done := d :: done0) in *. set (c := cr_left r) in *.
    assert (Hne : done <> []) by discriminate.
    destruct (plast_In done Hne) as (g & Hg & Hgp).
    assert (Hpc : plast done < c) by (rewrite <- Hgp; apply Hlt; [assumption|now left]).
    pose proof (plast_nonneg done (r :: rest0) Hrs) as Hp0.
    assert (HrIn : In r rs) by (rewrite Hrs; apply List.in_app_iff; right; now left).
    destruct (inv_record _ _ _ Hinv r HrIn) as (Hrr & HrL & _).
    assert (Hbetween : forall x, In x (List.filter (fun x => plast done <=? cr_right x) done) ->
                                 cr_right x = plast done \/ c <= cr_right x).
    { intros x Hx. apply List.filter_In in Hx as (Hx & Hxp). apply Z.leb_le in Hxp.
      apply (no_right_between done (r :: rest0) c Hrs); auto; [|unfold c; lia].
      intros b [<-|Hb]; [unfold c; lia|].
      pose proof (inv_sorted _ _ _ Hinv) as Hs. rewrite Hrs, List.map_app in Hs.
      apply sorted_app_r in Hs. simpl in Hs. apply StronglySorted_inv in Hs as [_ Hall].
      rewrite List.Forall_forall in Hall. apply Hall. now apply List.in_map. }
    assert (Hin : In c (map cr_right (List.filter (fun x => plast done <=? cr_right x) done))).
    { destruct (inv_left_is_right _ _ _ Hinv r HrIn ltac:(fold c; lia)) as (x & Hx & Hxr).
      destruct (inv_record _ _ _ Hinv x Hx) as (Hxlr & _).
      rewrite Hrs in Hx. apply List.in_app_iff in Hx as [Hx|Hx].
      - fold c in Hxr. rewrite <- Hxr. apply List.in_map. apply List.filter_In.
        split; [assumption|]. apply Z.leb_le. lia.
      - exfalso. assert (c <= cr_left x); [|fold c in Hxr; lia].
        destruct Hx as [<-|Hx]; [unfold c; lia|].
        pose proof (inv_sorted _ _ _ Hinv) as Hs. rewrite Hrs, List.map_app in Hs.
        apply sorted_app_r in Hs. simpl in Hs. apply StronglySorted_inv in Hs as [_ Hall].
        rewrite List.Forall_forall in Hall. apply Hall. now apply List.in_map. }
    destruct (next_tree_retire_ok st _ nin (plast done) c Hmem Hcl ltac:(lia) Hpc Hbetween Hin)
      as (st1 & Hret & Hmem1 & Hframe & Hcl1 & Hidx1).
    rewrite filter_filter_ge in Hmem1 by lia.
    exists st1, (Some c).
    split; [exact Hret|]. split; [exact Hmem1|]. split; [exact Hframe|].
    split; [exact Hcl1|]. split; [exact Hidx1|].
    intros st2 alive2 Hrep Hhigh.
    rewrite (resolve_nodes_out_represents st2 _ c Hrep).
    rewrite expiring_app, expiring_filter_ge, Z.leb_refl.
    replace (expiring alive2 c) with (@nil tree_node_t); [now rewrite List.app_nil_r|].
    unfold expiring. rewrite filter_none; [reflexivity|].
    intros x Hx. specialize (Hhigh x Hx). apply Z.eqb_neq. lia.
Qed.

(** One step of the iterator while records are ahead (spec §4.E, steps 1 to 3). *)
Lemma next_tree_step (done rest0 : list coalescence_record_t) (r : coalescence_record_t)
  (st : tree_diff_iterator_t) (cr0 : coalescence_record_t) (outs : step_t) :
  iterator_at s rs done (r :: rest0) st ->
  exists st',
    tree_diff_iterator_next_tree st cr0 outs
    = Done (1, st',
            {| length_out :=
                 match trailing (cr_left r) (r :: rest0) with
                 | r' :: _ => cr_left r'
                 | [] => num_loci s
                 end - cr_left r;
               nodes_out := expiring done (cr_left r);
               nodes_in_out := map node_of (leading (cr_left r) (r :: rest0)) |}) /\
    iterator_at s rs (done ++ leading (cr_left r) (r :: rest0))
      (trailing (cr_left r) (r :: rest0)) st' /\
    same_frame st st'.
Proof using Hholds Hinv Hrange.
  intros Hat.
  destruct (retire_at done rest0 r st Hat)
    as (st1 & out & Hret & Hmem1 & Hframe1 & Hcl1 & Hidx1 & Hout).
  destruct Hat as (Hrs & Hlt & Hts & Hnum & Hc1 & Hc2 & Hc3 & Hidx & Hcl & _).
  set (c := cr_left r) in *.
  set (grp := leading c (r :: rest0)). set (rest' := trailing c (r :: rest0)).
  assert (Hsplit : r :: rest0 = grp ++ rest') by apply leading_trailing.
  assert (Hrs' : rs = done ++ grp ++ rest') by (now rewrite <- Hsplit).
  assert (Hgrp : Forall (fun x => cr_left x = c) grp) by apply leading_all.
  assert (Hgrp_ne : grp <> []).
  { unfold grp, c. simpl. now rewrite Z.eqb_refl. }
  assert (Hdone : forall a, In a done -> cr_left a < c).
  { intros a Ha. apply Hlt; [assumption|now left]. }
  assert (Hsorted : StronglySorted Z.le (map cr_left (r :: rest0))).
  { pose proof (inv_sorted _ _ _ Hinv) as Hs. rewrite Hrs, List.map_app in Hs.
    now apply sorted_app_r in Hs. }
  assert (Hrest : forall b, In b rest' -> c < cr_left b).
  { apply trailing_gt; [exact Hsorted|].
    intros b [<-|Hb]; [unfold c; lia|].
    simpl in Hsorted. apply StronglySorted_inv in Hsorted as [_ Hall].
    rewrite List.Forall_forall in Hall. apply Hall. now apply List.in_map. }
  destruct (room_for_group done grp rest' c Hrs' Hdone Hgrp Hgrp_ne Hrest)
    as (Hroom & Hkeys).
  pose proof (position_in_range done grp rest' c Hrs' Hgrp Hgrp_ne) as Hpos.
  pose proof (inv_sizes _ _ _ Hinv) as (Hn & HL).
  destruct Hframe1 as (Hts1 & Hfl1 & Hnum1 & Hbi1 & Hnb1 & Hcap1 & Hcap2 & Hcap3).
  assert (Hhead : match rest' with x :: _ => cr_left x <> c | [] => True end).
  { destruct rest' as [|x rest1] eqn:E; [exact I|].
    specialize (Hrest x (or_introl eq_refl)). lia. }
  assert (Hlen : length rs = (length done + length grp + length rest')%nat).
  { rewrite Hrs'. rewrite !List.length_app. lia. }
  assert (Hgl : (0 < length grp)%nat) by (destruct grp; [contradiction|simpl; lia]).
  destruct (next_tree_loop_ok s bps rs Hholds rs_fits c rest' Hhead grp done st1
              (List.filter (fun x => c <=? cr_right x) done) [] cr0
              (Z.to_nat (it_num_records st1 - next_record_index st1)))
    as (st2 & Hloop & Hmem2 & Hframe2 & Hcl2 & Hidx2).
  { exact Hrs'. }
  { now left. }
  { exact Hgrp. }
  { now rewrite Hts1. }
  { now rewrite Hnum1. }
  { now rewrite Hidx1. }
  { exact Hcl1. }
  { exact Hmem1. }
  { rewrite Hcap1, Hc1. simpl length. lia. }
  { rewrite Hcap2, Hc2. exact Hkeys. }
  { now rewrite Hcap2, Hcap3, Hc2, Hc3. }
  { rewrite Hnum1, Hnum, Hidx1, Hidx, Hlen. destruct rest'; simpl; lia. }
  destruct Hframe2 as (Hts2 & Hfl2 & Hnum2 & Hbi2 & Hnb2 & Hcap21 & Hcap22 & Hcap23).
  unfold tree_diff_iterator_next_tree. rewrite Hret. cbn [bind].
  replace (next_record_index st1 <? it_num_records st1) with true
    by (symmetry; apply Z.ltb_lt; rewrite Hnum1, Hnum, Hidx1, Hidx, Hlen; lia).
  rewrite Hloop. cbn [bind]. rewrite Hcl2, Hidx2, Hnum2, Hnum1, Hnum.
  pose proof Hmem2 as (Hrep2 & Hnin2 & _).
  rewrite (Hout st2 grp Hrep2 (group_right done grp rest' c Hrs' Hgrp)), Hnin2.
  cbn [app].
  exists (set_cursor st2 (cr_left (match rest' with x :: _ => x | [] => List.last grp cr0 end))
            (Z.of_nat (length done + length grp))).
  split; [|split].
  - f_equal. f_equal. f_equal.
    destruct rest' as [|x rest1] eqn:E.
    + replace (Z.of_nat (length done + length grp) =? Z.of_nat (length rs)) with true
        by (symmetry; apply Z.eqb_eq; rewrite Hlen; simpl; lia).
      rewrite (last_group_right (List.last grp cr0)).
      * unfold u32. apply Z.mod_small. lia.
      * rewrite Hrs'. apply List.in_app_iff. right. apply List.in_app_iff. left.
        now apply last_in.
      * intros y Hy.
        assert (Hlast : cr_left (List.last grp cr0) = c).
        { rewrite List.Forall_forall in Hgrp. apply Hgrp.
          now apply last_in. }
        rewrite Hlast. rewrite Hrs' in Hy.
        apply List.in_app_iff in Hy as [Hy|Hy]; [specialize (Hdone y Hy); lia|].
        apply List.in_app_iff in Hy as [Hy|[]].
        rewrite List.Forall_forall in Hgrp. rewrite (Hgrp y Hy). lia.
    + replace (Z.of_nat (length done + length grp) =? Z.of_nat (length rs)) with false
        by (symmetry; apply Z.eqb_neq; rewrite Hlen; simpl; lia).
      assert (Hx : In x rs).
      { rewrite Hrs'. apply List.in_app_iff. right. apply List.in_app_iff. right. now left. }
      destruct (inv_record _ _ _ Hinv x Hx) as (Hxl & HxL & _).
      specialize (Hrest x (or_introl eq_refl)).
      unfold u32. apply Z.mod_small. lia.
  - assert (Hcnew : cr_left (match rest' with x :: _ => x | [] => List.last grp cr0 end)
                    = match rest' with x :: _ => cr_left x | [] => plast (done ++ grp) end).
    { destruct rest' as [|x rest1]; [|reflexivity].
      rewrite (plast_app done grp c Hgrp_ne Hgrp).
      rewrite List.Forall_forall in Hgrp. apply Hgrp.
      now apply last_in. }
    unfold iterator_at. cbn [set_cursor tree_sequence it_num_records tree_node_heap
      tree_node_list_heap avl_node_heap next_record_index current_left].
    split; [now rewrite <- List.app_assoc|].
    split.
    { intros a b Ha Hb. specialize (Hrest b Hb).
      apply List.in_app_iff in Ha as [Ha|Ha]; [specialize (Hdone a Ha); lia|].
      rewrite List.Forall_forall in Hgrp. rewrite (Hgrp a Ha). lia. }
    split; [now rewrite Hts2, Hts1|].
    split; [now rewrite Hnum2, Hnum1|].
    split; [now rewrite Hcap21, Hcap1|].
    split; [now rewrite Hcap22, Hcap2|].
    split; [now rewrite Hcap23, Hcap3|].
    split; [now rewrite List.length_app|].
    split; [exact Hcnew|].
    exists (map node_of grp). split.
    + apply memory_holds_set_cursor.
      rewrite (plast_app done grp c Hgrp_ne Hgrp), List.filter_app.
      rewrite (filter_all _ grp); [exact Hmem2|].
      intros x Hx. pose proof (group_right done grp rest' c Hrs' Hgrp x Hx).
      apply Z.leb_le. lia.
    + intros E. apply List.app_eq_nil in E as [_ E]. contradiction.
  - unfold same_frame. cbn. repeat split; congruence.
Qed.

(** A call once the table is exhausted: [End], with [length] and
    [nodes_in] of the caller untouched. *)
Lemma next_tree_end (done : list coalescence_record_t)
  (st : tree_diff_iterator_t) (cr0 : coalescence_record_t) (outs : step_t) :
  iterator_at s rs done [] st ->
  exists st',
    tree_diff_iterator_next_tree st cr0 outs
    = Done (0, st',
            {| length_out := length_out outs;
               nodes_out := if plast done =? 0 then [] else expiring done (plast done);
               nodes_in_out := nodes_in_out outs |}) /\
    iterator_at s rs done [] st' /\
    same_frame st st'.
Proof using Hinv.
  intros Hat.
  pose proof Hat as (Hrs & Hlt & Hts & Hnum & Hc1 & Hc2 & Hc3 & Hidx & Hcl & nin & Hmem & Hnin).
  rewrite List.app_nil_r in Hrs.
  unfold tree_diff_iterator_next_tree.
  destruct (Z.eqb_spec (plast done) 0) as [Hz|Hnz].
  - exists st. unfold next_tree_retire. rewrite Hcl, Hz. cbn [Z.eqb negb bind].
    replace (next_record_index st <? it_num_records st) with false
      by (symmetry; apply Z.ltb_ge; rewrite Hidx, Hnum, Hrs; lia).
    split; [reflexivity|]. split; [exact Hat|apply same_frame_refl].
  - set (c := plast done) in *.
    assert (Hne : done <> []) by (intros ->; now apply Hnz).
    destruct (plast_In done Hne) as (g & Hg & Hgp). fold c in Hgp.
    pose proof (plast_nonneg done [] ltac:(now rewrite List.app_nil_r)) as Hp0. fold c in Hp0.
    assert (Hbetween : forall x, In x (List.filter (fun x => c <=? cr_right x) done) ->
                                 cr_right x = c - 1 \/ c <= cr_right x).
    { intros x Hx. apply List.filter_In in Hx as (_ & Hx). apply Z.leb_le in Hx. now right. }
    assert (Hin : In c (map cr_right (List.filter (fun x => c <=? cr_right x) done))).
    { destruct (inv_left_is_right _ _ _ Hinv g ltac:(now rewrite Hrs) ltac:(lia))
        as (x & Hx & Hxr).
      rewrite <- Hgp, <- Hxr. apply List.in_map. apply List.filter_In.
      split; [now rewrite <- Hrs|]. apply Z.leb_le. lia. }
    destruct (next_tree_retire_ok st _ nin (c - 1) c Hmem Hcl Hnz ltac:(lia) Hbetween Hin)
      as (st1 & Hret & Hmem1 & Hframe & Hcl1 & Hidx1).
    rewrite filter_filter_ge in Hmem1 by lia.
    rewrite Hret. cbn [bind].
    pose proof Hframe as (Hts1 & Hfl1 & Hnum1 & Hbi1 & Hnb1 & Hcap1 & Hcap2 & Hcap3).
    replace (next_record_index st1 <? it_num_records st1) with false
      by (symmetry; apply Z.ltb_ge; rewrite Hidx1, Hnum1, Hidx, Hnum, Hrs; lia).
    exists st1. split; [|split; [|exact Hframe]].
    + f_equal. f_equal. f_equal.
      pose proof Hmem1 as (Hrep1 & _).
      rewrite (resolve_nodes_out_represents st1 _ c Hrep1).
      now rewrite expiring_filter_ge, Z.leb_refl.
    + unfold iterator_at. split; [now rewrite List.app_nil_r|].
      split; [exact Hlt|].
      split; [now rewrite Hts1|]. split; [now rewrite Hnum1|].
      split; [now rewrite Hcap1|]. split; [now rewrite Hcap2|].
      split; [now rewrite Hcap3|]. split; [now rewrite Hidx1|].
      split; [exact Hcl1|]. exists []. split; [exact Hmem1|reflexivity].
Qed.

End Run.

(** ** Runs of the iterator *)

Lemma all_end_from (o o' : step_t) (rets : list (Z * step_t)) :
  length_out o = length_out o' -> nodes_in_out o = nodes_in_out o' ->
  all_end o rets -> all_end o' rets.
Proof.
  intros Hl Hn. induction rets as [|[ret x] rets IH]; [trivial|].
  simpl. intros (H0 & H1 & H2 & H3). rewrite <- Hl, <- Hn. auto.
Qed.

Lemma all_end_nth (o : step_t) (rets : list (Z * step_t)) :
  all_end o rets ->
  forall j rj oj, nth_error rets j = Some (rj, oj) ->
    rj = 0 /\ length_out oj = length_out o /\ nodes_in_out oj = nodes_in_out o.
Proof.
  induction rets as [|[ret x] rets IH]; intros Hall j rj oj Hj.
  - destruct j; discriminate.
  - destruct Hall as (H0 & H1 & H2 & H3). destruct j as [|j].
    + simpl in Hj. inversion Hj; subst. auto.
    + simpl in Hj. eauto.
Qed.

Lemma end_absorbing_nth (rets : list (Z * step_t)) :
  end_absorbing rets ->
  forall i j ri oi rj oj,
    (i < j)%nat ->
    nth_error rets i = Some (ri, oi) -> ri = 0 ->
    nth_error rets j = Some (rj, oj) ->
    rj = 0 /\ length_out oj = length_out oi /\ nodes_in_out oj = nodes_in_out oi.
Proof.
  induction rets as [|[ret x] rets IH]; intros Habs i j ri oi rj oj Hij Hi Hri Hj.
  - destruct i; discriminate.
  - destruct Habs as (Hhead & Htail). destruct j as [|j]; [lia|].
    destruct i as [|i].
    + simpl in Hi, Hj. inversion Hi; subst.
      eapply all_end_nth; eauto.
    + simpl in Hi, Hj. eapply (IH Htail i j); eauto. lia.
Qed.

Lemma nodup_trailing (c : Z) (l : list coalescence_record_t) :
  StronglySorted Z.le (map cr_left l) ->
  (forall b, In b l -> c <= cr_left b) ->
  nodup Z.eq_dec (c :: map cr_left l)
  = c :: nodup Z.eq_dec (map cr_left (trailing c l)).
Proof.
  induction l as [|x l IH]; intros Hs Hge; [reflexivity|].
  simpl map in Hs. apply StronglySorted_inv in Hs as [Hs Hall].
  cbn [trailing]. destruct (Z.eqb_spec (cr_left x) c) as [Heq|Hne].
  - rewrite <- IH; auto; [|intros b Hb; apply Hge; now right].
    cbn [map]. rewrite Heq. cbn [nodup].
    destruct (in_dec Z.eq_dec c (c :: map cr_left l)) as [_|Hn]; [reflexivity|].
    exfalso. apply Hn. now left.
  - cbn [nodup]. destruct (in_dec Z.eq_dec c (map cr_left (x :: l))) as [Hin|_]; [|reflexivity].
    exfalso. pose proof (Hge x (or_introl eq_refl)) as Hx.
    destruct Hin as [Hin|Hin]; [lia|].
    rewrite List.Forall_forall in Hall. specialize (Hall c Hin). lia.
Qed.

Lemma step_edges_nil (from : Z) (steps : list step_t) :
  step_edges from steps = [] -> steps = [].
Proof. destruct steps; [reflexivity|discriminate]. Qed.

Lemma next_distinct (st : tree_diff_iterator_t) (cr0 : coalescence_record_t)
  (outs : step_t) :
  Z.land (flags st) MSP_ALL_BREAKPOINTS = 0 ->
  tree_diff_iterator_next st cr0 outs = tree_diff_iterator_next_tree st cr0 outs.
Proof. intros H. unfold tree_diff_iterator_next. now rewrite H. Qed.

Lemma inv_empty (n l : Z) : tree_invariants n l [] = true -> l = 0.
Proof.
  intros H. pose proof (inv_sizes _ _ _ H) as (_ & Hl).
  unfold tree_invariants in H. apply andb_true_iff in H as [_ H].
  unfold coordinates in H. destruct (Z.to_nat l) as [|k] eqn:E; [lia|].
  simpl in H. discriminate.
Qed.

Section Runs.

Variables (s : tree_sequence_t) (bps : list Z) (rs : list coalescence_record_t).
Hypothesis Hholds : store_holds s bps rs.
Hypothesis Hinv : tree_invariants (sample_size s) (num_loci s) rs = true.
Hypothesis Hrange : store_in_range s.

(** A fresh iterator stands before the first record. *)
Lemma alloc_at (fl : Z) :
  fst (tree_diff_iterator_alloc s fl) = 0 /\
  iterator_at s rs [] rs (snd (tree_diff_iterator_alloc s fl)) /\
  flags (snd (tree_diff_iterator_alloc s fl)) = fl /\
  current_breakpoint_index (snd (tree_diff_iterator_alloc s fl)) = 0 /\
  next_breakpoint (snd (tree_diff_iterator_alloc s fl)) = 0.
Proof using Hholds Hinv Hrange.
  pose proof (inv_sizes _ _ _ Hinv) as (Hn & _).
  destruct Hrange as (_ & _ & H3n). pose proof Hholds as (Hnum & _).
  unfold tree_diff_iterator_alloc. cbn.
  split; [reflexivity|]. split; [|auto].
  unfold iterator_at. cbn.
  split; [reflexivity|]. split; [intros a b []|]. split; [reflexivity|].
  split; [exact Hnum|]. split; [unfold u32; apply Z.mod_small; lia|].
  split; [reflexivity|]. split; [reflexivity|]. split; [reflexivity|].
  split.
  - destruct rs as [|r rest0] eqn:E; [reflexivity|].
    symmetry. rewrite <- E in *. now apply (first_left_zero s rs Hinv r rest0).
  - exists []. split; [|reflexivity].
    unfold memory_holds, heap_ok. cbn. repeat split; try lia. constructor.
Qed.

(** The records consumed once the table is exhausted are the table. *)
Lemma at_end_all (done : list coalescence_record_t) (st : tree_diff_iterator_t) :
  iterator_at s rs done [] st -> done = rs.
Proof. intros (Hrs & _). now rewrite List.app_nil_r in Hrs. Qed.

(** A complete run in the distinct-trees mode. *)
Lemma run_distinct (cr0 : coalescence_record_t) :
  forall (m : nat) (rest done : list coalescence_record_t)
         (st : tree_diff_iterator_t) (outs : step_t) (fuel : nat),
    (length rest <= m)%nat -> (m < fuel)%nat ->
    iterator_at s rs done rest st ->
    Z.land (flags st) MSP_ALL_BREAKPOINTS = 0 ->
    exists steps st' outs',
      iterate fuel st cr0 outs = Done (steps, 0, st', outs') /\
      iterator_at s rs rs [] st' /\
      step_edges (match rest with r :: _ => cr_left r | [] => 0 end) steps
      = nodup Z.eq_dec (map cr_left rest) /\
      total_span steps
      = match rest with r :: _ => num_loci s - cr_left r | [] => 0 end.
Proof using Hholds Hinv Hrange.
  induction m as [|m IH]; intros rest done st outs fuel Hlen Hfuel Hat Hfl;
    (destruct fuel as [|fuel]; [lia|]); cbn [iterate]; rewrite next_distinct by exact Hfl.
  - destruct rest as [|r rest0]; [|simpl in Hlen; lia].
    destruct (next_tree_end s rs Hinv done st cr0 outs Hat) as (st' & Hnext & Hat' & _).
    rewrite Hnext. cbn [bind Z.eqb].
    rewrite (at_end_all done st Hat) in Hat'. eauto 10.
  - destruct rest as [|r rest0].
    + destruct (next_tree_end s rs Hinv done st cr0 outs Hat) as (st' & Hnext & Hat' & _).
      rewrite Hnext. cbn [bind Z.eqb].
      rewrite (at_end_all done st Hat) in Hat'. eauto 10.
    + destruct (next_tree_step s bps rs Hholds Hinv Hrange done rest0 r st cr0 outs Hat)
        as (st1 & Hnext & Hat1 & Hframe).
      rewrite Hnext. cbn [bind Z.eqb Pos.eqb].
      set (c := cr_left r) in *.
      pose proof (leading_trailing c (r :: rest0)) as Hsplit.
      assert (Hshort : (length (trailing c (r :: rest0)) <= m)%nat).
      { unfold c. simpl. rewrite Z.eqb_refl.
        pose proof (leading_trailing (cr_left r) rest0) as E.
        apply (f_equal (@length _)) in E. rewrite List.length_app in E.
        simpl in Hlen. lia. }
      destruct Hframe as (_ & Hfl1 & _).
      destruct (IH _ _ st1
                  {| length_out :=
                       match trailing c (r :: rest0) with
                       | r' :: _ => cr_left r'
                       | [] => num_loci s
                       end - c;
                     nodes_out := expiring done c;
                     nodes_in_out := map node_of (leading c (r :: rest0)) |}
                  fuel Hshort ltac:(lia) Hat1 ltac:(now rewrite Hfl1))
        as (steps & st' & outs' & Hrun & Hat' & Hedges & Hspan).
      rewrite Hrun. cbn [bind].
      eexists _, st', outs'. split; [reflexivity|]. split; [exact Hat'|].
      pose proof Hat as (Hrs & _).
      assert (Hsorted : StronglySorted Z.le (map cr_left (r :: rest0))).
      { pose proof (inv_sorted _ _ _ Hinv) as Hs. rewrite Hrs, List.map_app in Hs.
        now apply sorted_app_r in Hs. }
      assert (Hge : forall b, In b rest0 -> c <= cr_left b).
      { intros b Hb. simpl in Hsorted. apply StronglySorted_inv in Hsorted as [_ Hall].
        rewrite List.Forall_forall in Hall. apply Hall. now apply List.in_map. }
      assert (HrIn : In r rs) by (rewrite Hrs; apply List.in_app_iff; right; now left).
      destruct (inv_record _ _ _ Hinv r HrIn) as (Hrl & HrL & _). fold c in Hrl.
      assert (Htr : trailing c (r :: rest0) = trailing c rest0)
        by (unfold c; simpl; now rewrite Z.eqb_refl).
      split.
      * cbn [step_edges length_out map]. fold c.
        rewrite nodup_trailing; [|now apply StronglySorted_inv in Hsorted|exact Hge].
        rewrite <- Htr. f_equal.
        destruct (trailing c (r :: rest0)) as [|r' rest1].
        -- apply step_edges_nil in Hedges. now subst steps.
        -- rewrite <- Hedges. f_equal. lia.
      * unfold total_span in *. cbn [fold_right length_out]. rewrite Hspan.
        destruct (trailing c (r :: rest0)) as [|r' rest1]; lia.
Qed.

(** Calls in a row in the distinct-trees mode. *)
Lemma calls_distinct (cr0 : coalescence_record_t) :
  forall (count : nat) (rest done : list coalescence_record_t)
         (st : tree_diff_iterator_t) (outs : step_t),
    iterator_at s rs done rest st ->
    Z.land (flags st) MSP_ALL_BREAKPOINTS = 0 ->
    exists rets st',
      call_next count st cr0 outs = Done (rets, st') /\
      end_absorbing rets /\
      (rest = [] -> all_end outs rets).
Proof using Hholds Hinv Hrange.
  induction count as [|count IH]; intros rest done st outs Hat Hfl.
  - exists [], st. simpl. auto.
  - cbn [call_next]. rewrite next_distinct by exact Hfl.
    destruct rest as [|r rest0].
    + destruct (next_tree_end s rs Hinv done st cr0 outs Hat)
        as (st1 & Hnext & Hat1 & (_ & Hfl1 & _)).
      rewrite Hnext. cbn [bind].
      destruct (IH [] done st1
                  {| length_out := length_out outs;
                     nodes_out := if plast done =? 0 then []
                                  else expiring done (plast done);
                     nodes_in_out := nodes_in_out outs |}
                  Hat1 ltac:(now rewrite Hfl1))
        as (rets & st' & Hcalls & Habs & Hall).
      rewrite Hcalls. cbn [bind]. eexists _, st'. split; [reflexivity|].
      specialize (Hall eq_refl). split.
      * simpl. split; [intros _; exact Hall|exact Habs].
      * intros _. simpl. repeat split; try reflexivity.
        eapply all_end_from; [| |exact Hall]; reflexivity.
    + destruct (next_tree_step s bps rs Hholds Hinv Hrange done rest0 r st cr0 outs Hat)
        as (st1 & Hnext & Hat1 & (_ & Hfl1 & _)).
      rewrite Hnext. cbn [bind].
      destruct (IH _ _ st1
                  {| length_out :=
                       match trailing (cr_left r) (r :: rest0) with
                       | r' :: _ => cr_left r'
                       | [] => num_loci s
                       end - cr_left r;
                     nodes_out := expiring done (cr_left r);
                     nodes_in_out := map node_of (leading (cr_left r) (r :: rest0)) |}
                  Hat1 ltac:(now rewrite Hfl1))
        as (rets & st' & Hcalls & Habs & _).
      rewrite Hcalls. cbn [bind]. eexists _, st'. split; [reflexivity|].
      split; [|discriminate].
      simpl. split; [discriminate|exact Habs].
Qed.

(** What the arenas hold once the table is exhausted. *)
Lemma end_accounting (st : tree_diff_iterator_t) :
  iterator_at s rs rs [] st ->
  heap_allocs (tree_node_heap st) - heap_frees (tree_node_heap st)
  = Z.of_nat (length (nodes_in st)) + Z.of_nat (length (flat_map snd (active_nodes st))) /\
  heap_allocs (tree_node_list_heap st) - heap_frees (tree_node_list_heap st)
  = Z.of_nat (length (active_nodes st)) /\
  heap_allocs (avl_node_heap st) - heap_frees (avl_node_heap st)
  = Z.of_nat (length (active_nodes st)) /\
  (rs <> [] ->
   avl_search (active_nodes st) (num_loci s) = Some (num_loci s, expiring rs (num_loci s)) /\
   expiring rs (num_loci s) <> []).
Proof using Hinv.
  intros (_ & _ & _ & _ & _ & _ & _ & _ & _ & nin & Hmem & _).
  destruct Hmem as (Hrep & Hnin & (_ & Htree) & (_ & Hlist) & (_ & Havl)).
  rewrite (represents_total _ _ Hrep), Hnin.
  split; [lia|]. split; [lia|]. split; [lia|].
  intros Hne.
  destruct (plast_In rs Hne) as (g & Hg & Hgp).
  assert (HgL : cr_right g = num_loci s).
  { apply (last_group_right s rs Hinv g Hg). intros x Hx. rewrite Hgp.
    apply (plast_max s rs Hinv rs []); [now rewrite List.app_nil_r|exact Hx]. }
  destruct (inv_record _ _ _ Hinv g Hg) as (Hgl & _).
  assert (Hexp : expiring rs (num_loci s) <> []).
  { apply expiring_nonempty. rewrite <- HgL. now apply List.in_map. }
  split; [|exact Hexp].
  destruct Hrep as (_ & Hsearch). rewrite Hsearch.
  rewrite expiring_filter_ge.
  replace (plast rs <=? num_loci s) with true by (symmetry; apply Z.leb_le; lia).
  destruct (expiring rs (num_loci s)); [contradiction|reflexivity].
Qed.

End Runs.

(** ** The all-breakpoints mode *)

Lemma sorted_lookup_lt (l : list Z) :
  StronglySorted Z.lt l ->
  forall (i j : nat) (a b : Z),
    (i < j)%nat -> l !! i = Some a -> l !! j = Some b -> a < b.
Proof.
  induction 1 as [|x l Hs IH Hall]; intros i j a b Hij Hi Hj.
  - destruct i; discriminate.
  - destruct j as [|j]; [lia|]. destruct i as [|i].
    + simpl in Hi, Hj. inversion Hi; subst.
      rewrite List.Forall_forall in Hall. apply Hall.
      apply list_elem_of_In. eapply list_elem_of_lookup_2. exact Hj.
    + simpl in Hi, Hj. eapply (IH i j); eauto. lia.
Qed.

Lemma sorted_lookup_le (l : list Z) :
  StronglySorted Z.lt l ->
  forall (i j : nat) (a b : Z),
    (i <= j)%nat -> l !! i = Some a -> l !! j = Some b -> a <= b.
Proof.
  intros Hs i j a b Hij Hi Hj.
  destruct (Nat.eq_dec i j) as [->|Hne]; [rewrite Hi in Hj; inversion Hj; lia|].
  pose proof (sorted_lookup_lt l Hs i j a b ltac:(lia) Hi Hj). lia.
Qed.

(** The breakpoint after [b0] is the least one above it. *)
Lemma sorted_lookup_next (l : list Z) (i : nat) (b0 b1 v : Z) :
  StronglySorted Z.lt l ->
  l !! i = Some b0 -> l !! S i = Some b1 -> In v l -> b0 < v -> b1 <= v.
Proof.
  intros Hs Hi Hi1 Hv Hlt.
  apply list_elem_of_In, list_elem_of_lookup_1 in Hv as (j & Hj).
  destruct (le_lt_dec j i) as [Hle|Hgt].
  - pose proof (sorted_lookup_le l Hs j i v b0 Hle Hj Hi). lia.
  - apply (sorted_lookup_le l Hs (S i) j); auto.
Qed.

Lemma lookup_last (l : list Z) (d : Z) :
  l <> [] -> l !! (length l - 1)%nat = Some (List.last l d).
Proof.
  induction l as [|x l IH]; [contradiction|]. intros _.
  destruct l as [|y l]; [reflexivity|].
  change (List.last (x :: y :: l) d) with (List.last (y :: l) d).
  rewrite <- IH by discriminate. simpl. now rewrite Nat.sub_0_r.
Qed.

Lemma iterator_at_set_breakpoint_cursor (s : tree_sequence_t)
  (rs done rest : list coalescence_record_t) (st : tree_diff_iterator_t) (cbi nb : Z) :
  iterator_at s rs done rest st ->
  iterator_at s rs done rest (set_breakpoint_cursor st cbi nb).
Proof. intros H. exact H. Qed.

Lemma breakpoints_ok_first (l : Z) (bps : list Z) :
  breakpoints_ok l bps = true -> bps !! 0%nat = Some 0.
Proof.
  intros H. unfold breakpoints_ok in H. apply andb_true_iff in H as [H _].
  apply andb_true_iff in H as [_ H]. destruct bps as [|b tl]; [discriminate|].
  apply Z.eqb_eq in H. now subst.
Qed.

Section Breakpoints.

Variables (s : tree_sequence_t) (bps : list Z) (rs : list coalescence_record_t).
Hypothesis Hholds : store_holds s bps rs.
Hypothesis Hinv : tree_invariants (sample_size s) (num_loci s) rs = true.
Hypothesis Hrange : store_in_range s.
Hypothesis Hbok : breakpoints_ok (num_loci s) bps = true.
Hypothesis Hcover : breakpoints_cover bps rs = true.

Lemma bps_sorted : StronglySorted Z.lt bps.
Proof using Hbok.
  pose proof Hbok as H. unfold breakpoints_ok in H.
  apply andb_true_iff in H as [H _].
  apply andb_true_iff in H as [H _]. now apply increasing_sorted.
Qed.

Lemma bps_first : bps !! 0%nat = Some 0.
Proof using Hbok. exact (breakpoints_ok_first _ _ Hbok). Qed.

Lemma bps_last : bps !! (length bps - 1)%nat = Some (num_loci s).
Proof using Hbok.
  pose proof bps_first as Hf.
  pose proof Hbok as H. unfold breakpoints_ok in H.
  apply andb_true_iff in H as [_ H].
  apply Z.eqb_eq in H. rewrite <- H. apply lookup_last.
  intros E. rewrite E in Hf. discriminate.
Qed.

Lemma bps_range (i : nat) (b : Z) : bps !! i = Some b -> 0 <= b <= num_loci s.
Proof using Hbok.
  intros Hi. pose proof (lookup_lt_Some _ _ _ Hi) as Hlt. split.
  - apply (sorted_lookup_le bps bps_sorted 0 i); auto using bps_first. lia.
  - apply (sorted_lookup_le bps bps_sorted i (length bps - 1)); auto using bps_last. lia.
Qed.

Lemma left_is_breakpoint (r : coalescence_record_t) : In r rs -> In (cr_left r) bps.
Proof using Hcover.
  intros Hr. pose proof Hcover as H. unfold breakpoints_cover in H.
  rewrite List.forallb_forall in H.
  apply mem_In. apply H. unfold record_coordinates.
  apply List.in_app_iff. left. now apply List.in_map.
Qed.

(** A fresh iterator stands at the first breakpoint. *)
Lemma alloc_breakpoint_at (fl : Z) :
  Z.land fl MSP_ALL_BREAKPOINTS <> 0 ->
  breakpoint_at s rs 0 0 [] rs (snd (tree_diff_iterator_alloc s fl)).
Proof using Hholds Hinv Hrange Hbok Hcover.
  intros Hfl.
  destruct (alloc_at s bps rs Hholds Hinv Hrange fl) as (_ & Hat & Hflags & Hcbi & Hnb).
  unfold breakpoint_at. rewrite Hflags, Hcbi, Hnb.
  split; [exact Hat|]. split; [exact Hfl|]. split; [reflexivity|].
  split; [|split; [intros a []|]].
  - destruct rs as [|r rest0] eqn:E.
    + symmetry. now apply (inv_empty (sample_size s)).
    + symmetry. rewrite <- E in *. now apply (first_left_zero s rs Hinv r rest0).
  - intros x Hx. now apply (inv_record _ _ _ Hinv x).
Qed.

(** One call between two breakpoints. *)
Lemma next_breakpoint_step (i : nat) (b0 b1 : Z)
  (done rest : list coalescence_record_t) (st : tree_diff_iterator_t)
  (cr0 : coalescence_record_t) (outs : step_t) :
  bps !! i = Some b0 -> bps !! S i = Some b1 ->
  breakpoint_at s rs i b0 done rest st ->
  exists st' done' rest' step,
    tree_diff_iterator_next st cr0 outs = Done (1, st', step) /\
    breakpoint_at s rs (S i) b1 done' rest' st' /\
    breakpoint_step rs b0 b1 step.
Proof using Hholds Hinv Hrange Hbok Hcover.
  intros Hi Hi1 (Hat & Hfl & Hcbi & Hnb & Hdone & Hrest).
  pose proof Hat as (Hrs & Hlt & Hts & _).
  pose proof Hholds as (_ & Hnbps & Hbps & _).
  pose proof Hrange as (_ & Hnbr & _).
  pose proof (lookup_lt_Some _ _ _ Hi1) as Hi1lt.
  pose proof (sorted_lookup_lt bps bps_sorted i (S i) b0 b1 ltac:(lia) Hi Hi1) as Hb01.
  pose proof (bps_range i b0 Hi) as Hb0. pose proof (bps_range (S i) b1 Hi1) as Hb1.
  pose proof (inv_sizes _ _ _ Hinv) as (_ & HL).
  assert (Hsz : size_t (Z.of_nat i + 1) = Z.of_nat (S i)).
  { unfold size_t. rewrite Z.mod_small; lia. }
  unfold tree_diff_iterator_next.
  destruct (Z.eqb_spec (Z.land (flags st) MSP_ALL_BREAKPOINTS) 0) as [|_]; [contradiction|].
  cbn [negb]. rewrite Hts, Hnbps, Hbps, Hcbi.
  replace (Z.of_nat i <? size_t (Z.of_nat (length bps) - 1)) with true
    by (symmetry; apply Z.ltb_lt; unfold size_t; rewrite Z.mod_small; lia).
  rewrite (array_get_lookup bps i b0 Hi). cbn [bind].
  destruct (Z.eqb_spec b0 (next_breakpoint st)) as [Heq|Hneq]; cbn [negb bind].
  - (* a record starts here *)
    destruct rest as [|r rest0].
    { exfalso. rewrite Hnb in Heq. lia. }
    rewrite Hnb in Heq.
    destruct (next_tree_step s bps rs Hholds Hinv Hrange done rest0 r st cr0 outs Hat)
      as (st1 & Hnext & Hat1 & Hframe).
    rewrite Hnext. cbn [bind Z.ltb Z.compare Z.eqb Pos.eqb negb].
    pose proof Hframe as (_ & Hfl1 & _ & Hcbi1 & Hnb1 & _).
    cbn [current_breakpoint_index set_breakpoint_cursor next_breakpoint length_out
         nodes_out nodes_in_out].
    rewrite Hcbi1, Hcbi, Hsz.
    rewrite (array_get_lookup bps (S i) b1 Hi1). cbn [bind].
    replace (Z.of_nat (S i) - 1) with (Z.of_nat i) by lia.
    rewrite (array_get_lookup bps i b0 Hi). cbn [bind].
    set (grp := leading (cr_left r) (r :: rest0)) in *.
    set (rest' := trailing (cr_left r) (r :: rest0)) in *.
    assert (Hrgrp : In r grp) by (unfold grp; simpl; rewrite Z.eqb_refl; now left).
    pose proof Hat1 as (Hrs1 & Hlt1 & _).
    assert (Hgrp : Forall (fun x => cr_left x = cr_left r) grp) by apply leading_all.
    rewrite List.Forall_forall in Hgrp.
    assert (Hrest' : forall x, In x rest' -> b1 <= cr_left x).
    { intros x Hx. apply (sorted_lookup_next bps i b0 b1); auto using bps_sorted.
      - apply left_is_breakpoint. rewrite Hrs1. apply List.in_app_iff. now right.
      - rewrite Heq. apply Hlt1; [|exact Hx]. apply List.in_app_iff. now right. }
    eexists _, (done ++ grp), rest', _. split; [reflexivity|]. split.
    + unfold breakpoint_at. cbn [flags current_breakpoint_index next_breakpoint
                                  set_breakpoint_cursor].
      split; [exact Hat1|]. split; [now rewrite Hfl1|]. split; [reflexivity|].
      split; [|split; [|exact Hrest']].
      * rewrite Hnb1, Hnb. unfold u32.
        destruct rest' as [|x rest1] eqn:E.
        -- rewrite Z.mod_small; lia.
        -- assert (Hx : In x rs).
           { rewrite Hrs1. apply List.in_app_iff. right. now left. }
           destruct (inv_record _ _ _ Hinv x Hx) as (Hxl & HxL & _).
           rewrite Z.mod_small; lia.
      * intros a Ha. apply List.in_app_iff in Ha as [Ha|Ha].
        -- specialize (Hdone a Ha). lia.
        -- rewrite (Hgrp a Ha). lia.
    + unfold breakpoint_step. cbn [length_out nodes_out nodes_in_out].
      split; [unfold u32; apply Z.mod_small; lia|]. split.
      * intros Hmem. exfalso. apply mem_not_In in Hmem. apply Hmem.
        rewrite Heq. apply List.in_map. rewrite Hrs. apply List.in_app_iff. right. now left.
      * intros _. f_equal. rewrite Hrs1, !List.filter_app.
        rewrite (filter_none _ done), (filter_all _ grp), (filter_none _ rest').
        -- now rewrite List.app_nil_r.
        -- intros x Hx. apply Z.eqb_neq. specialize (Hrest' x Hx). lia.
        -- intros x Hx. apply Z.eqb_eq. rewrite (Hgrp x Hx). lia.
        -- intros x Hx. apply Z.eqb_neq. specialize (Hdone x Hx). lia.
  - (* no record starts here *)
    cbn [current_breakpoint_index set_breakpoint_cursor next_breakpoint length_out
         nodes_out nodes_in_out].
    rewrite Hcbi, Hsz.
    rewrite (array_get_lookup bps (S i) b1 Hi1). cbn [bind].
    replace (Z.of_nat (S i) - 1) with (Z.of_nat i) by lia.
    rewrite (array_get_lookup bps i b0 Hi). cbn [bind].
    assert (Hrest' : forall x, In x rest -> b0 < cr_left x).
    { intros x Hx. destruct rest as [|r rest0]; [contradiction|].
      assert (b0 < cr_left r) by (specialize (Hrest r (or_introl eq_refl)); lia).
      destruct Hx as [<-|Hx]; [assumption|].
      pose proof (inv_sorted _ _ _ Hinv) as Hs. rewrite Hrs, List.map_app in Hs.
      apply sorted_app_r in Hs. simpl in Hs. apply StronglySorted_inv in Hs as [_ Hall].
      rewrite List.Forall_forall in Hall.
      specialize (Hall (cr_left x) (List.in_map cr_left _ _ Hx)). lia. }
    eexists _, done, rest, _. split; [reflexivity|]. split.
    + unfold breakpoint_at. cbn [flags current_breakpoint_index next_breakpoint
                                  set_breakpoint_cursor].
      split; [apply iterator_at_set_breakpoint_cursor; exact Hat|].
      split; [exact Hfl|]. split; [reflexivity|]. split; [exact Hnb|].
      split.
      * intros a Ha. specialize (Hdone a Ha). lia.
      * intros x Hx. apply (sorted_lookup_next bps i b0 b1); auto using bps_sorted.
        apply left_is_breakpoint. rewrite Hrs. apply List.in_app_iff. now right.
    + unfold breakpoint_step. cbn [length_out nodes_out nodes_in_out].
      split; [unfold u32; apply Z.mod_small; lia|]. split; [auto|].
      intros Hmem. exfalso. apply mem_In in Hmem.
      apply List.in_map_iff in Hmem as (x & Hxl & Hx).
      rewrite Hrs in Hx. apply List.in_app_iff in Hx as [Hx|Hx].
      * specialize (Hdone x Hx). lia.
      * specialize (Hrest' x Hx). lia.
Qed.

(** The call at the last breakpoint. *)
Lemma next_breakpoint_end (done rest : list coalescence_record_t)
  (st : tree_diff_iterator_t) (cr0 : coalescence_record_t) (outs : step_t) :
  breakpoint_at s rs (length bps - 1) (num_loci s) done rest st ->
  tree_diff_iterator_next st cr0 outs = Done (0, st, outs) /\
  iterator_at s rs rs [] st.
Proof using Hholds Hinv Hrange Hbok.
  intros (Hat & Hfl & Hcbi & Hnb & Hdone & Hrest).
  pose proof Hat as (Hrs & Hlt & Hts & _).
  pose proof Hholds as (_ & Hnbps & Hbps & _).
  pose proof Hrange as (_ & Hnbr & _).
  pose proof (lookup_lt_Some _ _ _ bps_first) as Hlen.
  split.
  - unfold tree_diff_iterator_next.
    destruct (Z.eqb_spec (Z.land (flags st) MSP_ALL_BREAKPOINTS) 0) as [|_]; [contradiction|].
    cbn [negb]. rewrite Hts, Hnbps, Hcbi.
    replace (Z.of_nat (length bps - 1) <? size_t (Z.of_nat (length bps) - 1)) with false;
      [reflexivity|].
    symmetry. apply Z.ltb_ge. unfold size_t. rewrite Z.mod_small; lia.
  - destruct rest as [|x rest0].
    + now rewrite (at_end_all s rs done st Hat) in Hat.
    + exfalso. specialize (Hrest x (or_introl eq_refl)).
      assert (Hx : In x rs) by (rewrite Hrs; apply List.in_app_iff; right; now left).
      destruct (inv_record _ _ _ Hinv x Hx) as (Hxl & HxL & _). lia.
Qed.

(** A complete run in the all-breakpoints mode. *)
Lemma run_all_breakpoints (cr0 : coalescence_record_t) :
  forall (k i : nat) (b : Z) (done rest : list coalescence_record_t)
         (st : tree_diff_iterator_t) (outs : step_t) (fuel : nat),
    (i + k + 1 = length bps)%nat -> (k < fuel)%nat ->
    bps !! i = Some b ->
    breakpoint_at s rs i b done rest st ->
    exists steps st' outs',
      iterate fuel st cr0 outs = Done (steps, 0, st', outs') /\
      length steps = k /\
      total_span steps = num_loci s - b /\
      iterator_at s rs rs [] st' /\
      forall (j : nat) (step : step_t),
        steps !! j = Some step ->
        exists b0 b1,
          bps !! (i + j)%nat = Some b0 /\ bps !! S (i + j) = Some b1 /\
          breakpoint_step rs b0 b1 step.
Proof using Hholds Hinv Hrange Hbok Hcover.
  induction k as [|k IH]; intros i b done rest st outs fuel Hik Hfuel Hi Hbp;
    (destruct fuel as [|fuel]; [lia|]); cbn [iterate].
  - assert (Hil : i = (length bps - 1)%nat) by lia.
    assert (Hb : b = num_loci s).
    { pose proof bps_last as Hl. rewrite <- Hil, Hi in Hl. now inversion Hl. }
    subst b. rewrite Hil in Hbp.
    destruct (next_breakpoint_end done rest st cr0 outs Hbp) as (Hnext & Hat).
    rewrite Hnext. cbn [bind Z.eqb].
    exists [], st, outs. split; [reflexivity|]. split; [reflexivity|].
    split; [unfold total_span; simpl; lia|].
    split; [exact Hat|]. intros j step Hj. destruct j; discriminate.
  - destruct (lookup_lt_is_Some_2 bps (S i) ltac:(lia)) as (b1 & Hi1).
    destruct (next_breakpoint_step i b b1 done rest st cr0 outs Hi Hi1 Hbp)
      as (st1 & done1 & rest1 & step1 & Hnext & Hbp1 & Hstep1).
    rewrite Hnext. cbn [bind Z.eqb Pos.eqb].
    destruct (IH (S i) b1 done1 rest1 st1 step1 fuel ltac:(lia) ltac:(lia) Hi1 Hbp1)
      as (steps & st' & outs' & Hrun & Hlen & Hspan & Hat & Hsteps).
    rewrite Hrun. cbn [bind].
    eexists _, st', outs'. split; [reflexivity|]. split; [simpl; now rewrite Hlen|].
    split.
    { unfold total_span in *. cbn [fold_right]. rewrite Hspan.
      destruct Hstep1 as (Hl1 & _). rewrite Hl1. lia. }
    split; [exact Hat|].
    intros j step Hj. destruct j as [|j].
    + simpl in Hj. inversion Hj; subst step.
      exists b, b1. rewrite Nat.add_0_r. auto.
    + simpl in Hj. destruct (Hsteps j step Hj) as (b0' & b1' & H0 & H1 & H2).
      exists b0', b1'. replace (i + S j)%nat with (S i + j)%nat by lia. auto.
Qed.

End Breakpoints.

(** ** The iterator: span partition, end of iteration, arenas *)

Lemma data_model_tree_invariants (n l : Z) (bps : list Z)
  (rs : list coalescence_record_t) :
  data_model_invariants n l bps rs = true -> tree_invariants n l rs = true.
Proof.
  unfold data_model_invariants. intros H.
  apply andb_true_iff in H as [H _]. now apply andb_true_iff in H as [H _].
Qed.

Lemma in_flat_map_length (e : tree_node_list_t) (t : list tree_node_list_t) :
  In e t -> (length (snd e) <= length (flat_map snd t))%nat.
Proof.
  induction t as [|x t IH]; [contradiction|]. intros [->|H]; simpl;
    rewrite List.length_app; [lia|]. specialize (IH H). lia.
Qed.

(** C1: for a store that satisfies the data-model invariants of §3, a
    complete run of [tree_diff_iterator_next] in the distinct-trees mode
    ends with [End], the spans of its steps sum to [num_loci], and the left
    edges of the steps, from 0, are the distinct left values of the records. *)
Theorem distinct_trees_span_partition (s : tree_sequence_t) (bps : list Z)
  (rs : list coalescence_record_t) (fl : Z) (cr0 : coalescence_record_t)
  (outs : step_t) (fuel : nat) :
  store_holds s bps rs ->
  data_model_invariants (sample_size s) (num_loci s) bps rs = true ->
  store_in_range s ->
  Z.land fl MSP_ALL_BREAKPOINTS = 0 ->
  (length rs < fuel)%nat ->
  exists steps st' outs',
    iterate fuel (snd (tree_diff_iterator_alloc s fl)) cr0 outs
    = Done (steps, 0, st', outs') /\
    total_span steps = num_loci s /\
    step_edges 0 steps = nodup Z.eq_dec (map cr_left rs).
Proof.
  intros Hholds Hdm Hrange Hfl Hfuel.
  pose proof (data_model_tree_invariants _ _ _ _ Hdm) as Hinv.
  destruct (alloc_at s bps rs Hholds Hinv Hrange fl) as (_ & Hat & Hflags & _).
  destruct (run_distinct s bps rs Hholds Hinv Hrange cr0 (length rs) rs []
              (snd (tree_diff_iterator_alloc s fl)) outs fuel
              (Nat.le_refl _) Hfuel Hat ltac:(now rewrite Hflags))
    as (steps & st' & outs' & Hrun & _ & Hedges & Hspan).
  exists steps, st', outs'. split; [exact Hrun|].
  destruct rs as [|r rest0] eqn:E.
  - split; [|exact Hedges]. rewrite Hspan. symmetry.
    now apply (inv_empty (sample_size s)).
  - rewrite <- E in Hinv.
    pose proof (first_left_zero s rs Hinv r rest0 E) as Hz.
    rewrite Hz in Hedges, Hspan. split; [lia|exact Hedges].
Qed.

Lemma distinct_trees_span_partition_witness :
  exists steps st' outs',
    iterate 6 (snd (tree_diff_iterator_alloc S2_store 0)) record_zero blank_step
    = Done (steps, 0, st', outs') /\
    total_span steps = num_loci S2_store /\
    step_edges 0 steps = nodup Z.eq_dec (map cr_left S2_sorted).
Proof.
  apply (distinct_trees_span_partition S2_store [0; 4; 10] S2_sorted 0
           record_zero blank_step 6).
  - apply store_of_holds.
  - vm_compute. reflexivity.
  - unfold store_in_range. repeat split.
  - reflexivity.
  - simpl. lia.
Defined.

(** C10: in the distinct-trees mode, for a store that satisfies the
    data-model invariants, once a call of [tree_diff_iterator_next] has
    returned 0 ([End]), every later call returns 0 too and leaves the
    caller's [length] and [nodes_in] as the first [End] left them. *)
Theorem end_is_absorbing (s : tree_sequence_t) (bps : list Z)
  (rs : list coalescence_record_t) (fl : Z) (cr0 : coalescence_record_t)
  (outs : step_t) (count : nat) :
  store_holds s bps rs ->
  data_model_invariants (sample_size s) (num_loci s) bps rs = true ->
  store_in_range s ->
  Z.land fl MSP_ALL_BREAKPOINTS = 0 ->
  exists rets st',
    call_next count (snd (tree_diff_iterator_alloc s fl)) cr0 outs = Done (rets, st') /\
    forall (i j : nat) (ri rj : Z) (oi oj : step_t),
      (i < j)%nat ->
      nth_error rets i = Some (ri, oi) -> ri = 0 ->
      nth_error rets j = Some (rj, oj) ->
      rj = 0 /\ length_out oj = length_out oi /\ nodes_in_out oj = nodes_in_out oi.
Proof.
  intros Hholds Hdm Hrange Hfl.
  pose proof (data_model_tree_invariants _ _ _ _ Hdm) as Hinv.
  destruct (alloc_at s bps rs Hholds Hinv Hrange fl) as (_ & Hat & Hflags & _).
  destruct (calls_distinct s bps rs Hholds Hinv Hrange cr0 count rs []
              (snd (tree_diff_iterator_alloc s fl)) outs Hat ltac:(now rewrite Hflags))
    as (rets & st' & Hcalls & Habs & _).
  exists rets, st'. split; [exact Hcalls|].
  intros i j ri rj oi oj. now apply end_absorbing_nth.
Qed.

Lemma end_is_absorbing_witness :
  exists rets st',
    call_next 5 (snd (tree_diff_iterator_alloc S2_store 0)) record_zero blank_step
    = Done (rets, st') /\
    forall (i j : nat) (ri rj : Z) (oi oj : step_t),
      (i < j)%nat ->
      nth_error rets i = Some (ri, oi) -> ri = 0 ->
      nth_error rets j = Some (rj, oj) ->
      rj = 0 /\ length_out oj = length_out oi /\ nodes_in_out oj = nodes_in_out oi.
Proof.
  apply (end_is_absorbing S2_store [0; 4; 10] S2_sorted 0 record_zero blank_step 5).
  - apply store_of_holds.
  - vm_compute. reflexivity.
  - unfold store_in_range. repeat split.
  - reflexivity.
Defined.

(** The all-breakpoints mode on a well-formed store: for a store whose
    records give a valid local tree at every coordinate and whose breakpoints
    rise from 0 to [L] and hold every left and right value, a run makes
    [num_breakpoints - 1] steps and then returns [End]; the k-th span is
    [breakpoints[k+1] - breakpoints[k]], the spans sum to [L], a step that
    starts at a breakpoint that is no left value has empty in and out
    lists, and a step that starts at a left value brings in the records
    that start there. *)
Theorem all_breakpoints_span_partition (s : tree_sequence_t) (bps : list Z)
  (rs : list coalescence_record_t) (fl : Z) (cr0 : coalescence_record_t)
  (outs : step_t) (fuel : nat) :
  store_holds s bps rs ->
  tree_invariants (sample_size s) (num_loci s) rs = true ->
  breakpoints_ok (num_loci s) bps = true ->
  breakpoints_cover bps rs = true ->
  store_in_range s ->
  Z.land fl MSP_ALL_BREAKPOINTS <> 0 ->
  (length bps <= fuel)%nat ->
  exists steps st' outs',
    iterate fuel (snd (tree_diff_iterator_alloc s fl)) cr0 outs
    = Done (steps, 0, st', outs') /\
    S (length steps) = length bps /\
    total_span steps = num_loci s /\
    forall (k : nat) (step : step_t),
      steps !! k = Some step ->
      exists b0 b1,
        bps !! k = Some b0 /\ bps !! S k = Some b1 /\
        length_out step = b1 - b0 /\
        (mem b0 (map cr_left rs) = false ->
         nodes_out step = [] /\ nodes_in_out step = []) /\
        (mem b0 (map cr_left rs) = true ->
         nodes_in_out step
         = map node_of (List.filter (fun r => cr_left r =? b0) rs)).
Proof.
  intros Hholds Hinv Hbok Hcover Hrange Hfl Hfuel.
  pose proof (bps_first s bps Hbok) as Hfirst.
  pose proof (lookup_lt_Some _ _ _ Hfirst) as Hlen.
  destruct (run_all_breakpoints s bps rs Hholds Hinv Hrange Hbok Hcover cr0
              (length bps - 1) 0 0 [] rs (snd (tree_diff_iterator_alloc s fl))
              outs fuel ltac:(lia) ltac:(lia) Hfirst
              (alloc_breakpoint_at s bps rs Hholds Hinv Hrange Hbok Hcover fl Hfl))
    as (steps & st' & outs' & Hrun & Hsteps & Hspan & _ & Hall).
  exists steps, st', outs'. split; [exact Hrun|]. split; [lia|].
  split; [lia|]. intros k step Hk.
  destruct (Hall k step Hk) as (b0 & b1 & H0 & H1 & Hstep).
  exists b0, b1. auto.
Qed.

Lemma all_breakpoints_span_partition_witness :
  exists steps st' outs',
    iterate 4 (snd (tree_diff_iterator_alloc S4_store MSP_ALL_BREAKPOINTS))
      record_zero blank_step
    = Done (steps, 0, st', outs') /\
    S (length steps) = length [0; 2; 4; 10] /\
    total_span steps = num_loci S4_store /\
    forall (k : nat) (step : step_t),
      steps !! k = Some step ->
      exists b0 b1,
        [0; 2; 4; 10] !! k = Some b0 /\ [0; 2; 4; 10] !! S k = Some b1 /\
        length_out step = b1 - b0 /\
        (mem b0 (map cr_left S2_sorted) = false ->
         nodes_out step = [] /\ nodes_in_out step = []) /\
        (mem b0 (map cr_left S2_sorted) = true ->
         nodes_in_out step
         = map node_of (List.filter (fun r => cr_left r =? b0) S2_sorted)).
Proof.
  apply (all_breakpoints_span_partition S4_store [0; 2; 4; 10] S2_sorted
           MSP_ALL_BREAKPOINTS record_zero blank_step 4).
  - apply store_of_holds.
  - vm_compute. reflexivity.
  - vm_compute. reflexivity.
  - vm_compute. reflexivity.
  - unfold store_in_range. repeat split.
  - discriminate.
  - simpl. lia.
Defined.

(** C3, the defect on a store with no record: on the store of scenario S5
    (no record, the breakpoints 0 and [L]) the first call in the
    all-breakpoints mode finds [breakpoints[0]] equal to [next_breakpoint],
    asks [tree_diff_iterator_next_tree] for a tree, gets 0 and stops at its
    own assertion [ret == 1], where the claim has two empty steps; on the
    same store the distinct-trees mode returns [End] at once. *)
Theorem all_breakpoints_empty_store_aborts :
  tree_diff_iterator_next (snd (tree_diff_iterator_alloc S5_store MSP_ALL_BREAKPOINTS))
    record_zero blank_step
  = AssertFailed /\
  (exists st' outs',
      tree_diff_iterator_next_tree
        (snd (tree_diff_iterator_alloc S5_store MSP_ALL_BREAKPOINTS))
        record_zero blank_step
      = Done (0, st', outs')) /\
  (exists st' outs',
      tree_diff_iterator_next (snd (tree_diff_iterator_alloc S5_store 0))
        record_zero blank_step
      = Done (0, st', outs')).
Proof.
  split; [reflexivity|]. split; do 2 eexists; vm_compute; reflexivity.
Qed.

(** C6 (amended): over a store whose records give a valid local tree at
    every coordinate (and, in the all-breakpoints mode, whose breakpoints
    rise from 0 to [L] and hold every left and right value), when a run has
    reached [End] each arena has as many objects out as are still linked
    from the iterator: the tree-node arena the nodes of [nodes_in] and of
    the lists of the map, the other two one object per list of the map.
    With a record in the table these are not zero: the step frees a list one
    call after its records expire, and nothing frees the list of the records
    that end at [L]. *)
Theorem arenas_at_end (s : tree_sequence_t) (bps : list Z)
  (rs : list coalescence_record_t) (fl : Z) (cr0 : coalescence_record_t)
  (outs : step_t) (fuel : nat) :
  store_holds s bps rs ->
  tree_invariants (sample_size s) (num_loci s) rs = true ->
  store_in_range s ->
  (Z.land fl MSP_ALL_BREAKPOINTS <> 0 ->
   breakpoints_ok (num_loci s) bps = true /\ breakpoints_cover bps rs = true) ->
  (length rs + length bps < fuel)%nat ->
  exists steps st' outs',
    iterate fuel (snd (tree_diff_iterator_alloc s fl)) cr0 outs
    = Done (steps, 0, st', outs') /\
    heap_allocs (tree_node_heap st') - heap_frees (tree_node_heap st')
    = Z.of_nat (length (nodes_in st'))
      + Z.of_nat (length (flat_map snd (active_nodes st'))) /\
    heap_allocs (tree_node_list_heap st') - heap_frees (tree_node_list_heap st')
    = Z.of_nat (length (active_nodes st')) /\
    heap_allocs (avl_node_heap st') - heap_frees (avl_node_heap st')
    = Z.of_nat (length (active_nodes st')) /\
    (rs <> [] ->
     heap_frees (tree_node_heap st') < heap_allocs (tree_node_heap st') /\
     heap_frees (tree_node_list_heap st') < heap_allocs (tree_node_list_heap st') /\
     heap_frees (avl_node_heap st') < heap_allocs (avl_node_heap st')).
Proof.
  intros Hholds Hinv Hrange Hbp Hfuel.
  assert (Hrun : exists steps st' outs',
             iterate fuel (snd (tree_diff_iterator_alloc s fl)) cr0 outs
             = Done (steps, 0, st', outs') /\ iterator_at s rs rs [] st').
  { destruct (Z.eq_dec (Z.land fl MSP_ALL_BREAKPOINTS) 0) as [Hfl|Hfl].
    - destruct (alloc_at s bps rs Hholds Hinv Hrange fl) as (_ & Hat & Hflags & _).
      destruct (run_distinct s bps rs Hholds Hinv Hrange cr0 (length rs) rs []
                  (snd (tree_diff_iterator_alloc s fl)) outs fuel
                  (Nat.le_refl _) ltac:(lia) Hat ltac:(now rewrite Hflags))
        as (steps & st' & outs' & Hrun & Hat' & _).
      eauto.
    - destruct (Hbp Hfl) as (Hbok & Hcover).
      pose proof (bps_first s bps Hbok) as Hfirst.
      pose proof (lookup_lt_Some _ _ _ Hfirst) as Hlen.
      destruct (run_all_breakpoints s bps rs Hholds Hinv Hrange Hbok Hcover cr0
                  (length bps - 1) 0 0 [] rs (snd (tree_diff_iterator_alloc s fl))
                  outs fuel ltac:(lia) ltac:(lia) Hfirst
                  (alloc_breakpoint_at s bps rs Hholds Hinv Hrange Hbok Hcover fl Hfl))
        as (steps & st' & outs' & Hrun & _ & _ & Hat' & _).
      eauto. }
  destruct Hrun as (steps & st' & outs' & Hrun & Hat).
  destruct (end_accounting s rs Hinv st' Hat) as (Htree & Hlist & Havl & Hlast).
  exists steps, st', outs'. split; [exact Hrun|].
  split; [exact Htree|]. split; [exact Hlist|]. split; [exact Havl|].
  intros Hne. destruct (Hlast Hne) as (Hsearch & Hexp).
  apply avl_search_key in Hsearch as (_ & Hin).
  pose proof (in_flat_map_length _ _ Hin) as Hlen. cbn [snd] in Hlen.
  assert (0 < length (expiring rs (num_loci s)))%nat
    by (destruct (expiring rs (num_loci s)); [contradiction|simpl; lia]).
  assert (0 < length (active_nodes st'))%nat
    by (destruct (active_nodes st'); [contradiction|simpl; lia]).
  lia.
Qed.

Lemma arenas_at_end_witness :
  exists steps st' outs',
    iterate 6 (snd (tree_diff_iterator_alloc S1_store 0)) record_zero blank_step
    = Done (steps, 0, st', outs') /\
    heap_allocs (tree_node_heap st') - heap_frees (tree_node_heap st')
    = Z.of_nat (length (nodes_in st'))
      + Z.of_nat (length (flat_map snd (active_nodes st'))) /\
    heap_allocs (tree_node_list_heap st') - heap_frees (tree_node_list_heap st')
    = Z.of_nat (length (active_nodes st')) /\
    heap_allocs (avl_node_heap st') - heap_frees (avl_node_heap st')
    = Z.of_nat (length (active_nodes st')) /\
    (S1_records <> [] ->
     heap_frees (tree_node_heap st') < heap_allocs (tree_node_heap st') /\
     heap_frees (tree_node_list_heap st') < heap_allocs (tree_node_list_heap st') /\
     heap_frees (avl_node_heap st') < heap_allocs (avl_node_heap st')).
Proof.
  apply (arenas_at_end S1_store [0; 10] S1_records 0 record_zero blank_step 6).
  - apply store_of_holds.
  - vm_compute. reflexivity.
  - unfold store_in_range. repeat split.
  - intros H. exfalso. apply H. reflexivity.
  - simpl. lia.
Defined.

(** Scenario S2 run to [End]: ten tree nodes allocated and five freed, two
    lists and two map nodes allocated and none freed. *)
Lemma arenas_unbalanced_at_end :
  exists steps st' outs',
    iterate 6 (snd (tree_diff_iterator_alloc S2_store 0)) record_zero blank_step
    = Done (steps, 0, st', outs') /\
    heap_allocs (tree_node_heap st') = 10 /\
    heap_frees (tree_node_heap st') = 5 /\
    heap_allocs (tree_node_list_heap st') = 2 /\
    heap_frees (tree_node_list_heap st') = 0 /\
    heap_allocs (avl_node_heap st') = 2 /\
    heap_frees (avl_node_heap st') = 0.
Proof.
  eexists _, _, _. split; [vm_compute; reflexivity|]. cbn. repeat split.
Qed.

(** * Further properties of the code *)

(** ** The store: comparators, allocation, creation, accessors *)

(** X1: both comparators are three-way comparisons of their keys (the left
    coordinate, the map key) with values -1, 0 and 1, computed without a
    subtraction that could wrap; so they are antisymmetric and transitive,
    as [qsort] and the ordered map require. *)
Theorem comparators_three_way :
  (forall a b : coalescence_record_t,
      cmp_coalescence_record a b
      = match cr_left a ?= cr_left b with Lt => -1 | Eq => 0 | Gt => 1 end) /\
  (forall a b : tree_node_list_t,
      cmp_tree_node_list a b
      = match fst a ?= fst b with Lt => -1 | Eq => 0 | Gt => 1 end) /\
  (forall a b : coalescence_record_t,
      cmp_coalescence_record b a = - cmp_coalescence_record a b) /\
  (forall a b : tree_node_list_t,
      cmp_tree_node_list b a = - cmp_tree_node_list a b) /\
  (forall a b c : coalescence_record_t,
      cmp_coalescence_record a b <= 0 -> cmp_coalescence_record b c <= 0 ->
      cmp_coalescence_record a c <= 0) /\
  (forall a b c : tree_node_list_t,
      cmp_tree_node_list a b <= 0 -> cmp_tree_node_list b c <= 0 ->
      cmp_tree_node_list a c <= 0).
Proof.
  unfold cmp_coalescence_record, cmp_tree_node_list.
  repeat split; intros;
    repeat match goal with
    | |- context [?x ?= ?y] => destruct (Z.compare_spec x y)
    | |- context [?x <? ?y] => destruct (Z.ltb_spec x y)
    | H : context [?x <? ?y] |- _ => destruct (Z.ltb_spec x y)
    end; lia.
Qed.

Lemma blank_blocks (self : tree_sequence_t) :
  Forall (fun b => is_null b = true) (blocks self) ->
  blocks self = [None; None; None; None; None; None].
Proof.
  unfold blocks. intros H.
  repeat match goal with
  | H : Forall _ (_ :: _) |- _ => apply List.Forall_cons_iff in H as [? H]
  end.
  repeat match goal with
  | H : is_null ?b = true |- _ => destruct b; [discriminate|clear H]
  end.
  reflexivity.
Qed.

Ltac split_malloc H :=
  repeat match type of H with
  | context [match ?o with [] => _ | _ :: _ => _ end] =>
      destruct o as [|[] ?] eqn:?; cbn in H
  end.

(** X2: [tree_sequence_alloc] on a store whose six pointers are NULL returns
    0 exactly when all six blocks were obtained and [MSP_ERR_NO_MEMORY]
    otherwise; either way [tree_sequence_free] then releases every block the
    call obtained. *)
Theorem alloc_then_free_balanced (self self' : tree_sequence_t) (m m' : mem_t)
  (ret : Z) :
  Forall (fun b => is_null b = true) (blocks self) ->
  tree_sequence_alloc self m = (ret, self', m') ->
  (ret = 0 \/ ret = MSP_ERR_NO_MEMORY) /\
  (ret = 0 <-> Forall (fun b => is_null b = false) (blocks self')) /\
  live_blocks (snd (tree_sequence_free self' m')) = live_blocks m.
Proof.
  intros Hblank Hrun. apply blank_blocks in Hblank.
  destruct self as [n l nr nb bp cl cr cn cc ct]. unfold blocks in Hblank. cbn in Hblank.
  inversion Hblank; subst. clear Hblank.
  unfold tree_sequence_alloc, malloc in Hrun. cbn in Hrun.
  split_malloc Hrun; inversion Hrun; subst; clear Hrun;
    unfold tree_sequence_free, blocks, MSP_ERR_NO_MEMORY; cbn.
  all: split; [auto|]; split; [|lia].
  all: split; [intros H; try discriminate H; repeat constructor
              |intros H; try reflexivity;
               repeat match goal with
               | H : Forall _ (_ :: _) |- _ => apply List.Forall_cons_iff in H as [? H]
               end; discriminate].
Qed.

Lemma alloc_then_free_balanced_witness :
  (MSP_ERR_NO_MEMORY = 0 \/ MSP_ERR_NO_MEMORY = MSP_ERR_NO_MEMORY) /\
  (MSP_ERR_NO_MEMORY = 0 <->
   Forall (fun b => is_null b = false)
     (blocks (snd (fst (tree_sequence_alloc (set_sizes blank_store 3 5 4 10)
                          {| oracle := [true; true; false]; live_blocks := 0 |}))))) /\
  live_blocks
    (snd (tree_sequence_free
            (snd (fst (tree_sequence_alloc (set_sizes blank_store 3 5 4 10)
                         {| oracle := [true; true; false]; live_blocks := 0 |})))
            (snd (tree_sequence_alloc (set_sizes blank_store 3 5 4 10)
                    {| oracle := [true; true; false]; live_blocks := 0 |}))))
  = 0%nat.
Proof.
  apply (alloc_then_free_balanced (set_sizes blank_store 3 5 4 10) _
           {| oracle := [true; true; false]; live_blocks := 0 |}).
  - repeat constructor.
  - reflexivity.
Defined.

Lemma get_breakpoints_holds (self : tree_sequence_t) (bps : list Z)
  (rs : list coalescence_record_t) (buf : list Z) :
  store_holds self bps rs ->
  Z.of_nat (length bps) < 2 ^ 62 ->
  tree_sequence_get_breakpoints self (Some buf)
  = if (length buf <? length bps)%nat then Undefined
    else Done (0, Some (bps ++ drop (length bps) buf)).
Proof.
  intros (_ & Hnb & Hbp & _) Hsmall.
  unfold tree_sequence_get_breakpoints, memcpy. rewrite Hbp, Hnb.
  rewrite malloc_count, Nat2Z.id by lia.
  rewrite Nat.ltb_irrefl, orb_false_r.
  destruct (length buf <? length bps)%nat; [reflexivity|].
  cbn [bind]. now rewrite firstn_all.
Qed.

(** X3: for a store that holds its breakpoints, [tree_sequence_get_breakpoints]
    returns 0 and copies exactly [num_breakpoints] entries to the start of
    the caller's buffer, leaving the rest of the buffer as it was; it checks
    nothing, so a buffer with fewer entries than that is written past its
    end. *)
Theorem get_breakpoints_copies (self : tree_sequence_t) (bps : list Z)
  (rs : list coalescence_record_t) (buf : list Z) :
  store_holds self bps rs ->
  Z.of_nat (length bps) < 2 ^ 62 ->
  ((length bps <= length buf)%nat ->
   tree_sequence_get_breakpoints self (Some buf)
   = Done (0, Some (bps ++ drop (length bps) buf))) /\
  ((length buf < length bps)%nat ->
   tree_sequence_get_breakpoints self (Some buf) = Undefined).
Proof.
  intros Hholds Hsmall.
  rewrite (get_breakpoints_holds self bps rs buf Hholds Hsmall).
  split; intros H.
  - destruct (Nat.ltb_spec (length buf) (length bps)); [lia|reflexivity].
  - destruct (Nat.ltb_spec (length buf) (length bps)); [reflexivity|lia].
Qed.

Lemma get_breakpoints_copies_witness :
  ((length [0; 4; 10] <= length [7; 7; 7; 7])%nat ->
   tree_sequence_get_breakpoints S2_store (Some [7; 7; 7; 7])
   = Done (0, Some ([0; 4; 10] ++ drop (length [0; 4; 10]) [7; 7; 7; 7]))) /\
  ((length [7; 7; 7; 7] < length [0; 4; 10])%nat ->
   tree_sequence_get_breakpoints S2_store (Some [7; 7; 7; 7]) = Undefined).
Proof.
  apply (get_breakpoints_copies S2_store [0; 4; 10] S2_sorted [7; 7; 7; 7]).
  - apply store_of_holds.
  - simpl. lia.
Defined.

Lemma array_set_inside {A : Type} (l : list A) (i : Z) (v : A) :
  0 <= i < Z.of_nat (length l) ->
  exists l', array_set (Some l) i v = Done (Some l') /\ length l' = length l.
Proof.
  intros Hi. unfold array_set.
  destruct (Z.leb_spec 0 i); [|lia].
  destruct (Z.ltb_spec i (Z.of_nat (length l))); [|lia].
  eexists. split; [reflexivity|apply length_insert].
Qed.

Lemma u32_inside (i n : Z) : 0 <= i < n -> 0 <= u32 i < n.
Proof.
  intros Hi. unfold u32.
  pose proof (Z.mod_pos_bound i (2 ^ 32) ltac:(lia)).
  pose proof (Z.mod_le i (2 ^ 32) ltac:(lia) ltac:(lia)). lia.
Qed.

(** The copy loop stays inside the five blocks whatever the number of
    records: a wrapped index of the children is below the index it wraps. *)
Lemma create_scatter_runs (rs : list coalescence_record_t) :
  forall (count j : nat) (self : tree_sequence_t) (l r n c t : list Z),
    (j + count = length rs)%nat ->
    ts_left self = Some l -> ts_right self = Some r -> ts_node self = Some n ->
    ts_children self = Some c -> ts_time self = Some t ->
    length l = length rs -> length r = length rs -> length n = length rs ->
    length c = (2 * length rs)%nat -> length t = length rs ->
    exists self',
      create_scatter count (Z.of_nat j) (Some rs) self = Done self' /\
      breakpoints self' = breakpoints self /\
      is_null (ts_left self') = false /\ is_null (ts_right self') = false /\
      is_null (ts_children self') = false /\ is_null (ts_node self') = false /\
      is_null (ts_time self') = false.
Proof.
  induction count as [|count IH]; intros j self l r n c t Hj Hl Hr Hn Hc Ht Ll Lr Ln Lc Lt.
  - exists self. cbn [create_scatter]. rewrite Hl, Hr, Hn, Hc, Ht. now repeat split.
  - destruct (lookup_lt_is_Some_2 rs j) as [rec Hrec]; [lia|].
    cbn [create_scatter]. unfold create_scatter_one.
    rewrite (array_get_lookup _ _ _ Hrec). cbn [bind].
    rewrite Hl, Hr, Hn, Hc, Ht.
    rewrite (array_set_insert l), (array_set_insert r), (array_set_insert n) by lia.
    cbn [bind].
    destruct (array_set_inside c (u32 (2 * Z.of_nat j)) (fst (cr_children rec)))
      as (c1 & -> & Lc1); [apply u32_inside; lia|].
    cbn [bind].
    destruct (array_set_inside c1 (u32 (2 * Z.of_nat j + 1)) (snd (cr_children rec)))
      as (c2 & -> & Lc2); [apply u32_inside; lia|].
    cbn [bind]. rewrite array_set_insert by lia. cbn [bind].
    replace (Z.of_nat j + 1) with (Z.of_nat (S j)) by lia.
    edestruct (IH (S j)) as (self' & Hrun & Hbp & Hnull);
      [ | | | | | | | | | | | exists self'; rewrite Hrun; split; [reflexivity|];
                              split; [exact Hbp|exact Hnull] ];
      try reflexivity; rewrite ?length_insert; lia.
Qed.

Section CreateMore.

Variable qsort : (coalescence_record_t -> coalescence_record_t -> Z) ->
                 list coalescence_record_t -> list coalescence_record_t.

Hypothesis qsort_sorts : forall l,
  Permutation l (qsort cmp_coalescence_record l) /\
  Sorted (fun a b => cmp_coalescence_record a b <= 0) (qsort cmp_coalescence_record l).

(** The store a successful [tree_sequence_create] leaves, whatever the store
    held before. *)
Lemma create_result (self : tree_sequence_t) (sim : msp_t) (m : mem_t) :
  Forall (eq true) (oracle m) ->
  Z.of_nat (length (sim_breakpoints sim)) < 2 ^ 32 ->
  Z.of_nat (length (sim_records sim)) <= 2 ^ 31 ->
  exists m',
    tree_sequence_create qsort self sim m
    = Done (0, store_of (sim_sample_size sim) (sim_num_loci sim) (sim_breakpoints sim)
                 (qsort cmp_coalescence_record (sim_records sim)), m') /\
    live_blocks m' = (live_blocks m + 6)%nat.
Proof using qsort_sorts.
  intros Hm Hnb Hnr.
  destruct (qsort_sorts (sim_records sim)) as [Hperm Hsorted].
  set (rs := qsort cmp_coalescence_record (sim_records sim)) in *.
  assert (Hlen : length rs = length (sim_records sim))
    by (symmetry; now apply Permutation_length).
  unfold tree_sequence_create, tree_sequence_alloc,
    msp_get_num_breakpoints, msp_get_num_coalescence_records.
  cbn [num_breakpoints num_records set_sizes set_breakpoints].
  destruct (malloc_succeeds 0 (Z.of_nat (length (sim_breakpoints sim))) 4 m Hm)
    as (m1 & -> & Hm1 & L1).
  cbn [is_null].
  destruct (malloc_succeeds 0 (Z.of_nat (length (sim_records sim))) 4 m1 Hm1)
    as (m2 & -> & Hm2 & L2).
  destruct (malloc_succeeds 0 (Z.of_nat (length (sim_records sim))) 4 m2 Hm2)
    as (m3 & -> & Hm3 & L3).
  destruct (malloc_succeeds 0 (2 * Z.of_nat (length (sim_records sim))) 4 m3 Hm3)
    as (m4 & -> & Hm4 & L4).
  destruct (malloc_succeeds 0 (Z.of_nat (length (sim_records sim))) 4 m4 Hm4)
    as (m5 & -> & Hm5 & L5).
  destruct (malloc_succeeds 0 (Z.of_nat (length (sim_records sim))) 8 m5 Hm5)
    as (m6 & -> & Hm6 & L6).
  cbn [is_null orb].
  rewrite !malloc_count by lia. rewrite !Nat2Z.id.
  cbn [breakpoints set_columns set_breakpoints num_breakpoints num_records].
  unfold msp_get_breakpoints. rewrite copy_into_fresh.
  cbn [bind Z.eqb negb].
  destruct (malloc_succeeds record_zero (Z.of_nat (length (sim_records sim))) 32 m6 Hm6)
    as (m7 & -> & Hm7 & L7).
  rewrite malloc_count, Nat2Z.id by lia.
  unfold msp_get_coalescence_records. rewrite copy_into_fresh.
  cbn [bind Z.eqb negb option_map].
  destruct (Z.leb_spec (2 ^ 32) (Z.of_nat (length (sim_records sim)))); [lia|].
  fold rs. rewrite ?Nat2Z.id.
  match goal with
  | |- context [create_scatter _ 0 _ ?s] =>
      edestruct (create_scatter_spec rs ltac:(lia) (length rs) 0 s)
        as (self' & Hrun & Hs & Hnl & Hnr' & Hnb' & Hbp & El & Er & En & Ec & Et)
  end; try reflexivity; rewrite ?repeat_length.
  all: try lia.
  change (Z.of_nat 0) with 0 in Hrun. rewrite Hlen in Hrun. rewrite Hrun.
  cbn [bind]. exists (free (Some rs) m7). split.
  - do 3 f_equal. unfold store_of.
    destruct self' as [n' l' nr' nb' bp' cl' cr' cn' cc' ct'].
    cbn in Hs, Hnl, Hnr', Hnb', Hbp, El, Er, En, Ec, Et. subst.
    now rewrite Hlen.
  - unfold free. cbn [live_blocks]. lia.
Qed.

(** X4: after a successful [tree_sequence_create] from a source of at most
    2^31 records (beyond that the 32-bit indices of the children wrap),
    whatever the store held before, the accessors read back the source:
    [tree_sequence_get_breakpoints] gives its breakpoints,
    [tree_sequence_get_record] at [j] gives the j-th record in the order
    [qsort] left them, and at any index from the count on it gives
    [MSP_ERR_OUT_OF_BOUNDS]. *)
Theorem create_read_back (self : tree_sequence_t) (sim : msp_t) (m : mem_t)
  (buf : list Z) :
  Forall (eq true) (oracle m) ->
  Z.of_nat (length (sim_breakpoints sim)) < 2 ^ 32 ->
  Z.of_nat (length (sim_records sim)) <= 2 ^ 31 ->
  (length (sim_breakpoints sim) <= length buf)%nat ->
  exists self' m',
    tree_sequence_create qsort self sim m = Done (0, self', m') /\
    tree_sequence_get_num_breakpoints self'
    = Z.of_nat (length (sim_breakpoints sim)) /\
    tree_sequence_get_num_coalescence_records self'
    = Z.of_nat (length (sim_records sim)) /\
    tree_sequence_get_breakpoints self' (Some buf)
    = Done (0, Some (sim_breakpoints sim ++ drop (length (sim_breakpoints sim)) buf)) /\
    forall (j : nat) (record : coalescence_record_t),
      tree_sequence_get_record self' (Z.of_nat j) record
      = match qsort cmp_coalescence_record (sim_records sim) !! j with
        | Some r => Done (0, self', r)
        | None => Done (MSP_ERR_OUT_OF_BOUNDS, self', record)
        end.
Proof using qsort_sorts.
  intros Hm Hnb Hnr Hbuf.
  destruct (create_result self sim m Hm Hnb Hnr) as (m' & Hrun & _).
  destruct (qsort_sorts (sim_records sim)) as [Hperm _].
  set (rs := qsort cmp_coalescence_record (sim_records sim)) in *.
  assert (Hlen : length rs = length (sim_records sim))
    by (symmetry; now apply Permutation_length).
  pose proof (store_of_holds (sim_sample_size sim) (sim_num_loci sim)
                (sim_breakpoints sim) rs) as Hholds.
  eexists _, m'. split; [exact Hrun|].
  split; [reflexivity|]. split; [cbn; now rewrite Hlen|]. split.
  - rewrite (get_breakpoints_holds _ _ _ buf Hholds) by lia.
    destruct (Nat.ltb_spec (length buf) (length (sim_breakpoints sim))); [lia|reflexivity].
  - intros j record. destruct (rs !! j) as [r|] eqn:Hj.
    + now apply (get_record_in_range _ _ _ Hholds).
    + apply get_record_out_of_range. apply lookup_ge_None in Hj. cbn. lia.
Qed.

(** X5: a successful [tree_sequence_create] frees its scratch buffer and
    leaves six blocks allocated, and [tree_sequence_free] on the store it made
    releases these six: the live-block count is back to what it was. *)
Theorem create_then_free_balanced (self : tree_sequence_t) (sim : msp_t) (m : mem_t) :
  Forall (eq true) (oracle m) ->
  Z.of_nat (length (sim_breakpoints sim)) < 2 ^ 32 ->
  Z.of_nat (length (sim_records sim)) < 2 ^ 32 ->
  exists self' m',
    tree_sequence_create qsort self sim m = Done (0, self', m') /\
    live_blocks m' = (live_blocks m + 6)%nat /\
    tree_sequence_free self' m'
    = (0, {| oracle := oracle m'; live_blocks := live_blocks m |}).
Proof using qsort_sorts.
  intros Hm Hnb Hnr.
  destruct (qsort_sorts (sim_records sim)) as [Hperm _].
  set (rs := qsort cmp_coalescence_record (sim_records sim)) in *.
  assert (Hlen : length rs = length (sim_records sim))
    by (symmetry; now apply Permutation_length).
  unfold tree_sequence_create, tree_sequence_alloc,
    msp_get_num_breakpoints, msp_get_num_coalescence_records.
  cbn [num_breakpoints num_records set_sizes set_breakpoints].
  destruct (malloc_succeeds 0 (Z.of_nat (length (sim_breakpoints sim))) 4 m Hm)
    as (m1 & -> & Hm1 & L1).
  cbn [is_null].
  destruct (malloc_succeeds 0 (Z.of_nat (length (sim_records sim))) 4 m1 Hm1)
    as (m2 & -> & Hm2 & L2).
  destruct (malloc_succeeds 0 (Z.of_nat (length (sim_records sim))) 4 m2 Hm2)
    as (m3 & -> & Hm3 & L3).
  destruct (malloc_succeeds 0 (2 * Z.of_nat (length (sim_records sim))) 4 m3 Hm3)
    as (m4 & -> & Hm4 & L4).
  destruct (malloc_succeeds 0 (Z.of_nat (length (sim_records sim))) 4 m4 Hm4)
    as (m5 & -> & Hm5 & L5).
  destruct (malloc_succeeds 0 (Z.of_nat (length (sim_records sim))) 8 m5 Hm5)
    as (m6 & -> & Hm6 & L6).
  cbn [is_null orb].
  rewrite !malloc_count by lia. rewrite !Nat2Z.id.
  cbn [breakpoints set_columns set_breakpoints num_breakpoints num_records].
  unfold msp_get_breakpoints. rewrite copy_into_fresh.
  cbn [bind Z.eqb negb].
  destruct (malloc_succeeds record_zero (Z.of_nat (length (sim_records sim))) 32 m6 Hm6)
    as (m7 & -> & Hm7 & L7).
  rewrite malloc_count, Nat2Z.id by lia.
  unfold msp_get_coalescence_records. rewrite copy_into_fresh.
  cbn [bind Z.eqb negb option_map].
  destruct (Z.leb_spec (2 ^ 32) (Z.of_nat (length (sim_records sim)))); [lia|].
  fold rs. rewrite ?Nat2Z.id.
  match goal with
  | |- context [create_scatter _ 0 _ ?s] =>
      edestruct (create_scatter_runs rs (length rs) 0 s)
        as (self' & Hrun & Hbp & Nl & Nr & Nc & Nn & Nt)
  end; try reflexivity; rewrite ?repeat_length.
  all: try lia.
  change (Z.of_nat 0) with 0 in Hrun. rewrite Hlen in Hrun. rewrite Hrun.
  cbn [bind]. exists self', (free (Some rs) m7).
  split; [reflexivity|].
  assert (Hlive : live_blocks (free (Some rs) m7) = (live_blocks m + 6)%nat)
    by (unfold free; cbn [live_blocks]; lia).
  split; [exact Hlive|].
  unfold tree_sequence_free. rewrite Hbp, Nl, Nr, Nc, Nn, Nt.
  cbn [breakpoints set_breakpoints set_columns is_null].
  destruct (ts_left self'), (ts_right self'), (ts_children self'),
    (ts_node self'), (ts_time self'); try discriminate.
  unfold free at 1 2 3 4 5 6. cbn [live_blocks oracle].
  rewrite Hlive. do 2 f_equal. lia.
Qed.

(** X6: when the six column allocations succeed and the [malloc] of the
    scratch record buffer fails, [tree_sequence_create] returns 0, the value
    [msp_get_breakpoints] left in [ret]: the caller is told of a success, the
    breakpoints are copied, and the five record columns are the blocks
    [tree_sequence_alloc] obtained, never written. *)
Theorem create_scratch_failure_returns_zero (self : tree_sequence_t) (sim : msp_t)
  (m : mem_t) (o : list bool) :
  oracle m = [true; true; true; true; true; true; false] ++ o ->
  Z.of_nat (length (sim_breakpoints sim)) < 2 ^ 32 ->
  Z.of_nat (length (sim_records sim)) < 2 ^ 32 ->
  exists s1 m1,
    tree_sequence_alloc
      (set_sizes self (msp_get_num_breakpoints sim)
         (msp_get_num_coalescence_records sim)
         (sim_sample_size sim) (sim_num_loci sim)) m
    = (0, s1, m1) /\
    tree_sequence_create qsort self sim m
    = Done (0, set_breakpoints s1 (num_breakpoints s1) (Some (sim_breakpoints sim)),
            {| oracle := o; live_blocks := live_blocks m1 |}) /\
    live_blocks m1 = (live_blocks m + 6)%nat.
Proof.
  intros Ho Hnb Hnr.
  unfold tree_sequence_create, tree_sequence_alloc, malloc,
    msp_get_num_breakpoints, msp_get_num_coalescence_records.
  rewrite Ho. cbn [app oracle live_blocks is_null orb num_breakpoints num_records
                   set_sizes set_breakpoints set_columns breakpoints].
  rewrite !malloc_count by lia. rewrite !Nat2Z.id.
  unfold msp_get_breakpoints. rewrite copy_into_fresh.
  cbn [bind Z.eqb negb app oracle live_blocks is_null orb num_breakpoints num_records
       set_sizes set_breakpoints set_columns breakpoints].
  do 2 eexists. split; [reflexivity|]. split; [reflexivity|]. cbn. lia.
Qed.

End CreateMore.

Lemma create_read_back_witness :
  exists self' m',
    tree_sequence_create insertion_qsort blank_store S2_sim fresh_mem
    = Done (0, self', m') /\
    tree_sequence_get_num_breakpoints self'
    = Z.of_nat (length (sim_breakpoints S2_sim)) /\
    tree_sequence_get_num_coalescence_records self'
    = Z.of_nat (length (sim_records S2_sim)) /\
    tree_sequence_get_breakpoints self' (Some [7; 7; 7; 7])
    = Done (0, Some (sim_breakpoints S2_sim
                     ++ drop (length (sim_breakpoints S2_sim)) [7; 7; 7; 7])) /\
    forall (j : nat) (record : coalescence_record_t),
      tree_sequence_get_record self' (Z.of_nat j) record
      = match insertion_qsort cmp_coalescence_record (sim_records S2_sim) !! j with
        | Some r => Done (0, self', r)
        | None => Done (MSP_ERR_OUT_OF_BOUNDS, self', record)
        end.
Proof.
  apply (create_read_back insertion_qsort insertion_qsort_sorts).
  - constructor.
  - simpl. lia.
  - simpl. lia.
  - simpl. lia.
Defined.

Lemma create_then_free_balanced_witness :
  exists self' m',
    tree_sequence_create insertion_qsort blank_store S2_sim fresh_mem
    = Done (0, self', m') /\
    live_blocks m' = (live_blocks fresh_mem + 6)%nat /\
    tree_sequence_free self' m'
    = (0, {| oracle := oracle m'; live_blocks := live_blocks fresh_mem |}).
Proof.
  apply (create_then_free_balanced insertion_qsort insertion_qsort_sorts).
  - constructor.
  - simpl. lia.
  - simpl. lia.
Defined.

Lemma create_scratch_failure_returns_zero_witness :
  exists s1 m1,
    tree_sequence_alloc
      (set_sizes blank_store (msp_get_num_breakpoints S2_sim)
         (msp_get_num_coalescence_records S2_sim)
         (sim_sample_size S2_sim) (sim_num_loci S2_sim))
      {| oracle := [true; true; true; true; true; true; false]; live_blocks := 0 |}
    = (0, s1, m1) /\
    tree_sequence_create insertion_qsort blank_store S2_sim
      {| oracle := [true; true; true; true; true; true; false]; live_blocks := 0 |}
    = Done (0, set_breakpoints s1 (num_breakpoints s1) (Some (sim_breakpoints S2_sim)),
            {| oracle := []; live_blocks := live_blocks m1 |}) /\
    live_blocks m1 = 6%nat.
Proof.
  apply (create_scratch_failure_returns_zero insertion_qsort blank_store S2_sim
           {| oracle := [true; true; true; true; true; true; false]; live_blocks := 0 |} []).
  - reflexivity.
  - simpl. lia.
  - simpl. lia.
Defined.

(** ** Load and dump: validation, return codes, memory *)

Lemma check_hdf5_field_zero (self : tree_sequence_t) (file : h5_file)
  (name : string) (dimensions : Z) :
  check_hdf5_field self file name dimensions = 0 <->
  exists d, H5Dopen file name = Some d /\
            H5Sget_simple_extent_ndims (ds_dims d) = dimensions /\
            nth 0 (ds_dims d) 0 = num_records self.
Proof.
  unfold check_hdf5_field. destruct (H5Dopen file name) as [d|].
  - destruct (Z.eqb_spec (H5Sget_simple_extent_ndims (ds_dims d)) dimensions) as [Hr|Hr];
      cbn [negb].
    + destruct (Z.eqb_spec (nth 0 (ds_dims d) 0) (num_records self)) as [Hn|Hn];
        cbn [negb].
      * split; [eauto|reflexivity].
      * split; [discriminate|]. intros (d' & E & _ & Hn'). inversion E; subst. contradiction.
    + split; [discriminate|]. intros (d' & E & Hr' & _). inversion E; subst. contradiction.
  - split; [discriminate|]. intros (d' & E & _). discriminate.
Qed.

Lemma check_hdf5_fields_zero (self : tree_sequence_t) (file : h5_file)
  (fields : list (string * Z)) :
  check_hdf5_fields self file fields = 0 <->
  Forall (fun f => exists d, H5Dopen file (fst f) = Some d /\
                             H5Sget_simple_extent_ndims (ds_dims d) = snd f /\
                             nth 0 (ds_dims d) 0 = num_records self) fields.
Proof.
  induction fields as [|[name dimensions] fields IH]; cbn [check_hdf5_fields].
  - split; [constructor|reflexivity].
  - rewrite List.Forall_cons_iff, <- IH, <- check_hdf5_field_zero. cbn [fst snd].
    destruct (Z.eqb_spec (check_hdf5_field self file name dimensions) 0) as [E|E];
      cbn [negb]; [rewrite E; tauto|]. split; [contradiction|tauto].
Qed.

Lemma check_hdf5_fields_codes (self : tree_sequence_t) (file : h5_file)
  (fields : list (string * Z)) :
  check_hdf5_fields self file fields = 0 \/
  check_hdf5_fields self file fields = MSP_ERR_HDF5 \/
  check_hdf5_fields self file fields = MSP_ERR_FILE_FORMAT.
Proof.
  induction fields as [|[name dimensions] fields IH]; [now left|].
  cbn [check_hdf5_fields].
  assert (H : check_hdf5_field self file name dimensions = 0 \/
              check_hdf5_field self file name dimensions = MSP_ERR_HDF5 \/
              check_hdf5_field self file name dimensions = MSP_ERR_FILE_FORMAT).
  { unfold check_hdf5_field. destruct (H5Dopen file name); [|auto].
    destruct (negb _); [auto|]. destruct (negb _); auto. }
  destruct H as [->|[->| ->]]; cbn; auto.
Qed.

(** X7: [tree_sequence_check_hdf5_dimensions] returns 0 exactly when each of
    the five record datasets is there with its rank (2 for the children, 1
    for the others) and with [num_records] as its first extent; otherwise it
    returns [MSP_ERR_HDF5] or [MSP_ERR_FILE_FORMAT].  The second extent of
    [/records/children] is never looked at. *)
Theorem check_dimensions_iff (self : tree_sequence_t) (file : h5_file) :
  (tree_sequence_check_hdf5_dimensions self file = 0 <->
   Forall (fun f => exists d, H5Dopen file (fst f) = Some d /\
                              H5Sget_simple_extent_ndims (ds_dims d) = snd f /\
                              nth 0 (ds_dims d) 0 = num_records self)
     [("/records/left"%string, 1); ("/records/right"%string, 1);
      ("/records/node"%string, 1); ("/records/children"%string, 2);
      ("/records/time"%string, 1)]) /\
  (tree_sequence_check_hdf5_dimensions self file = 0 \/
   tree_sequence_check_hdf5_dimensions self file = MSP_ERR_HDF5 \/
   tree_sequence_check_hdf5_dimensions self file = MSP_ERR_FILE_FORMAT).
Proof.
  unfold tree_sequence_check_hdf5_dimensions.
  split; [apply check_hdf5_fields_zero|apply check_hdf5_fields_codes].
Qed.

Lemma metadata_failure_state (self : tree_sequence_t) (file : h5_file)
  (status : Z) (s1 : tree_sequence_t) :
  tree_sequence_read_hdf5_metadata self file = Done (status, s1) ->
  status <> 0 ->
  (status = MSP_ERR_HDF5 \/ status = MSP_ERR_FILE_FORMAT) /\
  num_records s1 = num_records self /\ num_breakpoints s1 = num_breakpoints self /\
  num_loci s1 = num_loci self.
Proof.
  assert (Hattr : forall prefix name e v,
             read_hdf5_attr file prefix name = Done (Some e, v) ->
             e = MSP_ERR_HDF5 \/ e = MSP_ERR_FILE_FORMAT).
  { intros prefix name e v. unfold read_hdf5_attr.
    destruct (H5Aopen_by_name file prefix name) as [a|]; [|intros H; inversion H; auto].
    destruct (negb _); [intros H; inversion H; auto|].
    destruct (H5Aread a); cbn [bind]; discriminate. }
  unfold tree_sequence_read_hdf5_metadata. intros H Hne.
  destruct (read_hdf5_attr file "/" "format_version") as [[[e|] v]| | |] eqn:E0;
    cbn [bind] in H; try discriminate.
  { inversion H; subst. split; [eapply Hattr; eauto|auto]. }
  destruct (read_hdf5_attr file "/parameters" "sample_size") as [[[e|] v1]| | |] eqn:E1;
    cbn [bind] in H; try discriminate.
  { inversion H; subst. split; [eapply Hattr; eauto|auto]. }
  destruct (read_hdf5_attr file "/parameters" "num_loci") as [[[e|] v2]| | |] eqn:E2;
    cbn [bind] in H; try discriminate; inversion H; subst; [|contradiction].
  split; [eapply Hattr; eauto|]. destruct v1; auto.
Qed.

(** X8: a load that stops before it allocates.  When the file does not open
    [tree_sequence_load] returns [MSP_ERR_HDF5] and the store is as it was.
    When the file opens and one of the three attributes is missing or not of
    rank 1, it returns [MSP_ERR_GENERIC], whichever of the two it was: the
    code of the metadata step is dropped.  In both cases nothing is
    allocated, and the columns, the two counts and [num_loci] are as they
    were ([sample_size] may already be overwritten). *)
Theorem load_failure_before_allocation (self : tree_sequence_t)
  (fs : gmap string h5_file) (filename : string) (m : mem_t)
  (ret : Z) (self' : tree_sequence_t) (m' : mem_t) :
  tree_sequence_load self fs filename m = Done (ret, self', m') ->
  metadata_ok self fs filename = false ->
  ret = match H5Fopen fs filename with
        | Some _ => MSP_ERR_GENERIC
        | None => MSP_ERR_HDF5
        end /\
  (H5Fopen fs filename = None -> self' = self) /\
  m' = m /\ blocks self' = blocks self /\
  num_records self' = num_records self /\
  num_breakpoints self' = num_breakpoints self /\
  num_loci self' = num_loci self.
Proof.
  unfold tree_sequence_load, metadata_ok. intros Hload Hmeta.
  destruct (H5Fopen fs filename) as [file|].
  2:{ inversion Hload; subst. repeat split; reflexivity. }
  destruct (tree_sequence_read_hdf5_metadata self file) as [[status s1]| | |] eqn:Emeta;
    cbn [bind] in Hload; try discriminate.
  apply Z.leb_gt in Hmeta.
  destruct (Z.ltb_spec status 0); [|lia].
  inversion Hload; subst.
  destruct (metadata_failure_state _ _ _ _ Emeta ltac:(lia)) as (_ & Hnr & Hnb & Hl).
  pose proof (metadata_keeps_blocks _ _ _ _ Emeta).
  repeat split; try assumption. discriminate.
Qed.

Lemma load_failure_before_allocation_witness :
  MSP_ERR_GENERIC
  = match H5Fopen {["empty.hdf5"%string := h5_empty]} "empty.hdf5" with
    | Some _ => MSP_ERR_GENERIC
    | None => MSP_ERR_HDF5
    end /\
  (H5Fopen {["empty.hdf5"%string := h5_empty]} "empty.hdf5" = None ->
   S2_store = S2_store) /\
  fresh_mem = fresh_mem /\ blocks S2_store = blocks S2_store /\
  num_records S2_store = num_records S2_store /\
  num_breakpoints S2_store = num_breakpoints S2_store /\
  num_loci S2_store = num_loci S2_store.
Proof.
  apply (load_failure_before_allocation S2_store
           {["empty.hdf5"%string := h5_empty]} "empty.hdf5" fresh_mem
           MSP_ERR_GENERIC S2_store fresh_mem); reflexivity.
Defined.

Lemma free_if_not_null (b : option (list Z)) (m : mem_t) :
  (if is_null b then m else free b m)
  = if is_null b then m
    else {| oracle := oracle m; live_blocks := pred (live_blocks m) |}.
Proof. now destruct b. Qed.

Lemma free_by_nulls (s s' : tree_sequence_t) (m : mem_t) :
  map is_null (blocks s) = map is_null (blocks s') ->
  live_blocks (snd (tree_sequence_free s m)) = live_blocks (snd (tree_sequence_free s' m)).
Proof.
  unfold blocks. cbn [map]. intros H. inversion H as [[H1 H2 H3 H4 H5 H6]].
  unfold tree_sequence_free. rewrite !free_if_not_null.
  now rewrite H1, H2, H3, H4, H5, H6.
Qed.

Lemma malloc_counts {A : Type} (d : A) (n sz : Z) (m : mem_t) :
  live_blocks (snd (malloc d n sz m))
  = (live_blocks m + if is_null (fst (malloc d n sz m)) then 0 else 1)%nat.
Proof. unfold malloc. destruct (oracle m) as [|[] o]; cbn; lia. Qed.

Lemma free_counts (s : tree_sequence_t) (m : mem_t) :
  live_blocks (snd (tree_sequence_free s m))
  = (live_blocks m
     - (if is_null (breakpoints s) then 0 else 1)
     - (if is_null (ts_left s) then 0 else 1)
     - (if is_null (ts_right s) then 0 else 1)
     - (if is_null (ts_children s) then 0 else 1)
     - (if is_null (ts_node s) then 0 else 1)
     - (if is_null (ts_time s) then 0 else 1))%nat.
Proof.
  assert (Hstep : forall (b : option (list Z)) (m0 : mem_t),
             live_blocks (if is_null b then m0 else free b m0)
             = (live_blocks m0 - if is_null b then 0 else 1)%nat).
  { intros [l|] m0; cbn; lia. }
  unfold tree_sequence_free. cbn [snd]. now rewrite !Hstep.
Qed.

Ltac step_malloc H :=
  match type of H with
  | context [malloc ?d ?n ?sz ?m] =>
      let b := fresh "b" in
      let m' := fresh "m" in
      let L := fresh "L" in
      pose proof (malloc_counts d n sz m) as L;
      destruct (malloc d n sz m) as [b m']; cbn [fst snd] in L
  end.

Lemma read_dimensions_then_free (self : tree_sequence_t) (file : h5_file)
  (m : mem_t) (ret : Z) (self' : tree_sequence_t) (m' : mem_t) :
  blocks self = [None; None; None; None; None; None] ->
  tree_sequence_read_hdf5_dimensions self file m = (ret, self', m') ->
  live_blocks (snd (tree_sequence_free self' m')) = live_blocks m.
Proof.
  intros Hblank Hrun. rewrite free_counts.
  destruct self as [n l nr nb bp cl cr cn cc ct]. unfold blocks in Hblank. cbn in Hblank.
  inversion Hblank; subst. clear Hblank.
  unfold tree_sequence_read_hdf5_dimensions in Hrun.
  destruct (H5Dopen file "/breakpoints") as [d|]; [|inversion Hrun; subst; cbn; lia].
  destruct (negb _); [inversion Hrun; subst; cbn; lia|].
  step_malloc Hrun.
  destruct (is_null b) eqn:Eb; [inversion Hrun; subst; cbn; rewrite Eb; lia|].
  destruct (H5Dopen file "/records/left") as [d'|];
    [destruct (negb (H5Sget_simple_extent_ndims (ds_dims d') =? 1))|].
  1,3: inversion Hrun; subst; cbn; rewrite Eb; lia.
  do 5 step_malloc Hrun.
  destruct (_ || _); inversion Hrun; subst; cbn; rewrite Eb; lia.
Qed.

(** X9: [tree_sequence_load] into a store whose six pointers are NULL,
    followed by [tree_sequence_free], leaves no block behind, whatever the
    load returned: the blocks a failing load keeps are exactly those the
    store points to. *)
Theorem load_then_free_balanced (self : tree_sequence_t) (fs : gmap string h5_file)
  (filename : string) (m : mem_t) (ret : Z) (self' : tree_sequence_t) (m' : mem_t) :
  Forall (fun b => is_null b = true) (blocks self) ->
  tree_sequence_load self fs filename m = Done (ret, self', m') ->
  live_blocks (snd (tree_sequence_free self' m')) = live_blocks m.
Proof.
  intros Hblank Hload. apply blank_blocks in Hblank.
  unfold tree_sequence_load in Hload.
  destruct (H5Fopen fs filename) as [file|].
  2:{ inversion Hload; subst.
      rewrite (free_by_nulls self' blank_store) by (now rewrite Hblank). reflexivity. }
  destruct (tree_sequence_read_hdf5_metadata self file) as [[status s1]| | |] eqn:Emeta;
    cbn [bind] in Hload; try discriminate.
  pose proof (metadata_keeps_blocks _ _ _ _ Emeta) as Hblocks.
  rewrite Hblank in Hblocks.
  destruct (status <? 0).
  { inversion Hload; subst.
    rewrite (free_by_nulls self' blank_store) by (now rewrite Hblocks). reflexivity. }
  destruct (tree_sequence_read_hdf5_dimensions s1 file m) as [[ret1 s2] m2] eqn:Edims.
  pose proof (read_dimensions_then_free _ _ _ _ _ _ Hblocks Edims) as Hfree.
  destruct (negb (ret1 =? 0)); [now inversion Hload; subst|].
  destruct (tree_sequence_read_hdf5_data s2 file) as [[ret2 s3]| | |] eqn:Edata;
    cbn [bind] in Hload; try discriminate.
  destruct (read_data_blocks _ _ _ _ Edata) as [Hnull _].
  assert (self' = s3 /\ m' = m2) as [-> ->]
    by (destruct (negb (ret2 =? 0)); inversion Hload; subst; auto).
  now rewrite (free_by_nulls s3 s2).
Qed.

Lemma load_then_free_balanced_witness :
  exists self' m',
    tree_sequence_load blank_store {["cut.hdf5"%string := truncated_file]}
      "cut.hdf5" fresh_mem
    = Done (MSP_ERR_HDF5, self', m') /\
    live_blocks m' = 6%nat /\
    live_blocks (snd (tree_sequence_free self' m')) = live_blocks fresh_mem.
Proof.
  eexists _, _. split; [vm_compute; reflexivity|]. split; [reflexivity|].
  apply (load_then_free_balanced blank_store
           {["cut.hdf5"%string := truncated_file]} "cut.hdf5" fresh_mem
           MSP_ERR_HDF5).
  - repeat constructor.
  - vm_compute. reflexivity.
Defined.

(** X10: a load that returns 0 leaves six more live blocks than there were
    before the call, whatever the store pointed to on entry, and all six
    pointers of the store are then non-NULL. *)
Theorem load_success_allocates_six (self : tree_sequence_t) (fs : gmap string h5_file)
  (filename : string) (m : mem_t) (self' : tree_sequence_t) (m' : mem_t) :
  tree_sequence_load self fs filename m = Done (0, self', m') ->
  live_blocks m' = (live_blocks m + 6)%nat /\
  Forall (fun b => is_null b = false) (blocks self').
Proof.
  intros Hload. unfold tree_sequence_load in Hload.
  destruct (H5Fopen fs filename) as [file|]; [|discriminate].
  destruct (tree_sequence_read_hdf5_metadata self file) as [[status s1]| | |];
    cbn [bind] in Hload; try discriminate.
  destruct (status <? 0); [discriminate|].
  destruct (tree_sequence_read_hdf5_dimensions s1 file m) as [[ret1 s2] m2] eqn:Edims.
  destruct (Z.eqb_spec ret1 0) as [->|Hne]; cbn [negb] in Hload;
    [|inversion Hload; subst; contradiction].
  destruct (tree_sequence_read_hdf5_data s2 file) as [[ret2 s3]| | |] eqn:Edata;
    cbn [bind] in Hload; try discriminate.
  destruct (read_data_blocks _ _ _ _ Edata) as [Hnull _].
  assert (self' = s3 /\ m' = m2) as [-> ->]
    by (destruct (negb (ret2 =? 0)); inversion Hload; subst; auto).
  assert (Hdims : live_blocks m2 = (live_blocks m + 6)%nat /\
                  map is_null (blocks s2) = [false; false; false; false; false; false]).
  { clear - Edims. unfold tree_sequence_read_hdf5_dimensions in Edims.
    destruct (H5Dopen file "/breakpoints") as [d|]; [|discriminate].
    destruct (negb _); [discriminate|].
    step_malloc Edims.
    destruct (is_null b) eqn:Eb; [discriminate|].
    destruct (H5Dopen file "/records/left") as [d'|]; [|discriminate].
    destruct (negb (H5Sget_simple_extent_ndims (ds_dims d') =? 1)); [discriminate|].
    do 5 step_malloc Edims.
    destruct (is_null b0) eqn:E0, (is_null b1) eqn:E1, (is_null b2) eqn:E2,
      (is_null b3) eqn:E3, (is_null b4) eqn:E4; cbn [orb] in Edims; try discriminate.
    inversion Edims; subst. unfold blocks. cbn. rewrite Eb, E0, E1, E2, E3, E4.
    split; [lia|reflexivity]. }
  destruct Hdims as [Hlive Hs2]. split; [exact Hlive|].
  rewrite Hs2 in Hnull. unfold blocks in *. cbn [map] in Hnull.
  injection Hnull as H1 H2 H3 H4 H5 H6. repeat constructor; assumption.
Qed.

Lemma load_success_allocates_six_witness :
  live_blocks {| oracle := []; live_blocks := 12 |} = (6 + 6)%nat /\
  Forall (fun b => is_null b = false) (blocks S2_store).
Proof.
  apply (load_success_allocates_six S2_store
           {["s2.hdf5"%string := dumped_file S2_store [0; 4; 10] S2_sorted 0]}
           "s2.hdf5" {| oracle := []; live_blocks := 6 |}).
  vm_compute. reflexivity.
Defined.

(** X11: [tree_sequence_dump] of a store whose breakpoint pointer is NULL
    returns [MSP_ERR_HDF5], whatever the counts and the flags: with no
    breakpoint [H5Pset_chunk] refuses the empty chunk, and otherwise the
    library refuses the chunk for its size or the NULL buffer of the write;
    the code never reads through the pointer itself. *)
Theorem dump_null_breakpoints (self : tree_sequence_t) (fs : gmap string h5_file)
  (filename : string) (flags : Z) :
  breakpoints self = None ->
  exists fs',
    tree_sequence_dump self fs filename flags = Done (MSP_ERR_HDF5, fs').
Proof.
  intros Hbp. unfold tree_sequence_dump.
  destruct (tree_sequence_write_hdf5_metadata self h5_empty) as [status0 file0].
  destruct (status0 <? 0); [eexists; reflexivity|].
  unfold tree_sequence_write_hdf5_data.
  destruct (H5Gcreate file0 "/records") as [status1 file1].
  destruct (status1 <? 0); [eexists; reflexivity|].
  cbn [write_hdf5_fields]. rewrite Hbp. unfold write_hdf5_field.
  destruct (H5Pset_chunk _ _ _) as [status2 plist2].
  destruct (status2 <? 0); [eexists; reflexivity|].
  destruct (set_compression flags plist2) as [status3 plist3].
  destruct (status3 <? 0); [eexists; reflexivity|].
  destruct (H5Pset_fletcher32 plist3) as [status4 plist4].
  destruct (status4 <? 0); [eexists; reflexivity|].
  destruct (H5Dcreate2 _ _ _ _ _) as [status5 file5].
  destruct (status5 <? 0); [eexists; reflexivity|].
  unfold H5Dwrite.
  destruct (h5_datasets file5 !! "/breakpoints"%string); eexists; reflexivity.
Qed.

Lemma dump_null_breakpoints_witness :
  exists fs',
    tree_sequence_dump (set_sizes blank_store 3 5 4 10)
      {["s2.hdf5"%string := dumped_file S2_store [0; 4; 10] S2_sorted 0]} "s2.hdf5" 0
    = Done (MSP_ERR_HDF5, fs').
Proof.
  apply (dump_null_breakpoints (set_sizes blank_store 3 5 4 10)). reflexivity.
Defined.

(** X12: the file [tree_sequence_dump] writes for a store that holds its
    records, has at least one breakpoint and one record, and keeps every
    dataset below the 4 GB a chunk may have (fewer than 2^30 breakpoints
    and 2^29 records): the groups [/records] and [/parameters], three one-element
    [u32] attributes (the version constant, [sample_size], [num_loci]), and
    six datasets, [/breakpoints] and the five record columns, each stored
    whole in one chunk with the Fletcher-32 filter, and with byte shuffle and
    deflate level 9 exactly when [MSP_ZLIB_COMPRESSION] is set; the children
    are [num_records] by 2, the times are 64-bit floats, the rest [u32].
    What the file of that name held before is gone. *)
Theorem dump_file_layout (self : tree_sequence_t) (bps : list Z)
  (rs : list coalescence_record_t) (fs : gmap string h5_file)
  (filename : string) (flags : Z) :
  store_holds self bps rs ->
  0 < num_breakpoints self < 2 ^ 30 ->
  0 < num_records self < 2 ^ 29 ->
  exists file,
    tree_sequence_dump self fs filename flags = Done (0, <[filename := file]> fs) /\
    h5_groups file = {["/records"%string]} ∪ ({["/parameters"%string]} ∪ ∅) /\
    Forall (fun a : string * string * Z =>
              H5Aopen_by_name file (fst (fst a)) (snd (fst a))
              = Some {| at_type := H5T_STD_U32LE; at_dims := [1]; at_data := [snd a] |})
      [("/"%string, "format_version"%string, MSP_FILE_FORMAT_VERSION);
       ("/parameters"%string, "sample_size"%string, sample_size self);
       ("/parameters"%string, "num_loci"%string, num_loci self)] /\
    Forall (fun d : string * h5_type * list Z * list Z =>
              H5Dopen file (fst (fst (fst d)))
              = Some {| ds_type := snd (fst (fst d)); ds_dims := snd (fst d);
                        ds_plist :=
                          {| pl_chunk := snd (fst d);
                             pl_shuffle := negb (Z.land flags MSP_ZLIB_COMPRESSION =? 0);
                             pl_deflate :=
                               if negb (Z.land flags MSP_ZLIB_COMPRESSION =? 0)
                               then Some 9 else None;
                             pl_fletcher32 := true |};
                        ds_data := snd d |})
      [("/breakpoints"%string, H5T_STD_U32LE, [num_breakpoints self], bps);
       ("/records/left"%string, H5T_STD_U32LE, [num_records self], map cr_left rs);
       ("/records/right"%string, H5T_STD_U32LE, [num_records self], map cr_right rs);
       ("/records/node"%string, H5T_STD_U32LE, [num_records self], map cr_node rs);
       ("/records/children"%string, H5T_STD_U32LE, [num_records self; 2],
        flat_map children_pair rs);
       ("/records/time"%string, H5T_IEEE_F64LE, [num_records self], map cr_time rs)] /\
    size (h5_attrs file) = 3%nat /\ size (h5_datasets file) = 6%nat.
Proof.
  intros Hholds Hb Hr. exists (dumped_file self bps rs flags).
  split; [now apply dump_writes|]. split; [reflexivity|].
  split; [repeat constructor|]. split; [repeat constructor|].
  split; reflexivity.
Qed.

Lemma dump_file_layout_witness :
  exists file,
    tree_sequence_dump S2_store ∅ "s2.hdf5" MSP_ZLIB_COMPRESSION
    = Done (0, <["s2.hdf5"%string := file]> ∅) /\
    h5_groups file = {["/records"%string]} ∪ ({["/parameters"%string]} ∪ ∅) /\
    Forall (fun a : string * string * Z =>
              H5Aopen_by_name file (fst (fst a)) (snd (fst a))
              = Some {| at_type := H5T_STD_U32LE; at_dims := [1]; at_data := [snd a] |})
      [("/"%string, "format_version"%string, MSP_FILE_FORMAT_VERSION);
       ("/parameters"%string, "sample_size"%string, sample_size S2_store);
       ("/parameters"%string, "num_loci"%string, num_loci S2_store)] /\
    Forall (fun d : string * h5_type * list Z * list Z =>
              H5Dopen file (fst (fst (fst d)))
              = Some {| ds_type := snd (fst (fst d)); ds_dims := snd (fst d);
                        ds_plist :=
                          {| pl_chunk := snd (fst d);
                             pl_shuffle :=
                               negb (Z.land MSP_ZLIB_COMPRESSION MSP_ZLIB_COMPRESSION =? 0);
                             pl_deflate :=
                               if negb (Z.land MSP_ZLIB_COMPRESSION MSP_ZLIB_COMPRESSION =? 0)
                               then Some 9 else None;
                             pl_fletcher32 := true |};
                        ds_data := snd d |})
      [("/breakpoints"%string, H5T_STD_U32LE, [num_breakpoints S2_store], [0; 4; 10]);
       ("/records/left"%string, H5T_STD_U32LE, [num_records S2_store],
        map cr_left S2_sorted);
       ("/records/right"%string, H5T_STD_U32LE, [num_records S2_store],
        map cr_right S2_sorted);
       ("/records/node"%string, H5T_STD_U32LE, [num_records S2_store],
        map cr_node S2_sorted);
       ("/records/children"%string, H5T_STD_U32LE, [num_records S2_store; 2],
        flat_map children_pair S2_sorted);
       ("/records/time"%string, H5T_IEEE_F64LE, [num_records S2_store],
        map cr_time S2_sorted)] /\
    size (h5_attrs file) = 3%nat /\ size (h5_datasets file) = 6%nat.
Proof.
  apply (dump_file_layout S2_store [0; 4; 10] S2_sorted).
  - apply store_of_holds.
  - simpl. lia.
  - simpl. lia.
Defined.

(** X13: the metadata step checks the rank of an attribute and never its
    extent: an attribute of rank 1 that holds two elements or more passes
    the check, and reading it into the single [uint32_t] behind the
    destination pointer runs past it. *)
Theorem load_attribute_extent_unchecked (self : tree_sequence_t)
  (fs : gmap string h5_file) (filename : string) (m : mem_t)
  (file : h5_file) (a : h5_attr) :
  H5Fopen fs filename = Some file ->
  H5Aopen_by_name file "/" "format_version" = Some a ->
  H5Sget_simple_extent_ndims (at_dims a) = 1 ->
  (2 <= length (at_data a))%nat ->
  tree_sequence_load self fs filename m = Undefined.
Proof.
  intros Hfile Ha Hrank Hlen.
  unfold tree_sequence_load, tree_sequence_read_hdf5_metadata, read_hdf5_attr.
  rewrite Hfile, Ha, Hrank. cbn [Z.eqb Pos.eqb negb]. unfold H5Aread.
  destruct (at_data a) as [|x [|y l]]; cbn [length] in Hlen; try lia.
  reflexivity.
Qed.

Lemma load_attribute_extent_unchecked_witness :
  tree_sequence_load blank_store
    {["wide.hdf5"%string :=
        {| h5_groups := ∅;
           h5_attrs := {[("/"%string, "format_version"%string) :=
                           {| at_type := H5T_STD_U32LE; at_dims := [2];
                              at_data := [0; 0] |}]};
           h5_datasets := ∅ |}]}
    "wide.hdf5" fresh_mem
  = Undefined.
Proof.
  eapply (load_attribute_extent_unchecked blank_store _ "wide.hdf5" fresh_mem).
  - reflexivity.
  - reflexivity.
  - reflexivity.
  - simpl. lia.
Defined.

(** ** The iterator: what the steps carry, the end, degenerate stores *)

(** Through a coordinate [c] inside the sequence, as many records end at
    [c] as start there: both complete the records that span [c] to a tree. *)
Lemma covers_shift (c : Z) (l : list coalescence_record_t) :
  (forall r, In r l -> cr_left r < cr_right r) ->
  (length (List.filter (covers c) l)
   + length (List.filter (fun r => (cr_right r =? c)%Z) l)
   = length (List.filter (covers (c - 1)%Z) l)
     + length (List.filter (fun r => (cr_left r =? c)%Z) l))%nat.
Proof.
  induction l as [|r l IH]; intros Hlr; [reflexivity|].
  assert (IH' := IH (fun x Hx => Hlr x (or_intror Hx))).
  pose proof (Hlr r (or_introl eq_refl)) as Hr.
  cbn [List.filter].
  destruct (covers c r) eqn:E1, (covers (c - 1) r) eqn:E2,
    (Z.eqb_spec (cr_right r) c), (Z.eqb_spec (cr_left r) c);
    cbn [length]; unfold covers in E1, E2;
    repeat match goal with
    | H : (_ && _) = true |- _ => apply andb_true_iff in H as [? ?]
    | H : (_ && _) = false |- _ => apply andb_false_iff in H as [?|?]
    | H : (_ <=? _) = true |- _ => apply Z.leb_le in H
    | H : (_ <=? _) = false |- _ => apply Z.leb_gt in H
    | H : (_ <? _) = true |- _ => apply Z.ltb_lt in H
    | H : (_ <? _) = false |- _ => apply Z.ltb_ge in H
    end; lia.
Qed.

Lemma nodup_sorted (l : list Z) :
  StronglySorted Z.le l -> StronglySorted Z.lt (nodup Z.eq_dec l).
Proof.
  induction 1 as [|x l Hs IH Hall]; [constructor|]. cbn [nodup].
  destruct (in_dec Z.eq_dec x l) as [Hin|Hnin]; [exact IH|].
  constructor; [exact IH|]. apply List.Forall_forall. intros y Hy.
  apply (proj1 (nodup_In Z.eq_dec l y)) in Hy. rewrite List.Forall_forall in Hall.
  specialize (Hall y Hy). assert (x <> y) by (intros ->; contradiction). lia.
Qed.

Section Contents.

Variables (s : tree_sequence_t) (bps : list Z) (rs : list coalescence_record_t).
Hypothesis Hholds : store_holds s bps rs.
Hypothesis Hinv : tree_invariants (sample_size s) (num_loci s) rs = true.
Hypothesis Hrange : store_in_range s.

Lemma in_out_balance (c : Z) :
  0 < c < num_loci s ->
  length (List.filter (fun r => cr_left r =? c) rs)
  = length (List.filter (fun r => cr_right r =? c) rs).
Proof using Hinv.
  intros Hc.
  pose proof (inv_tree_size _ _ _ Hinv c ltac:(lia)) as H1.
  pose proof (inv_tree_size _ _ _ Hinv (c - 1) ltac:(lia)) as H0.
  unfold records_at in *.
  assert (Hshift := covers_shift c rs
                      (fun r Hr => proj2 (proj1 (inv_record _ _ _ Hinv r Hr)))).
  lia.
Qed.

Lemma first_tree_in :
  num_loci s <> 0 ->
  Z.of_nat (length (List.filter (fun r => cr_left r =? 0) rs)) = sample_size s - 1 /\
  List.filter (fun r => cr_right r =? 0) rs = [].
Proof using Hinv.
  intros HL. pose proof (inv_sizes _ _ _ Hinv) as (_ & Hl). split.
  - rewrite <- (inv_tree_size _ _ _ Hinv 0 ltac:(lia)). unfold records_at.
    f_equal. f_equal. apply List.filter_ext_in. intros r Hr.
    destruct (inv_record _ _ _ Hinv r Hr) as (Hlr & _). unfold covers.
    destruct (Z.eqb_spec (cr_left r) 0), (Z.leb_spec (cr_left r) 0),
      (Z.ltb_spec 0 (cr_right r)); cbn [andb]; lia.
  - apply filter_none. intros r Hr.
    destruct (inv_record _ _ _ Hinv r Hr) as (Hlr & _). apply Z.eqb_neq. lia.
Qed.

(** A complete run in the distinct-trees mode, step by step. *)
Lemma run_distinct_contents (cr0 : coalescence_record_t) :
  forall (m : nat) (rest done : list coalescence_record_t)
         (st : tree_diff_iterator_t) (outs : step_t) (fuel : nat),
    (length rest <= m)%nat -> (m < fuel)%nat ->
    iterator_at s rs done rest st ->
    Z.land (flags st) MSP_ALL_BREAKPOINTS = 0 ->
    exists steps st' outs',
      iterate fuel st cr0 outs = Done (steps, 0, st', outs') /\
      Forall2 (fun c step =>
                 nodes_in_out step
                 = map node_of (List.filter (fun r => cr_left r =? c) rs) /\
                 nodes_out step
                 = map node_of (List.filter (fun r => cr_right r =? c) rs))
        (nodup Z.eq_dec (map cr_left rest)) steps.
Proof using Hholds Hinv Hrange.
  induction m as [|m IH]; intros rest done st outs fuel Hlen Hfuel Hat Hfl;
    (destruct fuel as [|fuel]; [lia|]); cbn [iterate]; rewrite next_distinct by exact Hfl.
  - destruct rest as [|r rest0]; [|simpl in Hlen; lia].
    destruct (next_tree_end s rs Hinv done st cr0 outs Hat) as (st' & Hnext & Hat' & _).
    rewrite Hnext. cbn [bind Z.eqb]. eexists _, _, _. split; [reflexivity|constructor].
  - destruct rest as [|r rest0].
    + destruct (next_tree_end s rs Hinv done st cr0 outs Hat) as (st' & Hnext & Hat' & _).
      rewrite Hnext. cbn [bind Z.eqb]. eexists _, _, _. split; [reflexivity|constructor].
    + destruct (next_tree_step s bps rs Hholds Hinv Hrange done rest0 r st cr0 outs Hat)
        as (st1 & Hnext & Hat1 & Hframe).
      rewrite Hnext. cbn [bind Z.eqb Pos.eqb].
      assert (Hshort : (length (trailing (cr_left r) (r :: rest0)) <= m)%nat).
      { simpl. rewrite Z.eqb_refl.
        pose proof (leading_trailing (cr_left r) rest0) as E.
        apply (f_equal (@length _)) in E. rewrite List.length_app in E.
        simpl in Hlen. lia. }
      destruct Hframe as (_ & Hfl1 & _).
      destruct (IH _ _ st1
                  {| length_out :=
                       match trailing (cr_left r) (r :: rest0) with
                       | r' :: _ => cr_left r'
                       | [] => num_loci s
                       end - cr_left r;
                     nodes_out := expiring done (cr_left r);
                     nodes_in_out := map node_of (leading (cr_left r) (r :: rest0)) |}
                  fuel Hshort ltac:(lia) Hat1 ltac:(now rewrite Hfl1))
        as (steps & st' & outs' & Hrun & Hall).
      rewrite Hrun. cbn [bind].
      eexists _, st', outs'. split; [reflexivity|].
      pose proof Hat as (Hrs & Hlt & _). pose proof Hat1 as (Hrs1 & Hlt1 & _).
      set (c := cr_left r) in *.
      assert (Hsorted : StronglySorted Z.le (map cr_left (r :: rest0))).
      { pose proof (inv_sorted _ _ _ Hinv) as Hs. rewrite Hrs, List.map_app in Hs.
        now apply sorted_app_r in Hs. }
      assert (Hge : forall b, In b rest0 -> c <= cr_left b).
      { intros b Hb. simpl in Hsorted. apply StronglySorted_inv in Hsorted as [_ Hall'].
        rewrite List.Forall_forall in Hall'. apply Hall'. now apply List.in_map. }
      assert (Htr : trailing c (r :: rest0) = trailing c rest0)
        by (unfold c; simpl; now rewrite Z.eqb_refl).
      cbn [map]. fold c.
      rewrite nodup_trailing; [|now apply StronglySorted_inv in Hsorted|exact Hge].
      rewrite <- Htr. constructor; [|exact Hall].
      cbn [nodes_in_out nodes_out]. split.
      * f_equal. rewrite Hrs1, !List.filter_app.
        assert (Hgrp : Forall (fun x => cr_left x = c) (leading c (r :: rest0)))
          by apply leading_all.
        rewrite List.Forall_forall in Hgrp.
        assert (Hrin : In r (leading c (r :: rest0)))
          by (unfold c; simpl; rewrite Z.eqb_refl; now left).
        rewrite (filter_none _ done), (filter_all _ (leading c (r :: rest0))),
          (filter_none _ (trailing c (r :: rest0))).
        -- now rewrite List.app_nil_r.
        -- intros x Hx. apply Z.eqb_neq.
           assert (c < cr_left x); [|lia].
           rewrite <- (Hgrp r Hrin). apply Hlt1; [|exact Hx].
           apply List.in_app_iff. now right.
        -- intros x Hx. apply Z.eqb_eq. now apply Hgrp.
        -- intros x Hx. apply Z.eqb_neq.
           assert (cr_left x < c); [|lia]. apply Hlt; [exact Hx|now left].
      * unfold expiring. f_equal. rewrite Hrs, List.filter_app.
        rewrite (filter_none _ (r :: rest0)); [now rewrite List.app_nil_r|].
        intros x Hx. apply Z.eqb_neq.
        assert (Hxr : In x rs) by (rewrite Hrs; apply List.in_app_iff; now right).
        destruct (inv_record _ _ _ Hinv x Hxr) as (Hxl & _).
        assert (c <= cr_left x); [|lia].
        destruct Hx as [<-|Hx]; [unfold c; lia|now apply Hge].
Qed.

(** The distinct left values after the first are inside the sequence. *)
Lemma later_edges_inside (k : nat) (c : Z) :
  nodup Z.eq_dec (map cr_left rs) !! S k = Some c -> 0 < c < num_loci s.
Proof using Hinv.
  intros Hk.
  assert (Hleft : forall x, In x (nodup Z.eq_dec (map cr_left rs)) ->
                            0 <= x < num_loci s).
  { intros x Hx. apply (proj1 (nodup_In Z.eq_dec _ x)) in Hx.
    apply List.in_map_iff in Hx as (r & <- & Hr).
    destruct (inv_record _ _ _ Hinv r Hr) as (Hlr & HrL & _). lia. }
  assert (Hc : In c (nodup Z.eq_dec (map cr_left rs))).
  { apply list_elem_of_In. eapply list_elem_of_lookup_2. exact Hk. }
  destruct (lookup_lt_is_Some_2 (nodup Z.eq_dec (map cr_left rs)) 0) as (c0 & H0).
  { apply lookup_lt_Some in Hk. lia. }
  assert (Hc0 : In c0 (nodup Z.eq_dec (map cr_left rs))).
  { apply list_elem_of_In. eapply list_elem_of_lookup_2. exact H0. }
  pose proof (sorted_lookup_lt _ (nodup_sorted _ (inv_sorted _ _ _ Hinv))
                0 (S k) c0 c ltac:(lia) H0 Hk).
  pose proof (Hleft c Hc). pose proof (Hleft c0 Hc0). lia.
Qed.

End Contents.

(** X14: in a complete run of the distinct-trees mode over a store whose
    records give a valid local tree at every coordinate, the first step
    takes nothing out and brings in [sample_size - 1] nodes, and every later
    step brings in as many nodes as it takes out: the tree keeps its
    [sample_size - 1] internal nodes. *)
Theorem distinct_trees_conserve_nodes (s : tree_sequence_t) (bps : list Z)
  (rs : list coalescence_record_t) (fl : Z) (cr0 : coalescence_record_t)
  (outs : step_t) (fuel : nat) :
  store_holds s bps rs ->
  tree_invariants (sample_size s) (num_loci s) rs = true ->
  store_in_range s ->
  Z.land fl MSP_ALL_BREAKPOINTS = 0 ->
  (length rs < fuel)%nat ->
  exists steps st' outs',
    iterate fuel (snd (tree_diff_iterator_alloc s fl)) cr0 outs
    = Done (steps, 0, st', outs') /\
    (forall step, steps !! 0%nat = Some step ->
       nodes_out step = [] /\
       Z.of_nat (length (nodes_in_out step)) = sample_size s - 1) /\
    (forall (k : nat) (step : step_t), steps !! S k = Some step ->
       length (nodes_in_out step) = length (nodes_out step)).
Proof.
  intros Hholds Hinv Hrange Hfl Hfuel.
  destruct (alloc_at s bps rs Hholds Hinv Hrange fl) as (_ & Hat & Hflags & _).
  destruct (run_distinct_contents s bps rs Hholds Hinv Hrange cr0 (length rs) rs []
              (snd (tree_diff_iterator_alloc s fl)) outs fuel
              (Nat.le_refl _) Hfuel Hat ltac:(now rewrite Hflags))
    as (steps & st' & outs' & Hrun & Hall).
  exists steps, st', outs'. split; [exact Hrun|]. split.
  - intros step Hk.
    destruct (Forall2_lookup_r _ _ _ _ _ Hall Hk) as (c & Hc & Hin & Hout).
    assert (Hne : rs <> []) by (intros ->; discriminate).
    destruct rs as [|r0 rest0] eqn:E; [contradiction|]. rewrite <- E in *.
    assert (HL : num_loci s <> 0).
    { assert (Hr0 : In r0 rs) by (rewrite E; now left).
      destruct (inv_record _ _ _ Hinv r0 Hr0). lia. }
    assert (Hc0 : c = 0).
    { pose proof (first_left_zero s rs Hinv r0 rest0 E) as Hz.
      pose proof (inv_sorted _ _ _ Hinv) as Hs. rewrite E in Hs, Hc.
      cbn [map] in Hs, Hc. rewrite Hz in Hs, Hc. rewrite nodup_trailing in Hc.
      - now inversion Hc.
      - now apply StronglySorted_inv in Hs.
      - intros b Hb. apply StronglySorted_inv in Hs as [_ Hall'].
        rewrite List.Forall_forall in Hall'. apply Hall'. now apply List.in_map. }
    subst c. destruct (first_tree_in s rs Hinv HL) as [Hfirst Hnone].
    rewrite Hin, Hout, Hnone, List.length_map. now split.
  - intros k step Hk.
    destruct (Forall2_lookup_r _ _ _ _ _ Hall Hk) as (c & Hc & Hin & Hout).
    pose proof (later_edges_inside s rs Hinv k c Hc) as Hinside.
    rewrite Hin, Hout, !List.length_map. now apply (in_out_balance s rs Hinv).
Qed.

Lemma distinct_trees_conserve_nodes_witness :
  exists steps st' outs',
    iterate 6 (snd (tree_diff_iterator_alloc S2_store 0)) record_zero blank_step
    = Done (steps, 0, st', outs') /\
    (forall step, steps !! 0%nat = Some step ->
       nodes_out step = [] /\
       Z.of_nat (length (nodes_in_out step)) = sample_size S2_store - 1) /\
    (forall (k : nat) (step : step_t), steps !! S k = Some step ->
       length (nodes_in_out step) = length (nodes_out step)).
Proof.
  apply (distinct_trees_conserve_nodes S2_store [0; 4; 10] S2_sorted 0
           record_zero blank_step 6).
  - apply store_of_holds.
  - vm_compute. reflexivity.
  - unfold store_in_range. repeat split.
  - reflexivity.
  - simpl. lia.
Defined.

Section BreakpointsEnd.

Variables (s : tree_sequence_t) (bps : list Z) (rs : list coalescence_record_t).
Hypothesis Hholds : store_holds s bps rs.
Hypothesis Hinv : tree_invariants (sample_size s) (num_loci s) rs = true.
Hypothesis Hrange : store_in_range s.
Hypothesis Hbok : breakpoints_ok (num_loci s) bps = true.
Hypothesis Hcover : breakpoints_cover bps rs = true.

(** Where a complete run in the all-breakpoints mode leaves the iterator. *)
Lemma run_all_breakpoints_to_end (cr0 : coalescence_record_t) :
  forall (k i : nat) (b : Z) (done rest : list coalescence_record_t)
         (st : tree_diff_iterator_t) (outs : step_t) (fuel : nat),
    (i + k + 1 = length bps)%nat -> (k < fuel)%nat ->
    bps !! i = Some b ->
    breakpoint_at s rs i b done rest st ->
    exists steps st' outs' done' rest',
      iterate fuel st cr0 outs = Done (steps, 0, st', outs') /\
      breakpoint_at s rs (length bps - 1) (num_loci s) done' rest' st'.
Proof using Hholds Hinv Hrange Hbok Hcover.
  induction k as [|k IH]; intros i b done rest st outs fuel Hik Hfuel Hi Hbp;
    (destruct fuel as [|fuel]; [lia|]); cbn [iterate].
  - assert (Hil : i = (length bps - 1)%nat) by lia.
    assert (Hb : b = num_loci s).
    { pose proof (bps_last s bps Hbok) as Hl. rewrite <- Hil, Hi in Hl. now inversion Hl. }
    subst b. rewrite Hil in Hbp.
    destruct (next_breakpoint_end s bps rs Hholds Hinv Hrange Hbok done rest st cr0 outs Hbp)
      as (Hnext & _).
    rewrite Hnext. cbn [bind Z.eqb]. eauto 10.
  - destruct (lookup_lt_is_Some_2 bps (S i) ltac:(lia)) as (b1 & Hi1).
    destruct (next_breakpoint_step s bps rs Hholds Hinv Hrange Hbok Hcover
                i b b1 done rest st cr0 outs Hi Hi1 Hbp)
      as (st1 & done1 & rest1 & step1 & Hnext & Hbp1 & _).
    rewrite Hnext. cbn [bind Z.eqb Pos.eqb].
    destruct (IH (S i) b1 done1 rest1 st1 step1 fuel ltac:(lia) ltac:(lia) Hi1 Hbp1)
      as (steps & st' & outs' & done' & rest' & Hrun & Hend).
    rewrite Hrun. cbn [bind]. eauto 10.
Qed.

Lemma calls_at_last_breakpoint (cr0 : coalescence_record_t)
  (done rest : list coalescence_record_t) (st : tree_diff_iterator_t) (outs : step_t) :
  breakpoint_at s rs (length bps - 1) (num_loci s) done rest st ->
  forall count : nat,
    call_next count st cr0 outs = Done (repeat (0, outs) count, st).
Proof using Hholds Hinv Hrange Hbok.
  intros Hbp. induction count as [|count IH]; [reflexivity|].
  cbn [call_next repeat].
  destruct (next_breakpoint_end s bps rs Hholds Hinv Hrange Hbok done rest st cr0 outs Hbp)
    as (Hnext & _).
  rewrite Hnext. cbn [bind]. rewrite IH. reflexivity.
Qed.

End BreakpointsEnd.

(** X15: in the all-breakpoints mode [End] is absorbing too, and there it
    writes nothing: once a complete run has returned 0, any number of
    further calls return 0 and leave the iterator and the three
    out-variables exactly as they were. *)
Theorem all_breakpoints_end_is_stable (s : tree_sequence_t) (bps : list Z)
  (rs : list coalescence_record_t) (fl : Z) (cr0 : coalescence_record_t)
  (outs : step_t) (fuel : nat) :
  store_holds s bps rs ->
  tree_invariants (sample_size s) (num_loci s) rs = true ->
  breakpoints_ok (num_loci s) bps = true ->
  breakpoints_cover bps rs = true ->
  store_in_range s ->
  Z.land fl MSP_ALL_BREAKPOINTS <> 0 ->
  (length bps <= fuel)%nat ->
  exists steps st' outs',
    iterate fuel (snd (tree_diff_iterator_alloc s fl)) cr0 outs
    = Done (steps, 0, st', outs') /\
    forall count : nat,
      call_next count st' cr0 outs' = Done (repeat (0, outs') count, st').
Proof.
  intros Hholds Hinv Hbok Hcover Hrange Hfl Hfuel.
  pose proof (bps_first s bps Hbok) as Hfirst.
  pose proof (lookup_lt_Some _ _ _ Hfirst) as Hlen.
  destruct (run_all_breakpoints_to_end s bps rs Hholds Hinv Hrange Hbok Hcover cr0
              (length bps - 1) 0 0 [] rs (snd (tree_diff_iterator_alloc s fl))
              outs fuel ltac:(lia) ltac:(lia) Hfirst
              (alloc_breakpoint_at s bps rs Hholds Hinv Hrange Hbok Hcover fl Hfl))
    as (steps & st' & outs' & done' & rest' & Hrun & Hend).
  exists steps, st', outs'. split; [exact Hrun|].
  now apply (calls_at_last_breakpoint s bps rs Hholds Hinv Hrange Hbok cr0 done' rest').
Qed.

Lemma all_breakpoints_end_is_stable_witness :
  exists steps st' outs',
    iterate 4 (snd (tree_diff_iterator_alloc S4_store MSP_ALL_BREAKPOINTS))
      record_zero blank_step
    = Done (steps, 0, st', outs') /\
    forall count : nat,
      call_next count st' record_zero outs' = Done (repeat (0, outs') count, st').
Proof.
  apply (all_breakpoints_end_is_stable S4_store [0; 2; 4; 10] S2_sorted
           MSP_ALL_BREAKPOINTS record_zero blank_step 4).
  - apply store_of_holds.
  - vm_compute. reflexivity.
  - vm_compute. reflexivity.
  - vm_compute. reflexivity.
  - unfold store_in_range. repeat split.
  - discriminate.
  - simpl. lia.
Defined.

(** X16: an iterator over a store with no record.  In the distinct-trees
    mode the first call returns 0 at once: it sets [*nodes_out] to NULL and
    leaves [*length], [*nodes_in] and the iterator as they were.  In the
    all-breakpoints mode, when the breakpoints start with 0 and there are at
    least two of them, the first call takes the same path, gets that 0, and
    stops at the assertion [ret == 1]. *)
Theorem iterator_empty_record_table (s : tree_sequence_t) (fl : Z)
  (cr0 : coalescence_record_t) (outs : step_t) :
  num_records s = 0 ->
  (Z.land fl MSP_ALL_BREAKPOINTS = 0 ->
   tree_diff_iterator_next (snd (tree_diff_iterator_alloc s fl)) cr0 outs
   = Done (0, snd (tree_diff_iterator_alloc s fl),
           {| length_out := length_out outs; nodes_out := [];
              nodes_in_out := nodes_in_out outs |})) /\
  (Z.land fl MSP_ALL_BREAKPOINTS <> 0 ->
   forall (b1 : Z) (more : list Z),
     breakpoints s = Some (0 :: b1 :: more) ->
     num_breakpoints s = Z.of_nat (length (0 :: b1 :: more)) ->
     num_breakpoints s < 2 ^ 64 ->
     tree_diff_iterator_next (snd (tree_diff_iterator_alloc s fl)) cr0 outs
     = AssertFailed).
Proof.
  intros Hnr.
  assert (Htree : forall fl',
             tree_diff_iterator_next_tree (snd (tree_diff_iterator_alloc s fl')) cr0 outs
             = Done (0, snd (tree_diff_iterator_alloc s fl'),
                     {| length_out := length_out outs; nodes_out := [];
                        nodes_in_out := nodes_in_out outs |})).
  { intros fl'. unfold tree_diff_iterator_next_tree, next_tree_retire,
      tree_diff_iterator_alloc, tree_sequence_get_num_coalescence_records.
    cbn. rewrite Hnr. reflexivity. }
  split.
  - intros Hfl. rewrite next_distinct; [apply Htree|]. exact Hfl.
  - intros Hfl b1 more Hbp Hnb Hsmall.
    unfold tree_diff_iterator_next.
    replace (flags (snd (tree_diff_iterator_alloc s fl))) with fl by reflexivity.
    destruct (Z.eqb_spec (Z.land fl MSP_ALL_BREAKPOINTS) 0) as [|_]; [contradiction|].
    cbn [negb]. rewrite Htree.
    replace (tree_sequence (snd (tree_diff_iterator_alloc s fl))) with s by reflexivity.
    replace (current_breakpoint_index (snd (tree_diff_iterator_alloc s fl)))
      with 0 by reflexivity.
    replace (next_breakpoint (snd (tree_diff_iterator_alloc s fl))) with 0 by reflexivity.
    rewrite Hbp.
    replace (0 <? size_t (num_breakpoints s - 1)) with true.
    + reflexivity.
    + symmetry. apply Z.ltb_lt. unfold size_t. rewrite Z.mod_small; rewrite Hnb in *;
        cbn [length] in *; lia.
Qed.

Lemma iterator_empty_record_table_witness :
  (Z.land 0 MSP_ALL_BREAKPOINTS = 0 ->
   tree_diff_iterator_next (snd (tree_diff_iterator_alloc S5_store 0))
     record_zero blank_step
   = Done (0, snd (tree_diff_iterator_alloc S5_store 0),
           {| length_out := length_out blank_step; nodes_out := [];
              nodes_in_out := nodes_in_out blank_step |})) /\
  (Z.land 0 MSP_ALL_BREAKPOINTS <> 0 ->
   forall (b1 : Z) (more : list Z),
     breakpoints S5_store = Some (0 :: b1 :: more) ->
     num_breakpoints S5_store = Z.of_nat (length (0 :: b1 :: more)) ->
     num_breakpoints S5_store < 2 ^ 64 ->
     tree_diff_iterator_next (snd (tree_diff_iterator_alloc S5_store 0))
       record_zero blank_step
     = AssertFailed).
Proof.
  apply (iterator_empty_record_table S5_store 0 record_zero blank_step).
  reflexivity.
Defined.

(** X17: the bound of the all-breakpoints mode is [num_breakpoints - 1] in
    [size_t]: for a store with no breakpoint it wraps to the greatest
    [size_t], the test passes, and the first call reads [breakpoints[0]]
    from a block that has no entry (or from NULL). *)
Theorem all_breakpoints_bound_wraps (s : tree_sequence_t) (fl : Z)
  (cr0 : coalescence_record_t) (outs : step_t) :
  num_breakpoints s = 0 ->
  breakpoints s = Some [] \/ breakpoints s = None ->
  Z.land fl MSP_ALL_BREAKPOINTS <> 0 ->
  size_t (num_breakpoints s - 1) = 2 ^ 64 - 1 /\
  tree_diff_iterator_next (snd (tree_diff_iterator_alloc s fl)) cr0 outs = Undefined.
Proof.
  intros Hnb Hbp Hfl. rewrite Hnb. split; [reflexivity|].
  unfold tree_diff_iterator_next.
  replace (flags (snd (tree_diff_iterator_alloc s fl))) with fl by reflexivity.
  destruct (Z.eqb_spec (Z.land fl MSP_ALL_BREAKPOINTS) 0) as [|_]; [contradiction|].
  cbn [negb].
  replace (tree_sequence (snd (tree_diff_iterator_alloc s fl))) with s by reflexivity.
  replace (current_breakpoint_index (snd (tree_diff_iterator_alloc s fl)))
    with 0 by reflexivity.
  rewrite Hnb. change (0 <? size_t (0 - 1)) with true. cbn iota.
  destruct Hbp as [-> | ->]; reflexivity.
Qed.

Lemma all_breakpoints_bound_wraps_witness :
  size_t (num_breakpoints (store_of 4 10 [] []) - 1) = 2 ^ 64 - 1 /\
  tree_diff_iterator_next
    (snd (tree_diff_iterator_alloc (store_of 4 10 [] []) MSP_ALL_BREAKPOINTS))
    record_zero blank_step
  = Undefined.
Proof.
  apply (all_breakpoints_bound_wraps (store_of 4 10 [] []) MSP_ALL_BREAKPOINTS).
  - reflexivity.
  - now left.
  - discriminate.
Defined.

(** X18: one record through [tree_diff_iterator_process_record].  With two
    free tree nodes and, when its right coordinate is new, a free list and
    map node, it returns 0, the record's node is at the tail of [nodes_in]
    and a second copy at the tail of the list the map keeps under its right
    coordinate.  With no free tree node it returns [MSP_ERR_NO_MEMORY] and
    the iterator is untouched; with just one, and the right coordinate
    already in the map, it returns [MSP_ERR_NO_MEMORY] after the first copy
    was linked into [nodes_in]. *)
Theorem process_record_links_node (st : tree_diff_iterator_t)
  (alive : list coalescence_record_t) (nin : list tree_node_t)
  (r : coalescence_record_t) :
  memory_holds st alive nin ->
  heap_capacity (avl_node_heap st) = heap_capacity (tree_node_list_heap st) ->
  (Z.of_nat (length nin) + Z.of_nat (length alive) + 2
   <= heap_capacity (tree_node_heap st) ->
   Z.of_nat (distinct_rights (alive ++ [r])) <= heap_capacity (tree_node_list_heap st) ->
   exists st',
     tree_diff_iterator_process_record st r = Done (0, st') /\
     memory_holds st' (alive ++ [r]) (nin ++ [node_of r]) /\
     avl_search (active_nodes st') (cr_right r)
     = Some (cr_right r, expiring alive (cr_right r) ++ [node_of r])) /\
  (heap_capacity (tree_node_heap st)
   <= Z.of_nat (length nin) + Z.of_nat (length alive) ->
   tree_diff_iterator_process_record st r = Done (MSP_ERR_NO_MEMORY, st)) /\
  (heap_capacity (tree_node_heap st)
   = Z.of_nat (length nin) + Z.of_nat (length alive) + 1 ->
   In (cr_right r) (map cr_right alive) ->
   exists st',
     tree_diff_iterator_process_record st r = Done (MSP_ERR_NO_MEMORY, st') /\
     nodes_in st' = nin ++ [node_of r] /\
     active_nodes st' = active_nodes st /\
     heap_allocs (tree_node_heap st') = heap_allocs (tree_node_heap st) + 1).
Proof.
  intros Hmem Hcap. split; [|split].
  - intros Hroom Hkeys.
    destruct (process_record_ok st alive nin r Hmem Hroom Hkeys Hcap)
      as (st' & Hrun & Hmem' & _).
    exists st'. split; [exact Hrun|]. split; [exact Hmem'|].
    destruct Hmem' as ((_ & Hsearch) & _). rewrite Hsearch.
    rewrite expiring_app. unfold expiring at 2. cbn [List.filter].
    rewrite Z.eqb_refl. cbn [map].
    destruct (expiring alive (cr_right r)); reflexivity.
  - intros Hfull. destruct Hmem as (_ & _ & (Hf & Ha) & _).
    unfold tree_diff_iterator_process_record, tree_diff_iterator_alloc_tree_node,
      object_heap_empty, heap_live.
    destruct (Z.leb_spec (heap_capacity (tree_node_heap st))
                (heap_allocs (tree_node_heap st) - heap_frees (tree_node_heap st)));
      [reflexivity|lia].
  - intros Hone Hin. destruct Hmem as ((Hs & Hsearch) & Hnin & Htree & _).
    unfold tree_diff_iterator_process_record.
    rewrite (alloc_tree_node_ok st r _ Htree) by lia.
    cbn [set_memory active_nodes nodes_in tree_node_heap tree_node_list_heap
         avl_node_heap].
    rewrite Hsearch.
    apply expiring_nonempty in Hin.
    destruct (expiring alive (cr_right r)) as [|x l] eqn:E; [contradiction|].
    cbn [bind].
    unfold tree_diff_iterator_alloc_tree_node, object_heap_empty, heap_live, heap_after.
    cbn [set_memory active_nodes nodes_in tree_node_heap tree_node_list_heap
         avl_node_heap heap_capacity heap_allocs heap_frees].
    destruct Htree as (Hf & Ha).
    destruct (Z.leb_spec (heap_capacity (tree_node_heap st))
                (heap_allocs (tree_node_heap st) + 1 - (heap_frees (tree_node_heap st) + 0)));
      [|lia].
    eexists. split; [reflexivity|]. cbn. rewrite Hnin. auto.
Qed.

Lemma process_record_links_node_witness :
  exists st',
    tree_diff_iterator_process_record (snd (tree_diff_iterator_alloc S2_store 0))
      (mk_record 0 4 5 1 2 t_0_5)
    = Done (0, st') /\
    memory_holds st' ([] ++ [mk_record 0 4 5 1 2 t_0_5])
      ([] ++ [node_of (mk_record 0 4 5 1 2 t_0_5)]) /\
    avl_search (active_nodes st') (cr_right (mk_record 0 4 5 1 2 t_0_5))
    = Some (cr_right (mk_record 0 4 5 1 2 t_0_5),
            expiring [] (cr_right (mk_record 0 4 5 1 2 t_0_5))
            ++ [node_of (mk_record 0 4 5 1 2 t_0_5)]).
Proof.
  assert (Hmem : memory_holds (snd (tree_diff_iterator_alloc S2_store 0)) [] []).
  { unfold memory_holds, heap_ok. cbn. repeat split; try lia. constructor. }
  apply (proj1 (process_record_links_node (snd (tree_diff_iterator_alloc S2_store 0))
                  [] [] (mk_record 0 4 5 1 2 t_0_5) Hmem eq_refl)).
  - vm_compute. discriminate.
  - vm_compute. discriminate.
Defined.

(** ** The iterator: the whole output of a run *)

Lemma sorted_snoc (l : list Z) (y : Z) :
  StronglySorted Z.lt l -> (forall x, In x l -> x < y) ->
  StronglySorted Z.lt (l ++ [y]).
Proof.
  induction 1 as [|x l Hs IH Hall]; intros Hlt; cbn [app].
  - repeat constructor.
  - constructor.
    + apply IH. intros z Hz. apply Hlt. now right.
    + apply List.Forall_app. split; [exact Hall|].
      constructor; [|constructor]. apply Hlt. now left.
Qed.

Lemma sorted_same_elements (l1 : list Z) :
  forall l2 : list Z,
    StronglySorted Z.lt l1 -> StronglySorted Z.lt l2 ->
    (forall x, In x l1 <-> In x l2) -> l1 = l2.
Proof.
  induction l1 as [|a l1 IH]; intros l2 H1 H2 Hsame.
  - destruct l2 as [|b l2]; [reflexivity|].
    exfalso. apply (proj2 (Hsame b)). now left.
  - destruct l2 as [|b l2]; [exfalso; apply (proj1 (Hsame a)); now left|].
    apply StronglySorted_inv in H1 as [H1 Ha]. apply StronglySorted_inv in H2 as [H2 Hb].
    rewrite List.Forall_forall in Ha, Hb.
    assert (a = b).
    { destruct (proj1 (Hsame a) (or_introl eq_refl)) as [|Hin]; [congruence|].
      destruct (proj2 (Hsame b) (or_introl eq_refl)) as [|Hin']; [congruence|].
      specialize (Ha b Hin'). specialize (Hb a Hin). lia. }
    subst b. f_equal. apply IH; auto.
    intros x. split; intros Hx.
    + destruct (proj1 (Hsame x) (or_intror Hx)) as [->|]; [|assumption].
      specialize (Ha x Hx). lia.
    + destruct (proj2 (Hsame x) (or_intror Hx)) as [->|]; [|assumption].
      specialize (Hb x Hx). lia.
Qed.

Lemma nodup_head (c : Z) (l : list coalescence_record_t) (r : coalescence_record_t) :
  StronglySorted Z.le (map cr_left (r :: l)) ->
  exists tl, nodup Z.eq_dec (map cr_left (r :: l)) = cr_left r :: tl.
Proof.
  intros Hs. cbn [map] in *. rewrite nodup_trailing.
  - eauto.
  - now apply StronglySorted_inv in Hs.
  - intros b Hb. apply StronglySorted_inv in Hs as [_ Hall].
    rewrite List.Forall_forall in Hall. apply Hall. now apply List.in_map.
Qed.

Section Output.

Variables (s : tree_sequence_t) (bps : list Z) (rs : list coalescence_record_t).
Hypothesis Hholds : store_holds s bps rs.
Hypothesis Hinv : tree_invariants (sample_size s) (num_loci s) rs = true.
Hypothesis Hrange : store_in_range s.

(** A complete run in the distinct-trees mode: its steps. *)
Lemma run_distinct_steps (cr0 : coalescence_record_t) :
  forall (m : nat) (rest done : list coalescence_record_t)
         (st : tree_diff_iterator_t) (outs : step_t) (fuel : nat),
    (length rest <= m)%nat -> (m < fuel)%nat ->
    iterator_at s rs done rest st ->
    Z.land (flags st) MSP_ALL_BREAKPOINTS = 0 ->
    exists st' outs',
      iterate fuel st cr0 outs
      = Done (tree_diffs rs (num_loci s) (nodup Z.eq_dec (map cr_left rest)),
              0, st', outs').
Proof using Hholds Hinv Hrange.
  induction m as [|m IH]; intros rest done st outs fuel Hlen Hfuel Hat Hfl;
    (destruct fuel as [|fuel]; [lia|]); cbn [iterate]; rewrite next_distinct by exact Hfl.
  - destruct rest as [|r rest0]; [|simpl in Hlen; lia].
    destruct (next_tree_end s rs Hinv done st cr0 outs Hat) as (st' & Hnext & Hat' & _).
    rewrite Hnext. cbn [bind Z.eqb]. eauto.
  - destruct rest as [|r rest0].
    + destruct (next_tree_end s rs Hinv done st cr0 outs Hat) as (st' & Hnext & Hat' & _).
      rewrite Hnext. cbn [bind Z.eqb]. eauto.
    + destruct (next_tree_step s bps rs Hholds Hinv Hrange done rest0 r st cr0 outs Hat)
        as (st1 & Hnext & Hat1 & Hframe).
      rewrite Hnext. cbn [bind Z.eqb Pos.eqb].
      assert (Hshort : (length (trailing (cr_left r) (r :: rest0)) <= m)%nat).
      { simpl. rewrite Z.eqb_refl.
        pose proof (leading_trailing (cr_left r) rest0) as E.
        apply (f_equal (@length _)) in E. rewrite List.length_app in E.
        simpl in Hlen. lia. }
      destruct Hframe as (_ & Hfl1 & _).
      destruct (IH _ _ st1
                  {| length_out :=
                       match trailing (cr_left r) (r :: rest0) with
                       | r' :: _ => cr_left r'
                       | [] => num_loci s
                       end - cr_left r;
                     nodes_out := expiring done (cr_left r);
                     nodes_in_out := map node_of (leading (cr_left r) (r :: rest0)) |}
                  fuel Hshort ltac:(lia) Hat1 ltac:(now rewrite Hfl1))
        as (st' & outs' & Hrun).
      rewrite Hrun. cbn [bind].
      exists st', outs'.
      match goal with
      | |- Done (?a :: ?l, _, _, _) = Done (?l', _, _, _) =>
          assert (Hsteps : l' = a :: l); [|now rewrite Hsteps]
      end.
      pose proof Hat as (Hrs & Hlt & _). pose proof Hat1 as (Hrs1 & Hlt1 & _).
      set (c := cr_left r) in *.
      assert (Hsorted : StronglySorted Z.le (map cr_left (r :: rest0))).
      { pose proof (inv_sorted _ _ _ Hinv) as Hs. rewrite Hrs, List.map_app in Hs.
        now apply sorted_app_r in Hs. }
      assert (Hge : forall b, In b rest0 -> c <= cr_left b).
      { intros b Hb. simpl in Hsorted. apply StronglySorted_inv in Hsorted as [_ Hall'].
        rewrite List.Forall_forall in Hall'. apply Hall'. now apply List.in_map. }
      assert (Htr : trailing c (r :: rest0) = trailing c rest0)
        by (unfold c; simpl; now rewrite Z.eqb_refl).
      cbn [map]. fold c.
      rewrite nodup_trailing; [|now apply StronglySorted_inv in Hsorted|exact Hge].
      rewrite <- Htr. cbn [tree_diffs]. f_equal. unfold tree_diff. f_equal.
      * f_equal.
        assert (Hs' : StronglySorted Z.le (map cr_left (trailing c (r :: rest0)))).
        { pose proof (inv_sorted _ _ _ Hinv) as Hs. rewrite Hrs1, List.map_app in Hs.
          now apply sorted_app_r in Hs. }
        destruct (trailing c (r :: rest0)) as [|r' rest1]; [reflexivity|].
        destruct (nodup_head c rest1 r' Hs') as (tl & ->). reflexivity.
      * unfold expiring. f_equal. rewrite Hrs, List.filter_app.
        rewrite (filter_none _ (r :: rest0)); [now rewrite List.app_nil_r|].
        intros x Hx. apply Z.eqb_neq.
        assert (Hxr : In x rs) by (rewrite Hrs; apply List.in_app_iff; now right).
        destruct (inv_record _ _ _ Hinv x Hxr) as (Hxl & _).
        assert (c <= cr_left x); [|lia].
        destruct Hx as [<-|Hx]; [unfold c; lia|now apply Hge].
      * f_equal. rewrite Hrs1, !List.filter_app.
        assert (Hgrp : Forall (fun x => cr_left x = c) (leading c (r :: rest0)))
          by apply leading_all.
        rewrite List.Forall_forall in Hgrp.
        assert (Hrin : In r (leading c (r :: rest0)))
          by (unfold c; simpl; rewrite Z.eqb_refl; now left).
        rewrite (filter_none _ done), (filter_all _ (leading c (r :: rest0))),
          (filter_none _ (trailing c (r :: rest0))).
        -- now rewrite List.app_nil_r.
        -- intros x Hx. apply Z.eqb_neq.
           assert (c < cr_left x); [|lia].
           rewrite <- (Hgrp r Hrin). apply Hlt1; [|exact Hx].
           apply List.in_app_iff. now right.
        -- intros x Hx. apply Z.eqb_eq. now apply Hgrp.
        -- intros x Hx. apply Z.eqb_neq.
           assert (cr_left x < c); [|lia]. apply Hlt; [exact Hx|now left].
Qed.

End Output.

(** X19: the whole output of the distinct-trees mode.  Over a store whose
    records give a valid local tree at every coordinate, a run to [End]
    makes one step per distinct left value [c], in increasing order: its
    span reaches the next distinct left value (the last one reaches
    [num_loci]), its out list holds the nodes of the records that end at
    [c] and its in list the nodes of the records that start at [c], both in
    the order of the record table. *)
Theorem distinct_trees_run_output (s : tree_sequence_t) (bps : list Z)
  (rs : list coalescence_record_t) (fl : Z) (cr0 : coalescence_record_t)
  (outs : step_t) (fuel : nat) :
  store_holds s bps rs ->
  tree_invariants (sample_size s) (num_loci s) rs = true ->
  store_in_range s ->
  Z.land fl MSP_ALL_BREAKPOINTS = 0 ->
  (length rs < fuel)%nat ->
  exists st' outs',
    iterate fuel (snd (tree_diff_iterator_alloc s fl)) cr0 outs
    = Done (tree_diffs rs (num_loci s) (nodup Z.eq_dec (map cr_left rs)),
            0, st', outs').
Proof.
  intros Hholds Hinv Hrange Hfl Hfuel.
  destruct (alloc_at s bps rs Hholds Hinv Hrange fl) as (_ & Hat & Hflags & _).
  apply (run_distinct_steps s bps rs Hholds Hinv Hrange cr0 (length rs) rs []
           (snd (tree_diff_iterator_alloc s fl)) outs fuel
           (Nat.le_refl _) Hfuel Hat).
  now rewrite Hflags.
Qed.

Lemma distinct_trees_run_output_witness :
  exists st' outs',
    iterate 6 (snd (tree_diff_iterator_alloc S2_store 0)) record_zero blank_step
    = Done (tree_diffs S2_sorted (num_loci S2_store)
              (nodup Z.eq_dec (map cr_left S2_sorted)),
            0, st', outs').
Proof.
  apply (distinct_trees_run_output S2_store [0; 4; 10] S2_sorted 0
           record_zero blank_step 6).
  - apply store_of_holds.
  - vm_compute. reflexivity.
  - unfold store_in_range. repeat split.
  - reflexivity.
  - simpl. lia.
Defined.

Section OutputBreakpoints.

Variables (s : tree_sequence_t) (bps : list Z) (rs : list coalescence_record_t).
Hypothesis Hholds : store_holds s bps rs.
Hypothesis Hinv : tree_invariants (sample_size s) (num_loci s) rs = true.
Hypothesis Hrange : store_in_range s.
Hypothesis Hbok : breakpoints_ok (num_loci s) bps = true.
Hypothesis Hcover : breakpoints_cover bps rs = true.

(** No record ends at a coordinate inside the sequence where none starts. *)
Lemma no_right_without_left (b : Z) :
  b < num_loci s -> ~ In b (map cr_left rs) ->
  List.filter (fun r => cr_right r =? b) rs = [].
Proof using Hinv.
  intros Hb Hnot. apply filter_none. intros x Hx. apply Z.eqb_neq. intros Hxb.
  destruct (inv_right_is_left _ _ _ Hinv x Hx) as [HL|(r' & Hr' & Hl)]; [lia|].
  apply Hnot. rewrite <- Hxb, <- Hl. now apply List.in_map.
Qed.

(** The out list of a call between two breakpoints. *)
Lemma next_breakpoint_out (i : nat) (b0 b1 : Z)
  (done rest : list coalescence_record_t) (st st' : tree_diff_iterator_t)
  (cr0 : coalescence_record_t) (outs step : step_t) (ret : Z) :
  bps !! i = Some b0 -> bps !! S i = Some b1 ->
  breakpoint_at s rs i b0 done rest st ->
  tree_diff_iterator_next st cr0 outs = Done (ret, st', step) ->
  nodes_out step = map node_of (List.filter (fun r => cr_right r =? b0) rs).
Proof using Hholds Hinv Hrange Hbok Hcover.
  intros Hi Hi1 (Hat & Hfl & Hcbi & Hnb & Hdone & Hrest) Hrun.
  pose proof Hat as (Hrs & Hlt & Hts & _).
  pose proof Hholds as (_ & Hnbps & Hbps & _).
  pose proof Hrange as (_ & Hnbr & _).
  pose proof (lookup_lt_Some _ _ _ Hi1) as Hi1lt.
  pose proof (sorted_lookup_lt bps (bps_sorted s bps Hbok) i (S i) b0 b1
                ltac:(lia) Hi Hi1) as Hb01.
  pose proof (bps_range s bps Hbok (S i) b1 Hi1) as Hb1.
  assert (Hsz : size_t (Z.of_nat i + 1) = Z.of_nat (S i)).
  { unfold size_t. rewrite Z.mod_small; lia. }
  assert (Hsorted : StronglySorted Z.le (map cr_left rest)).
  { pose proof (inv_sorted _ _ _ Hinv) as Hs. rewrite Hrs, List.map_app in Hs.
    now apply sorted_app_r in Hs. }
  unfold tree_diff_iterator_next in Hrun.
  destruct (Z.eqb_spec (Z.land (flags st) MSP_ALL_BREAKPOINTS) 0) as [|_]; [contradiction|].
  cbn [negb] in Hrun. rewrite Hts, Hnbps, Hbps, Hcbi in Hrun.
  replace (Z.of_nat i <? size_t (Z.of_nat (length bps) - 1)) with true in Hrun
    by (symmetry; apply Z.ltb_lt; unfold size_t; rewrite Z.mod_small; lia).
  rewrite (array_get_lookup bps i b0 Hi) in Hrun. cbn [bind] in Hrun.
  destruct (Z.eqb_spec b0 (next_breakpoint st)) as [Heq|Hneq]; cbn [negb bind] in Hrun.
  - destruct rest as [|r rest0].
    { exfalso. rewrite Hnb in Heq. lia. }
    rewrite Hnb in Heq.
    destruct (next_tree_step s bps rs Hholds Hinv Hrange done rest0 r st cr0 outs Hat)
      as (st1 & Hnext & Hat1 & Hframe).
    rewrite Hnext in Hrun. cbn [bind Z.ltb Z.compare Z.eqb Pos.eqb negb] in Hrun.
    pose proof Hframe as (_ & Hfl1 & _ & Hcbi1 & Hnb1 & _).
    cbn [current_breakpoint_index set_breakpoint_cursor next_breakpoint length_out
         nodes_out nodes_in_out] in Hrun.
    rewrite Hcbi1, Hcbi, Hsz in Hrun.
    rewrite (array_get_lookup bps (S i) b1 Hi1) in Hrun. cbn [bind] in Hrun.
    replace (Z.of_nat (S i) - 1) with (Z.of_nat i) in Hrun by lia.
    rewrite (array_get_lookup bps i b0 Hi) in Hrun. cbn [bind] in Hrun.
    inversion Hrun; subst ret st' step. cbn [nodes_out].
    unfold expiring. f_equal. rewrite <- Heq. rewrite Hrs. rewrite List.filter_app.
    rewrite (filter_none _ (r :: rest0)); [now rewrite List.app_nil_r|].
    intros x Hx. apply Z.eqb_neq.
    assert (Hxr : In x rs) by (rewrite Hrs; apply List.in_app_iff; now right).
    destruct (inv_record _ _ _ Hinv x Hxr) as (Hxl & _).
    assert (cr_left r <= cr_left x); [|lia].
    destruct Hx as [<-|Hx]; [lia|].
    simpl in Hsorted. apply StronglySorted_inv in Hsorted as [_ Hall].
    rewrite List.Forall_forall in Hall. apply Hall. now apply List.in_map.
  - cbn [current_breakpoint_index set_breakpoint_cursor next_breakpoint length_out
         nodes_out nodes_in_out] in Hrun.
    rewrite Hcbi, Hsz in Hrun.
    rewrite (array_get_lookup bps (S i) b1 Hi1) in Hrun. cbn [bind] in Hrun.
    replace (Z.of_nat (S i) - 1) with (Z.of_nat i) in Hrun by lia.
    rewrite (array_get_lookup bps i b0 Hi) in Hrun. cbn [bind] in Hrun.
    inversion Hrun; subst ret st' step. cbn [nodes_out].
    rewrite no_right_without_left; [reflexivity|lia|].
    intros Hin. apply List.in_map_iff in Hin as (x & Hxl & Hx).
    rewrite Hrs in Hx. apply List.in_app_iff in Hx as [Hx|Hx].
    + specialize (Hdone x Hx). lia.
    + destruct rest as [|r rest0]; [contradiction|].
      assert (b0 < cr_left r) by (specialize (Hrest r (or_introl eq_refl)); lia).
      destruct Hx as [<-|Hx]; [lia|].
      simpl in Hsorted. apply StronglySorted_inv in Hsorted as [_ Hall].
      rewrite List.Forall_forall in Hall.
      specialize (Hall (cr_left x) (List.in_map cr_left _ _ Hx)). lia.
Qed.

(** One call between two breakpoints: the whole step. *)
Lemma next_breakpoint_diff (i : nat) (b0 b1 : Z)
  (done rest : list coalescence_record_t) (st : tree_diff_iterator_t)
  (cr0 : coalescence_record_t) (outs : step_t) :
  bps !! i = Some b0 -> bps !! S i = Some b1 ->
  breakpoint_at s rs i b0 done rest st ->
  exists st' done' rest',
    tree_diff_iterator_next st cr0 outs = Done (1, st', tree_diff rs b0 b1) /\
    breakpoint_at s rs (S i) b1 done' rest' st'.
Proof using Hholds Hinv Hrange Hbok Hcover.
  intros Hi Hi1 Hbp.
  destruct (next_breakpoint_step s bps rs Hholds Hinv Hrange Hbok Hcover
              i b0 b1 done rest st cr0 outs Hi Hi1 Hbp)
    as (st' & done' & rest' & step & Hnext & Hbp' & Hlen & Hempty & Hfull).
  pose proof (next_breakpoint_out i b0 b1 done rest st st' cr0 outs step 1
                Hi Hi1 Hbp Hnext) as Hout.
  exists st', done', rest'. split; [|exact Hbp'].
  rewrite Hnext. do 3 f_equal.
  destruct step as [len out inn]. cbn [length_out nodes_out nodes_in_out] in *.
  unfold tree_diff. f_equal; [exact Hlen|exact Hout|].
  destruct (mem b0 (map cr_left rs)) eqn:Emem.
  - now apply Hfull.
  - destruct (Hempty eq_refl) as [_ ->].
    apply mem_not_In in Emem. rewrite filter_none; [reflexivity|].
    intros x Hx. apply Z.eqb_neq. intros Hxl. apply Emem.
    rewrite <- Hxl. now apply List.in_map.
Qed.

(** A complete run in the all-breakpoints mode: its steps. *)
Lemma run_all_breakpoints_steps (cr0 : coalescence_record_t) :
  forall (k i : nat) (b : Z) (done rest : list coalescence_record_t)
         (st : tree_diff_iterator_t) (outs : step_t) (fuel : nat),
    (i + k + 1 = length bps)%nat -> (k < fuel)%nat ->
    bps !! i = Some b ->
    breakpoint_at s rs i b done rest st ->
    exists st' outs',
      iterate fuel st cr0 outs
      = Done (tree_diffs rs (num_loci s) (List.removelast (drop i bps)), 0, st', outs').
Proof using Hholds Hinv Hrange Hbok Hcover.
  induction k as [|k IH]; intros i b done rest st outs fuel Hik Hfuel Hi Hbp;
    (destruct fuel as [|fuel]; [lia|]); cbn [iterate].
  - assert (Hil : i = (length bps - 1)%nat) by lia.
    assert (Hb : b = num_loci s).
    { pose proof (bps_last s bps Hbok) as Hl. rewrite <- Hil, Hi in Hl. now inversion Hl. }
    subst b. pose proof Hbp as Hbp'. rewrite Hil in Hbp'.
    destruct (next_breakpoint_end s bps rs Hholds Hinv Hrange Hbok done rest st cr0 outs Hbp')
      as (Hnext & _).
    rewrite Hnext. cbn [bind Z.eqb].
    rewrite (drop_S bps (num_loci s) i Hi), drop_ge by lia.
    cbn [List.removelast tree_diffs]. eauto.
  - destruct (lookup_lt_is_Some_2 bps (S i) ltac:(lia)) as (b1 & Hi1).
    destruct (next_breakpoint_diff i b b1 done rest st cr0 outs Hi Hi1 Hbp)
      as (st1 & done1 & rest1 & Hnext & Hbp1).
    rewrite Hnext. cbn [bind Z.eqb Pos.eqb].
    destruct (IH (S i) b1 done1 rest1 st1 (tree_diff rs b b1) fuel
                ltac:(lia) ltac:(lia) Hi1 Hbp1)
      as (st' & outs' & Hrun).
    rewrite Hrun. cbn [bind]. exists st', outs'. do 3 f_equal.
    rewrite (drop_S bps b i Hi), (drop_S bps b1 (S i) Hi1).
    cbn [List.removelast tree_diffs].
    destruct (drop (S (S i)) bps) as [|b2 tl] eqn:E.
    + cbn [List.removelast tree_diffs]. do 2 f_equal.
      assert (S i = (length bps - 1)%nat).
      { apply (f_equal (@length _)) in E. rewrite length_drop in E. simpl in E.
        apply lookup_lt_Some in Hi1. lia. }
      pose proof (bps_last s bps Hbok) as Hl. rewrite <- H, Hi1 in Hl. now inversion Hl.
    + reflexivity.
Qed.

End OutputBreakpoints.

(** X20: the whole output of the all-breakpoints mode.  Over a store whose
    records give a valid local tree at every coordinate and whose
    breakpoints rise from 0 to [num_loci] and hold every left and right
    value, a run to [End] makes one step per breakpoint [b] but the last:
    its span reaches the next breakpoint, its out list holds the nodes of
    the records that end at [b] and its in list the nodes of the records
    that start at [b] (both empty where no record starts). *)
Theorem all_breakpoints_run_output (s : tree_sequence_t) (bps : list Z)
  (rs : list coalescence_record_t) (fl : Z) (cr0 : coalescence_record_t)
  (outs : step_t) (fuel : nat) :
  store_holds s bps rs ->
  tree_invariants (sample_size s) (num_loci s) rs = true ->
  breakpoints_ok (num_loci s) bps = true ->
  breakpoints_cover bps rs = true ->
  store_in_range s ->
  Z.land fl MSP_ALL_BREAKPOINTS <> 0 ->
  (length bps <= fuel)%nat ->
  exists st' outs',
    iterate fuel (snd (tree_diff_iterator_alloc s fl)) cr0 outs
    = Done (tree_diffs rs (num_loci s) (List.removelast bps), 0, st', outs').
Proof.
  intros Hholds Hinv Hbok Hcover Hrange Hfl Hfuel.
  pose proof (bps_first s bps Hbok) as Hfirst.
  pose proof (lookup_lt_Some _ _ _ Hfirst) as Hlen.
  apply (run_all_breakpoints_steps s bps rs Hholds Hinv Hrange Hbok Hcover cr0
           (length bps - 1) 0 0 [] rs (snd (tree_diff_iterator_alloc s fl))
           outs fuel ltac:(lia) ltac:(lia) Hfirst
           (alloc_breakpoint_at s bps rs Hholds Hinv Hrange Hbok Hcover fl Hfl)).
Qed.

Lemma all_breakpoints_run_output_witness :
  exists st' outs',
    iterate 4 (snd (tree_diff_iterator_alloc S4_store MSP_ALL_BREAKPOINTS))
      record_zero blank_step
    = Done (tree_diffs S2_sorted (num_loci S4_store) (List.removelast [0; 2; 4; 10]),
            0, st', outs').
Proof.
  apply (all_breakpoints_run_output S4_store [0; 2; 4; 10] S2_sorted
           MSP_ALL_BREAKPOINTS record_zero blank_step 4).
  - apply store_of_holds.
  - vm_compute. reflexivity.
  - vm_compute. reflexivity.
  - vm_compute. reflexivity.
  - unfold store_in_range. repeat split.
  - discriminate.
  - simpl. lia.
Defined.

Lemma sorted_lt_app (l1 l2 : list Z) :
  StronglySorted Z.lt (l1 ++ l2) ->
  StronglySorted Z.lt l1 /\ forall a b, In a l1 -> In b l2 -> a < b.
Proof.
  induction l1 as [|x l1 IH]; intros Hs.
  - split; [constructor|intros a b []].
  - simpl in Hs. apply StronglySorted_inv in Hs as [Hs Hall].
    destruct (IH Hs) as [IH1 IH2]. rewrite List.Forall_forall in Hall. split.
    + constructor; [exact IH1|]. apply List.Forall_forall. intros y Hy.
      apply Hall. apply List.in_app_iff. now left.
    + intros a b [->|Ha] Hb; [|now apply IH2].
      apply Hall. apply List.in_app_iff. now right.
Qed.

(** Under the data-model invariants the breakpoints are the distinct left
    values followed by [l]. *)
Lemma exact_breakpoints (n l : Z) (bps : list Z) (rs : list coalescence_record_t) :
  data_model_invariants n l bps rs = true ->
  List.removelast bps = nodup Z.eq_dec (map cr_left rs).
Proof.
  intros H. unfold data_model_invariants in H.
  apply andb_true_iff in H as [H Hexact]. apply andb_true_iff in H as [Hinv Hbok].
  unfold breakpoints_exact in Hexact. apply andb_true_iff in Hexact as [Hcover Hin].
  unfold breakpoints_cover in Hcover. rewrite List.forallb_forall in Hcover, Hin.
  assert (Hsorted : StronglySorted Z.lt bps /\ bps <> [] /\ List.last bps (-1) = l).
  { unfold breakpoints_ok in Hbok. apply andb_true_iff in Hbok as [Hb Hlast].
    apply andb_true_iff in Hb as [Hinc Hfirst].
    split; [now apply increasing_sorted|]. split; [|now apply Z.eqb_eq].
    intros ->. discriminate. }
  destruct Hsorted as (Hs & Hne & Hlast).
  pose proof (List.app_removelast_last (-1) Hne) as Hsplit. rewrite Hlast in Hsplit.
  rewrite Hsplit in Hs. apply sorted_lt_app in Hs as [Hs1 Hlt].
  apply sorted_same_elements.
  - exact Hs1.
  - apply nodup_sorted. exact (inv_sorted _ _ _ Hinv).
  - intros x. rewrite nodup_In. split.
    + intros Hx. pose proof (Hlt x l Hx (or_introl eq_refl)) as Hxl.
      assert (Hxb : In x bps) by (rewrite Hsplit; apply List.in_app_iff; now left).
      specialize (Hin x Hxb). apply mem_In in Hin. unfold record_coordinates in Hin.
      apply List.in_app_iff in Hin as [Hleft|Hright]; [exact Hleft|].
      apply List.in_map_iff in Hright as (r & Hrx & Hr).
      destruct (inv_right_is_left _ _ _ Hinv r Hr) as [HL|(r' & Hr' & Hl)]; [lia|].
      rewrite <- Hrx, <- Hl. now apply List.in_map.
    + intros Hx. assert (Hxb : In x bps).
      { apply mem_In. apply Hcover. unfold record_coordinates.
        apply List.in_app_iff. now left. }
      rewrite Hsplit in Hxb. apply List.in_app_iff in Hxb as [Hxb|[<-|[]]]; [exact Hxb|].
      apply List.in_map_iff in Hx as (r & Hrx & Hr).
      destruct (inv_record _ _ _ Hinv r Hr) as (Hlr & HrL & _). lia.
Qed.

(** X21: the two modes agree on a store that keeps the data model.  Where
    the breakpoints are exactly the left and right values of the records,
    a run with [MSP_ALL_BREAKPOINTS] and a run without it make the same
    list of steps: the flag only adds steps at breakpoints where no record
    starts, and such a store has none. *)
Theorem modes_agree_on_exact_breakpoints (s : tree_sequence_t) (bps : list Z)
  (rs : list coalescence_record_t) (fl fl' : Z) (cr0 : coalescence_record_t)
  (outs : step_t) (fuel : nat) :
  store_holds s bps rs ->
  data_model_invariants (sample_size s) (num_loci s) bps rs = true ->
  store_in_range s ->
  Z.land fl MSP_ALL_BREAKPOINTS = 0 ->
  Z.land fl' MSP_ALL_BREAKPOINTS <> 0 ->
  (length rs < fuel)%nat ->
  exists steps st1 outs1 st2 outs2,
    iterate fuel (snd (tree_diff_iterator_alloc s fl)) cr0 outs
    = Done (steps, 0, st1, outs1) /\
    iterate fuel (snd (tree_diff_iterator_alloc s fl')) cr0 outs
    = Done (steps, 0, st2, outs2).
Proof.
  intros Hholds Hdm Hrange Hfl Hfl' Hfuel.
  pose proof (exact_breakpoints _ _ _ _ Hdm) as Hexact.
  unfold data_model_invariants in Hdm.
  apply andb_true_iff in Hdm as [Hdm Hex]. apply andb_true_iff in Hdm as [Hinv Hbok].
  unfold breakpoints_exact in Hex. apply andb_true_iff in Hex as [Hcover _].
  pose proof (bps_first s bps Hbok) as Hfirst.
  pose proof (lookup_lt_Some _ _ _ Hfirst) as Hlen.
  assert (Hbl : (length bps <= S (length rs))%nat).
  { assert (Hrl : length (List.removelast bps) = (length bps - 1)%nat).
    { destruct bps as [|b0 tl] using List.rev_ind; [simpl in Hlen; lia|].
      rewrite List.removelast_last, List.length_app. simpl. lia. }
    rewrite Hexact in Hrl.
    pose proof (List.NoDup_incl_length (List.NoDup_nodup Z.eq_dec (map cr_left rs))
                  (fun x => proj1 (nodup_In Z.eq_dec (map cr_left rs) x))) as Hle.
    rewrite List.length_map in Hle. lia. }
  destruct (alloc_at s bps rs Hholds Hinv Hrange fl) as (_ & Hat & Hflags & _).
  destruct (run_distinct_steps s bps rs Hholds Hinv Hrange cr0 (length rs) rs []
              (snd (tree_diff_iterator_alloc s fl)) outs fuel
              (Nat.le_refl _) Hfuel Hat ltac:(now rewrite Hflags))
    as (st1 & outs1 & Hrun1).
  destruct (run_all_breakpoints_steps s bps rs Hholds Hinv Hrange Hbok Hcover cr0
              (length bps - 1) 0 0 [] rs (snd (tree_diff_iterator_alloc s fl'))
              outs fuel ltac:(lia) ltac:(lia) Hfirst
              (alloc_breakpoint_at s bps rs Hholds Hinv Hrange Hbok Hcover fl' Hfl'))
    as (st2 & outs2 & Hrun2).
  rewrite drop_0, Hexact in Hrun2. cbn [List.app] in Hrun1.
  eexists _, st1, outs1, st2, outs2. split; [exact Hrun1|exact Hrun2].
Qed.

Lemma modes_agree_on_exact_breakpoints_witness :
  exists steps st1 outs1 st2 outs2,
    iterate 6 (snd (tree_diff_iterator_alloc S2_store 0)) record_zero blank_step
    = Done (steps, 0, st1, outs1) /\
    iterate 6 (snd (tree_diff_iterator_alloc S2_store MSP_ALL_BREAKPOINTS))
      record_zero blank_step
    = Done (steps, 0, st2, outs2).
Proof.
  apply (modes_agree_on_exact_breakpoints S2_store [0; 4; 10] S2_sorted 0
           MSP_ALL_BREAKPOINTS record_zero blank_step 6).
  - apply store_of_holds.
  - vm_compute. reflexivity.
  - unfold store_in_range. repeat split.
  - reflexivity.
  - discriminate.
  - simpl. lia.
Defined.
